(** * bcc2: the front end's helpers and recursive-descent parser

    A shallow embedding of [src/helper.c] (source positions, the SSA value
    counter, diagnostics, the mmap arena, growable vectors) and of the
    parser (integer literals, expressions, statements, functions), with the
    properties of the specification stated and settled against them.

    Conventions.
    - [size_t] and [uint64_t] are 64-bit: values are [Z] in [0, 2^64) and
      every arithmetic step of the source is followed by [wrap64].
    - A pointer is a [Z] address; [NULL] is [0].
    - A C function that can terminate the process, read outside an object
      or loop forever returns an [Outcome]. *)

From Stdlib Require Import ZArith List String Ascii Bool Lia FinFun.
Import ListNotations.
Local Open Scope Z_scope.
#[local] Set Warnings "-register-all".

(** ** Machine integers *)

Definition SIZE_MOD : Z := 2 ^ 64.
Definition wrap64 (x : Z) : Z := x mod SIZE_MOD.
Definition INT64_MAX : Z := 2 ^ 63 - 1.
Definition NULL : Z := 0.

Definition in_size_t (x : Z) : Prop := 0 <= x < SIZE_MOD.

(** [__builtin_add_overflow(a, b, &r)] with [a], [r] of type [uint64_t] and
    [b] an [int]: the sum is taken over the integers, [r] receives it
    reduced modulo 2^64, and the builtin returns true exactly when the sum
    is not representable. *)
Definition builtin_add_overflow (a b : Z) : bool * Z :=
  (negb ((0 <=? a + b) && (a + b <? SIZE_MOD)), wrap64 (a + b)).

(** ** Outcomes of a call *)

(** [struct SourcePosition { const uint8_t *start; size_t sz; }] *)
Record SourcePosition := mkPos { start : Z; sz : Z }.

(** The printf-style message of a diagnostic: the format with its variadic
    arguments.  The parser uses plain formats and one ["%.*s"] format. *)
Inductive Msg :=
| Plain (text : string)
| OverflowOn (prec : Z) (str : Z).   (* "overflow on '%.*s'", (int)sz, start *)

(** A call that does not return: [log_source_err (fmt, base, pos, ...)] or
    [log_internal_err (fmt, ...)]; both end in [exit (EXIT_FAILURE)]. *)
Inductive Diag :=
| SourceErr (m : Msg) (base : Z) (pos : SourcePosition)
| InternalErr (text : string).

Inductive Outcome (A : Type) :=
| Done (a : A)          (* the call returns *)
| Abort (d : Diag)      (* the call ends the process through a diagnostic *)
| Undef                 (* undefined behaviour: a read outside an object,
                           signed overflow *)
| NoFuel.               (* the iteration bound of the model was reached *)
Arguments Done {A} a.
Arguments Abort {A} d.
Arguments Undef {A}.
Arguments NoFuel {A}.

Definition obind {A B} (o : Outcome A) (k : A -> Outcome B) : Outcome B :=
  match o with
  | Done a => k a
  | Abort d => Abort d
  | Undef => Undef
  | NoFuel => NoFuel
  end.

(** ** The source buffer *)

(** The immutable source text: one object of [buf_bytes] bytes at address
    [buf_addr].  A read at any other address is undefined. *)
Record Buffer := mkBuffer { buf_addr : Z; buf_bytes : list Z }.

Definition buf_len (m : Buffer) : Z := Z.of_nat (List.length (buf_bytes m)).

(** The bytes of the object from address [p] to its end; empty when [p] is
    not inside the object. *)
Definition bytes_at (m : Buffer) (p : Z) : list Z :=
  if (buf_addr m <=? p) && (p <? buf_addr m + buf_len m)
  then skipn (Z.to_nat (p - buf_addr m)) (buf_bytes m)
  else [].

Definition byte_of_ascii (c : ascii) : Z := Z.of_N (N_of_ascii c).

Definition bytes_of_string (s : string) : list Z :=
  map byte_of_ascii (list_ascii_of_string s).

Definition CH_0 : Z := 48.       (* '0' *)
Definition CH_NL : Z := 10.      (* '\n' *)
Definition CH_PERCENT : Z := 37. (* '%' *)
Definition CH_NUL : Z := 0.      (* the end of a C string *)

(** * helper.c *)

Module Helper.

(** [combine_pos]: the span from the start of [pos1] to the end of [pos2].
    The pointer difference is converted to [size_t] by the addition. *)
Definition combine_pos (pos1 pos2 : SourcePosition) : SourcePosition :=
  {| start := start pos1;
     sz := wrap64 ((start pos2 - start pos1) + sz pos2) |}.

Definition make_pos (buf : Z) (n : Z) : SourcePosition :=
  {| start := buf; sz := n |}.

(** ** [next_vn]

    [static int64_t reg = 1; return reg++;].  The state is the static
    counter.  Incrementing [INT64_MAX] is signed overflow. *)
Definition reg_init : Z := 1.

Definition next_vn (reg : Z) : Outcome (Z * Z) :=
  if reg <? INT64_MAX then Done (reg, reg + 1) else Undef.

(** [n] successive calls, collecting the values returned, oldest first. *)
Fixpoint next_vn_calls (n : nat) (reg : Z) : Outcome (list Z * Z) :=
  match n with
  | O => Done ([], reg)
  | S n' =>
      obind (next_vn reg) (fun '(v, reg1) =>
      obind (next_vn_calls n' reg1) (fun '(vs, reg2) =>
      Done (v :: vs, reg2)))
  end.

(** ** Diagnostics *)

Definition EXIT_FAILURE : Z := 1.

Definition ESC : Z := 27.
Definition RED : list Z := ESC :: bytes_of_string "[0;31m".
Definition WHITE_UNDERLINE : list Z := ESC :: bytes_of_string "[1;37m".
Definition RESET : list Z := ESC :: bytes_of_string "[0m".

(** What the process has written when it ends, and its exit status. *)
Record ProcessEnd := mkEnd {
  err_stream : list Z;     (* stderr *)
  out_stream : list Z;     (* stdout, the artifact stream *)
  exit_status : Z }.

(** ["%.*s"]: at most [n] bytes from the string, stopping before a NUL.
    A negative precision counts as none: the string is printed to its
    NUL. *)
Fixpoint precision_s (avail : list Z) (n : nat) : option (list Z) :=
  match n with
  | O => Some []
  | S n' =>
      match avail with
      | [] => None
      | c :: rest =>
          if c =? 0 then Some []
          else option_map (cons c) (precision_s rest n')
      end
  end.

(** A format printed with no argument to take: an ordinary character is
    copied, ["%%"] prints one ['%'], and the format ends at its NUL.  Any
    other conversion, or a ['%'] that ends the format, is undefined. *)
Fixpoint print_format (fmt : list Z) : option (list Z) :=
  match fmt with
  | [] => Some []
  | c :: rest =>
      if c =? CH_NUL then Some []
      else if c =? CH_PERCENT then
        match rest with
        | c' :: rest' =>
            if c' =? CH_PERCENT
            then option_map (cons CH_PERCENT) (print_format rest')
            else None
        | [] => None
        end
      else option_map (cons c) (print_format rest)
  end.

(** [vfprintf (stderr, fmt, args)] for the formats the parser passes. *)
Definition vfprintf (m : Buffer) (msg : Msg) : option (list Z) :=
  match msg with
  | Plain text => print_format (bytes_of_string text)
  | OverflowOn prec str =>
      option_map
        (fun s => bytes_of_string "overflow on '" ++ s ++ bytes_of_string "'")
        (precision_s (bytes_at m str)
           (if prec <? 0 then S (List.length (bytes_at m str))
            else Z.to_nat prec))
  end.

(** The backward scan of [log_source_err]: [pos.start] is compared with
    [base], decremented, and the byte it then points to is compared with
    the newline, until one of the two tests fails.
    [before] holds the bytes of the object below [p], nearest first.  The
    result is [pos.start] when the loop is left. *)
Fixpoint scan_back (before : list Z) (p base : Z) : option Z :=
  if p =? base then Some (p - 1)
  else
    match before with
    | [] => None                      (* p[-1] is outside the object *)
    | c :: before' =>
        if c =? CH_NL then Some (p - 1) else scan_back before' (p - 1) base
    end.

Definition bytes_before (m : Buffer) (p : Z) : list Z :=
  if (buf_addr m <=? p) && (p <=? buf_addr m + buf_len m)
  then rev (firstn (Z.to_nat (p - buf_addr m)) (buf_bytes m))
  else [].

(** The forward loop of [log_source_err]: every byte up to the next
    newline goes to stderr. *)
Fixpoint put_line (avail : list Z) : option (list Z) :=
  match avail with
  | [] => None                        (* the read leaves the object *)
  | c :: rest =>
      if c =? CH_NL then Some [] else option_map (cons c) (put_line rest)
  end.

(** [log_source_err (fmt, base, pos, ...)], entered with [err0] and [out0]
    already written to the two streams.  [None] is undefined behaviour. *)
Definition log_source_err (m : Buffer) (err0 out0 : list Z)
    (msg : Msg) (base : Z) (pos : SourcePosition) : option ProcessEnd :=
  match vfprintf m msg with
  | None => None
  | Some text =>
      match scan_back (bytes_before m (start pos)) (start pos) base with
      | None => None
      | Some p =>
          match put_line (bytes_at m (p + 1)) with
          | None => None
          | Some line =>
              Some {| err_stream :=
                        err0 ++ RED ++ bytes_of_string "error" ++ RESET
                             ++ bytes_of_string ": " ++ text ++ [CH_NL]
                             ++ bytes_of_string " | " ++ WHITE_UNDERLINE
                             ++ line ++ RESET ++ [CH_NL];
                      out_stream := out0;
                      exit_status := EXIT_FAILURE |}
          end
      end
  end.

(** ** The arena *)

Definition POOL_MAX_SZ : Z := 4294967296.
Definition POOL_CHUNK_SZ : Z := 4096.
Definition MAP_FAILED : Z := -1.

(** [struct MemPool]: [base] the mapping, [size] the bytes handed out,
    [alloc] the bytes made readable and writable. *)
Record MemPool := mkPool { base : Z; size : Z; alloc : Z }.

(** The memory-management system calls a pool operation issues. *)
Inductive SysCall :=
| Mmap (len : Z)
| Mprotect (addr len : Z)          (* PROT_READ | PROT_WRITE *)
| Munmap (addr len : Z).

(** [mempool_init]: [mmap_ret] and [mprotect_ret] are what the two system
    calls return.  [log_internal_err] ends the process. *)
Definition mempool_init (mmap_ret mprotect_ret : Z)
  : Outcome (MemPool * list SysCall) :=
  if mmap_ret =? MAP_FAILED
  then Abort (InternalErr "unable to open mmap pool")
  else if mprotect_ret =? -1
  then Abort (InternalErr "unable to block out memory in pool")
  else Done ({| base := mmap_ret; size := 0; alloc := POOL_CHUNK_SZ |},
             [Mmap POOL_MAX_SZ; Mprotect mmap_ret POOL_CHUNK_SZ]).

(** [mempool_deinit]: [munmap_ret] is what [munmap] returns. *)
Definition mempool_deinit (pool : MemPool) (munmap_ret : Z)
  : Outcome (MemPool * list SysCall) :=
  if munmap_ret =? -1
  then Abort (InternalErr "unable to close memory pool")
  else Done ({| base := NULL; size := size pool; alloc := alloc pool |},
             [Munmap (base pool) POOL_MAX_SZ]).

(** [while (ret < requested) ret += POOL_CHUNK_SZ;] *)
Fixpoint size_needed_loop (fuel : nat) (ret requested : Z) : Outcome Z :=
  if ret <? requested then
    match fuel with
    | O => NoFuel
    | S fuel' =>
        size_needed_loop fuel' (wrap64 (ret + POOL_CHUNK_SZ)) requested
    end
  else Done ret.

(** The bound covers every terminating run: the loop adds one chunk per
    iteration, so it has left after [requested / POOL_CHUNK_SZ + 1] rounds
    unless [ret] wraps around first. *)
Definition size_needed (requested : Z) : Outcome Z :=
  size_needed_loop (S (Z.to_nat (requested / POOL_CHUNK_SZ))) 0 requested.

(** [mempool_alloc]: the pointer returned, the pool after the call and the
    system calls issued.  The source does not test what [mprotect]
    returns; inside the reserved mapping it is taken to succeed. *)
Definition mempool_alloc (pool : MemPool) (amount : Z)
  : Outcome (Z * MemPool * list SysCall) :=
  obind
    (if wrap64 (size pool + amount + 1) >=? alloc pool then
       obind (size_needed amount) (fun needed =>
         if wrap64 (alloc pool + needed) >? POOL_MAX_SZ
         then Abort (InternalErr "out of memory in mmap pool")
         else Done ({| base := base pool; size := size pool;
                       alloc := wrap64 (alloc pool + needed) |},
                    [Mprotect (base pool + alloc pool) needed]))
     else Done (pool, []))
    (fun '(pool1, calls) =>
       Done (base pool1 + size pool1,
             {| base := base pool1;
                size := wrap64 (size pool1 + amount);
                alloc := alloc pool1 |},
             calls)).

(** A region handed out: its address and its length. *)
Definition Region : Type := Z * Z.

(** A sequence of [mempool_alloc] calls, one per requested amount. *)
Fixpoint mempool_allocs (pool : MemPool) (amounts : list Z)
  : Outcome (list Region * MemPool * list SysCall) :=
  match amounts with
  | [] => Done ([], pool, [])
  | amount :: rest =>
      obind (mempool_alloc pool amount) (fun '(p, pool1, calls1) =>
      obind (mempool_allocs pool1 rest) (fun '(regions, pool2, calls2) =>
      Done ((p, amount) :: regions, pool2, calls1 ++ calls2)))
  end.

(** ** Vectors *)

Definition VEC_INIT_ALLOC : Z := 32.

(** [struct Vector]: [data] points into the arena; the element bytes live
    there and are not part of the record. *)
Record Vector := mkVector { it_sz : Z; items : Z; valloc : Z; data : Z }.

Definition vector_init (sz_item : Z) (pool : MemPool)
  : Outcome (Vector * MemPool) :=
  obind (mempool_alloc pool (wrap64 (sz_item * VEC_INIT_ALLOC)))
    (fun '(p, pool1, _) =>
       Done ({| it_sz := sz_item; items := 0; valloc := VEC_INIT_ALLOC;
                data := p |}, pool1)).

Definition vector_init_size (sz_item : Z) (pool : MemPool) (n : Z)
  : Outcome (Vector * MemPool) :=
  obind (mempool_alloc pool (wrap64 (sz_item * n)))
    (fun '(p, pool1, _) =>
       Done ({| it_sz := sz_item; items := n; valloc := n; data := p |},
             pool1)).

(** [vector_resize]: a region twice as large; the items are copied to it. *)
Definition vector_resize (vec : Vector) (pool : MemPool)
  : Outcome (Vector * MemPool) :=
  obind (mempool_alloc pool (wrap64 (wrap64 (valloc vec * it_sz vec) * 2)))
    (fun '(p, pool1, _) =>
       Done ({| it_sz := it_sz vec; items := items vec;
                valloc := wrap64 (valloc vec * 2); data := p |}, pool1)).

(** [vector_alloc]: the address of the new last item. *)
Definition vector_alloc (vec : Vector) (pool : MemPool)
  : Outcome (Z * Vector * MemPool) :=
  obind (if wrap64 (items vec + 1) >? valloc vec
         then vector_resize vec pool else Done (vec, pool))
    (fun '(vec1, pool1) =>
       Done (data vec1 + wrap64 (items vec1 * it_sz vec1),
             {| it_sz := it_sz vec1; items := wrap64 (items vec1 + 1);
                valloc := valloc vec1; data := data vec1 |},
             pool1)).

(** [vector_idx] *)
Definition vector_idx (vec : Vector) (idx : Z) : Z :=
  if idx >=? items vec then NULL
  else data vec + wrap64 (idx * it_sz vec).

End Helper.


(** * The parser

    AST nodes live in the arena and are linked by pointers; here a node is
    a value and a pointer to a node is the node, so that [Expr *] is [Expr]
    and a [Vector] of items is the list of its items in order.  The arena
    itself is the subject of [Helper.mempool_alloc]; the allocations of
    the parser, each of which can end the process out of memory, are
    added in [Pooled], whose runs are those of the functions here unless
    the arena is used up. *)

Module Parser.
Import Helper.

(** ** Tokens (lexer.h) *)

Inductive TokKind :=
| TOK_EOF | TOK_NEWLINE
| TOK_INT | TOK_SYM
| TOK_LPAREN | TOK_RPAREN | TOK_LCURLY | TOK_RCURLY
| TOK_COMMA | TOK_COLON | TOK_EQ
| TOK_ADD | TOK_SUB | TOK_MUL | TOK_DIV
| TOK_DEQ | TOK_NEQ | TOK_GR | TOK_LE | TOK_GREQ | TOK_LEEQ
| TOK_LET | TOK_MUT | TOK_RETURN
| TOK_U8 | TOK_U16 | TOK_U32 | TOK_U64
| TOK_I8 | TOK_I16 | TOK_I32 | TOK_I64 | TOK_BOOL.

Inductive IntLitType :=
| INTLIT_U8 | INTLIT_I8 | INTLIT_U16 | INTLIT_I16 | INTLIT_U32
| INTLIT_I32 | INTLIT_U64 | INTLIT_I64 | INTLIT_I64_NONE.

Record Token := mkToken {
  t : TokKind;
  pos : SourcePosition;
  intlit_type : IntLitType }.

(** ** The AST (ast.h) *)

Inductive BinOp :=
| BINOP_ADD | BINOP_SUB | BINOP_MUL | BINOP_DIV
| BINOP_EQ | BINOP_NEQ | BINOP_GR | BINOP_LE | BINOP_GREQ | BINOP_LEEQ.

(** The type singletons [&U8_const], ..., [&void_const]. *)
Inductive TypeConst :=
| U8_const | U16_const | U32_const | U64_const
| I8_const | I16_const | I32_const | I64_const
| bool_const | void_const.

(** [struct Expr]: every node the parser builds has its [type] field
    [NULL], so the field is left out. *)
Inductive Expr :=
| EXPR_INT (p : SourcePosition) (val : Z) (type : IntLitType)
| EXPR_VAR (p : SourcePosition)
| EXPR_BINOP (p : SourcePosition) (op : BinOp) (left right : Expr)
| EXPR_FUNCALL (p : SourcePosition) (name : SourcePosition)
    (args : list Expr).

Definition expr_pos (e : Expr) : SourcePosition :=
  match e with
  | EXPR_INT p _ _ => p
  | EXPR_VAR p => p
  | EXPR_BINOP p _ _ _ => p
  | EXPR_FUNCALL p _ _ => p
  end.

(** [struct Stmt]; [None] is a [NULL] pointer.  Only [parse_let] sets the
    statement's own position. *)
Inductive Stmt :=
| STMT_LET (p : SourcePosition) (name : SourcePosition)
    (type : option TypeConst) (value : option Expr) (mut : Z)
| STMT_RETURN (ret : option Expr)
| STMT_EXPR (expr : Expr).

Record Param := mkParam { param_name : SourcePosition; param_type : TypeConst }.

Record Function := mkFunction {
  fn_name : SourcePosition;
  fn_pos : SourcePosition;
  params : list Param;
  ret_type : TypeConst;
  body : list Stmt }.

(** ** Integer literals *)

Definition intlit_pos_sz (ty : IntLitType) : Z :=
  match ty with
  | INTLIT_U8 => 2 | INTLIT_I8 => 2
  | INTLIT_U16 => 3 | INTLIT_I16 => 3
  | INTLIT_U32 => 3 | INTLIT_I32 => 3
  | INTLIT_U64 => 3 | INTLIT_I64 => 3
  | INTLIT_I64_NONE => 0
  end.

(** The loop of [pos_to_num].  [avail] holds the bytes of the source buffer
    from [pos.start + i] on; [acc] is the cell [ret] points to.  The result
    pairs the value returned with the final content of the cell. *)
Fixpoint pos_to_num_loop (avail : list Z) (i n acc : Z) : Outcome (Z * Z) :=
  if i <? n then
    match avail with
    | [] => Undef
    | c :: rest =>
        let '(overflow, r) := builtin_add_overflow acc (c - CH_0) in
        if negb overflow then Done (0, r)
        else pos_to_num_loop rest (i + 1) n r
    end
  else Done (1, acc).

Definition pos_to_num (m : Buffer) (p : SourcePosition) (cell : Z)
  : Outcome (Z * Z) :=
  pos_to_num_loop (bytes_at m (start p)) 0 (sz p) cell.

(** The conversion [(int) x] of a [size_t]. *)
Definition int_of_size_t (x : Z) : Z :=
  let y := x mod 2 ^ 32 in if y <? 2 ^ 31 then y else y - 2 ^ 32.

(** The span handed to [pos_to_num]: the token without its suffix. *)
Definition digits_pos (whole_pos : SourcePosition) (ty : IntLitType)
  : SourcePosition :=
  {| start := start whole_pos;
     sz := wrap64 (sz whole_pos - intlit_pos_sz ty) |}.

(** [make_intlit_expr (ast, whole_pos, t)].  [m] is the source buffer,
    [ast_src_base] is [ast->src_base] and [cell] what the [val] field of
    the new node holds when [make_expr] returns it. *)
Definition make_intlit_expr (m : Buffer) (ast_src_base : Z) (cell : Z)
    (whole_pos : SourcePosition) (ty : IntLitType) : Outcome Expr :=
  let dpos := digits_pos whole_pos ty in
  obind (pos_to_num m dpos cell) (fun '(rc, v) =>
    if rc =? 0 then Done (EXPR_INT whole_pos v ty)
    else
      let wpos := {| start := start dpos;
                     sz := wrap64 (sz dpos + intlit_pos_sz ty) |} in
      Abort (SourceErr (OverflowOn (int_of_size_t (sz wpos)) (start wpos))
               ast_src_base wpos)).

(** The arena maps fresh anonymous memory and never hands a byte out
    twice, so a new node's [val] field holds zero. *)
Definition FRESH_CELL : Z := 0.

(** ** Parser state *)

(** Modelled from the spec: the tokenizer (lexer.c is not part of the
    sources at hand) is a linear scan producing a token stream with
    source-position spans.  Its state is the list of tokens not yet
    consumed; once they are used up it keeps answering with the
    end-of-file token.  [src_base] is the parser's file-scope pointer. *)
Record PState := mkPState {
  toks : list Token;
  eof_pos : SourcePosition;
  src_base : Z }.

Definition M (A : Type) : Type := PState -> Outcome (A * PState).

Definition ret {A} (a : A) : M A := fun st => Done (a, st).

Definition bind {A B} (c : M A) (k : A -> M B) : M B :=
  fun st =>
    match c st with
    | Done (a, st') => k a st'
    | Abort d => Abort d
    | Undef => Undef
    | NoFuel => NoFuel
    end.

Definition lift {A} (o : Outcome A) : M A :=
  fun st => obind o (fun a => Done (a, st)).

Definition out_of_fuel {A} : M A := fun _ => NoFuel.

Notation "x <- c ;; k" := (bind c (fun x => k))
  (at level 61, c at next level, right associativity).
Notation "c ;; k" := (bind c (fun _ => k))
  (at level 61, right associativity).

Definition eof_token (st : PState) : Token :=
  {| t := TOK_EOF; pos := eof_pos st; intlit_type := INTLIT_I64_NONE |}.

Definition peek_token (st : PState) : Token :=
  match toks st with
  | [] => eof_token st
  | tok :: _ => tok
  end.

Definition lexer_peek : M Token := fun st => Done (peek_token st, st).

(** The state once the lexer has moved on to the tokens [ts]. *)
Definition with_toks (st : PState) (ts : list Token) : PState :=
  {| toks := ts; eof_pos := eof_pos st; src_base := src_base st |}.

Definition lexer_next : M Token :=
  fun st => Done (peek_token st, with_toks st (tl (toks st))).

(** [log_source_err (fmt, src_base, pos)] with the file-scope [src_base]. *)
Definition source_err {A} (text : string) (p : SourcePosition) : M A :=
  fun st => Abort (SourceErr (Plain text) (src_base st) p).

Scheme Equality for TokKind.

Definition expect (k : TokKind) (err_msg : string) : M Token :=
  r <- lexer_next ;;
  if TokKind_beq (t r) k then ret r else source_err err_msg (pos r).

(** ** Expressions *)

Definition is_mulop (k : TokKind) : bool :=
  match k with TOK_MUL | TOK_DIV => true | _ => false end.

Definition is_addop (k : TokKind) : bool :=
  match k with TOK_ADD | TOK_SUB => true | _ => false end.

Definition is_compop (k : TokKind) : bool :=
  match k with
  | TOK_DEQ | TOK_NEQ | TOK_GR | TOK_LE | TOK_GREQ | TOK_LEEQ => true
  | _ => false
  end.

(** The [switch] of [parse_binop]: the operator a token kind stands for. *)
Definition binop_of (k : TokKind) : option BinOp :=
  match k with
  | TOK_ADD => Some BINOP_ADD
  | TOK_SUB => Some BINOP_SUB
  | TOK_MUL => Some BINOP_MUL
  | TOK_DIV => Some BINOP_DIV
  | TOK_DEQ => Some BINOP_EQ
  | TOK_NEQ => Some BINOP_NEQ
  | TOK_GR => Some BINOP_GR
  | TOK_LE => Some BINOP_LE
  | TOK_GREQ => Some BINOP_GREQ
  | TOK_LEEQ => Some BINOP_LEEQ
  | _ => None
  end.

Definition parse_binop : M BinOp :=
  tok <- lexer_next ;;
  match binop_of (t tok) with
  | Some op => ret op
  | None => fun _ => Abort (InternalErr "impossible binary op token %d")
  end.

(** The node each operator loop builds from [ret], [right] and [op]. *)
Definition make_binop (l r : Expr) (op : BinOp) : Expr :=
  EXPR_BINOP (combine_pos (expr_pos l) (expr_pos r)) op l r.

Section WithSource.

(** The source buffer and [ast->src_base]. *)
Variable m : Buffer.
Variable ast_src_base : Z.

(** The mutually recursive expression functions.  The first argument
    bounds the depth of calls and the number of loop rounds: every call
    and every round passes on one unit less, and [NoFuel] is answered
    when none is left.  A loop of the source is the function named
    after it with the suffix [_loop]; its extra argument is the variable
    the loop updates. *)
Fixpoint parse_primary (n : nat) : M Expr :=
  match n with
  | O => out_of_fuel
  | S n' =>
      tok <- lexer_next ;;
      match t tok with
      | TOK_INT =>
          lift (make_intlit_expr m ast_src_base FRESH_CELL (pos tok)
                  (intlit_type tok))
      | TOK_SYM =>
          nxt <- lexer_peek ;;
          if TokKind_beq (t nxt) TOK_LPAREN then parse_funcall n' tok
          else ret (EXPR_VAR (pos tok))
      | TOK_LPAREN =>
          e <- parse_comp n' ;;
          expect TOK_RPAREN "expected ')'" ;;
          ret e
      | _ => source_err "expected expression" (pos tok)
      end
  end

with parse_funcall (n : nat) (name_tok : Token) : M Expr :=
  match n with
  | O => out_of_fuel
  | S n' =>
      lexer_next ;;
      args <- parse_funcall_loop n' [] ;;
      last_paren <- expect TOK_RPAREN "expected ')'" ;;
      ret (EXPR_FUNCALL (combine_pos (pos name_tok) (pos last_paren))
             (pos name_tok) args)
  end

with parse_funcall_loop (n : nat) (args : list Expr) : M (list Expr) :=
  match n with
  | O => out_of_fuel
  | S n' =>
      nxt <- lexer_peek ;;
      if TokKind_beq (t nxt) TOK_RPAREN then ret args
      else
        temp <- parse_comp n' ;;
        nxt' <- lexer_peek ;;
        if negb (TokKind_beq (t nxt') TOK_COMMA) then ret (args ++ [temp])
        else lexer_next ;; parse_funcall_loop n' (args ++ [temp])
  end

with parse_factor (n : nat) : M Expr :=
  match n with
  | O => out_of_fuel
  | S n' => e <- parse_primary n' ;; parse_factor_loop n' e
  end

with parse_factor_loop (n : nat) (e : Expr) : M Expr :=
  match n with
  | O => out_of_fuel
  | S n' =>
      tok <- lexer_peek ;;
      if is_mulop (t tok) then
        op <- parse_binop ;;
        right <- parse_primary n' ;;
        parse_factor_loop n' (make_binop e right op)
      else ret e
  end

with parse_term (n : nat) : M Expr :=
  match n with
  | O => out_of_fuel
  | S n' => e <- parse_factor n' ;; parse_term_loop n' e
  end

with parse_term_loop (n : nat) (e : Expr) : M Expr :=
  match n with
  | O => out_of_fuel
  | S n' =>
      tok <- lexer_peek ;;
      if is_addop (t tok) then
        op <- parse_binop ;;
        right <- parse_factor n' ;;
        parse_term_loop n' (make_binop e right op)
      else ret e
  end

with parse_comp (n : nat) : M Expr :=
  match n with
  | O => out_of_fuel
  | S n' => e <- parse_term n' ;; parse_comp_loop n' e
  end

with parse_comp_loop (n : nat) (e : Expr) : M Expr :=
  match n with
  | O => out_of_fuel
  | S n' =>
      tok <- lexer_peek ;;
      if is_compop (t tok) then
        op <- parse_binop ;;
        right <- parse_term n' ;;
        parse_comp_loop n' (make_binop e right op)
      else ret e
  end.

Definition parse_expr (n : nat) : M Expr := parse_comp n.

(** ** Types, statements, functions *)

(** The [switch] of [parse_type]: the type a token kind names. *)
Definition type_const_of (k : TokKind) : option TypeConst :=
  match k with
  | TOK_U8 => Some U8_const
  | TOK_U16 => Some U16_const
  | TOK_U32 => Some U32_const
  | TOK_U64 => Some U64_const
  | TOK_I8 => Some I8_const
  | TOK_I16 => Some I16_const
  | TOK_I32 => Some I32_const
  | TOK_I64 => Some I64_const
  | TOK_BOOL => Some bool_const
  | _ => None
  end.

Definition parse_type : M TypeConst :=
  type_tok <- lexer_next ;;
  match type_const_of (t type_tok) with
  | Some ty => ret ty
  | None => source_err "expected type name" (pos type_tok)
  end.

(** [parse_let (ast, stmt, mut)]: the statement written to [stmt]. *)
Definition parse_let (n : nat) (mut : Z) : M Stmt :=
  first_tok <- lexer_next ;;
  var_name <- expect TOK_SYM "expected variable name" ;;
  middle_tok <- lexer_next ;;
  match t middle_tok with
  | TOK_EQ =>
      value <- parse_expr n ;;
      last_tok <- expect TOK_NEWLINE "expected newline or ';'" ;;
      ret (STMT_LET (combine_pos (pos first_tok) (pos last_tok))
             (pos var_name) None (Some value) mut)
  | TOK_COLON =>
      type <- parse_type ;;
      equal_tok <- lexer_next ;;
      match t equal_tok with
      | TOK_EQ =>
          value <- parse_expr n ;;
          last_tok <- expect TOK_NEWLINE "expected newline or ';'" ;;
          ret (STMT_LET (combine_pos (pos first_tok) (pos last_tok))
                 (pos var_name) (Some type) (Some value) mut)
      | TOK_NEWLINE =>
          ret (STMT_LET (combine_pos (pos first_tok) (pos equal_tok))
                 (pos var_name) (Some type) None mut)
      | _ => source_err "expected '=' or ';'" (pos equal_tok)
      end
  | _ => source_err "expected '=' or ':'" (pos middle_tok)
  end.

Definition parse_expr_stmt (n : nat) : M Stmt :=
  e <- parse_expr n ;;
  expect TOK_NEWLINE "expected newline or ';'" ;;
  ret (STMT_EXPR e).

Definition parse_return (n : nat) : M Stmt :=
  lexer_next ;;
  nxt <- lexer_peek ;;
  if TokKind_beq (t nxt) TOK_NEWLINE then
    lexer_next ;; ret (STMT_RETURN None)
  else
    e <- parse_expr n ;;
    expect TOK_NEWLINE "expected newline or ';'" ;;
    ret (STMT_RETURN (Some e)).

(** The [while (1)] of [parse_block]; [stmts] is [block->stmts]. *)
Fixpoint parse_block_loop (n : nat) (stmts : list Stmt) : M (list Stmt) :=
  match n with
  | O => out_of_fuel
  | S n' =>
      nxt <- lexer_peek ;;
      match t nxt with
      | TOK_LET =>
          s <- parse_let n' 0 ;; parse_block_loop n' (stmts ++ [s])
      | TOK_RETURN =>
          s <- parse_return n' ;; parse_block_loop n' (stmts ++ [s])
      | TOK_MUT =>
          s <- parse_let n' 1 ;; parse_block_loop n' (stmts ++ [s])
      | TOK_RCURLY => lexer_next ;; ret stmts
      | _ =>
          s <- parse_expr_stmt n' ;; parse_block_loop n' (stmts ++ [s])
      end
  end.

Definition parse_block (n : nat) : M (list Stmt) :=
  lexer_next ;; parse_block_loop n [].

(** The parameter loop of [parse_fn]; [ps] is [function->params]. *)
Fixpoint parse_fn_params (n : nat) (ps : list Param) : M (list Param) :=
  match n with
  | O => out_of_fuel
  | S n' =>
      nxt <- lexer_peek ;;
      if negb (TokKind_beq (t nxt) TOK_RPAREN) then
        name_tok <- expect TOK_SYM "expected param name" ;;
        ty <- parse_type ;;
        nxt' <- lexer_peek ;;
        (if TokKind_beq (t nxt') TOK_COMMA then lexer_next ;; ret tt
         else ret tt) ;;
        parse_fn_params n'
          (ps ++ [{| param_name := pos name_tok; param_type := ty |}])
      else ret ps
  end.

Definition parse_fn (n : nat) : M Function :=
  name_tok <- expect TOK_SYM "expected function name" ;;
  expect TOK_LPAREN "expected '('" ;;
  ps <- parse_fn_params n [] ;;
  lexer_next ;;
  nxt <- lexer_peek ;;
  rty <- (if negb (TokKind_beq (t nxt) TOK_LCURLY) then parse_type
          else ret void_const) ;;
  stmts <- parse_block n ;;
  ret {| fn_name := pos name_tok; fn_pos := pos name_tok;
         params := ps; ret_type := rty; body := stmts |}.

(** The loop of [parse_ast]; [fns] is [ret.fns]. *)
Fixpoint parse_ast_loop (n : nat) (fns : list Function)
  : M (list Function) :=
  match n with
  | O => out_of_fuel
  | S n' =>
      nxt <- lexer_peek ;;
      if negb (TokKind_beq (t nxt) TOK_EOF) then
        f <- parse_fn n' ;; parse_ast_loop n' (fns ++ [f])
      else ret fns
  end.

End WithSource.

Definition set_src_base (p : Z) : M unit :=
  fun st =>
    Done (tt, {| toks := toks st; eof_pos := eof_pos st; src_base := p |}).

(** [parse_ast (src)].  Modelled from the spec: [ast_init] (ast.c is not
    part of the sources at hand) prepares the AST for the one immutable
    source buffer supplied to the compilation, so [ast->src_base] is [src].
    The functions are parsed first; the file-scope [src_base] is assigned
    after the loop. *)
Definition parse_ast (m : Buffer) (n : nat) (src : Z) : M (list Function) :=
  fns <- parse_ast_loop m src n [] ;;
  set_src_base src ;;
  ret fns.

(** The state [parse_ast] starts in when it is called for the first time:
    the file-scope pointer has not been assigned and is null. *)
Definition initial_state (ts : list Token) (eof : SourcePosition) : PState :=
  {| toks := ts; eof_pos := eof; src_base := NULL |}.

End Parser.

(** * Notions of the specification

    Definitions that follow the words of the specification rather than the
    code; the theorems compare the code with them. *)

Module Spec.
Import Helper Parser.

(** ** Integer literals *)

(** The suffix that encodes a literal type; none for the default type. *)
Definition suffix_text (ty : IntLitType) : string :=
  match ty with
  | INTLIT_U8 => "u8" | INTLIT_I8 => "i8"
  | INTLIT_U16 => "u16" | INTLIT_I16 => "i16"
  | INTLIT_U32 => "u32" | INTLIT_I32 => "i32"
  | INTLIT_U64 => "u64" | INTLIT_I64 => "i64"
  | INTLIT_I64_NONE => ""
  end.

(** The largest value of the type a literal type stands for; the default
    is signed 64-bit. *)
Definition type_max (ty : IntLitType) : Z :=
  match ty with
  | INTLIT_U8 => 2 ^ 8 - 1 | INTLIT_I8 => 2 ^ 7 - 1
  | INTLIT_U16 => 2 ^ 16 - 1 | INTLIT_I16 => 2 ^ 15 - 1
  | INTLIT_U32 => 2 ^ 32 - 1 | INTLIT_I32 => 2 ^ 31 - 1
  | INTLIT_U64 => 2 ^ 64 - 1 | INTLIT_I64 => 2 ^ 63 - 1
  | INTLIT_I64_NONE => 2 ^ 63 - 1
  end.

Definition is_digit (c : Z) : bool := (CH_0 <=? c) && (c <=? CH_0 + 9).

(** The number a string of decimal digits denotes. *)
Definition numeric_value (digits : list Z) : Z :=
  fold_left (fun acc c => 10 * acc + (c - CH_0)) digits 0.

(** The bytes a span covers. *)
Definition span_bytes (m : Buffer) (p : SourcePosition) : list Z :=
  firstn (Z.to_nat (sz p)) (bytes_at m (start p)).

Definition span_inside (m : Buffer) (p : SourcePosition) : Prop :=
  buf_addr m <= start p /\ in_size_t (sz p) /\
  start p + sz p <= buf_addr m + buf_len m.

(** An integer-literal token as the specification describes it: a
    non-empty run of decimal digits followed by the suffix of its type. *)
Definition literal_token (m : Buffer) (p : SourcePosition)
    (ty : IntLitType) (digits : list Z) : Prop :=
  span_inside m p /\
  span_bytes m p = digits ++ bytes_of_string (suffix_text ty) /\
  digits <> [] /\
  forallb is_digit digits = true.

(** The conversion as the specification words it: every digit is added
    with an overflow check; the result is success (0) with the sum of all
    digits, or overflow (1) as soon as an addition overflows. *)
Fixpoint checked_digit_sum (digits : list Z) (acc : Z) : Z * Z :=
  match digits with
  | [] => (0, acc)
  | c :: rest =>
      let '(overflow, r) := builtin_add_overflow acc (c - CH_0) in
      if overflow then (1, r) else checked_digit_sum rest r
  end.

(** ** The expression grammar

    The grammar read off the three operator loops of the parser, phrased
    with the parser's token tests; [E_level] below is the specification's
    own, and the two are proved to derive the same trees.
    [G_x ts e rest]: the tokens [ts] start with an [x] whose tree is [e],
    and [rest] follows it. *)

Definition peek_kind (ts : list Token) : TokKind :=
  match ts with
  | [] => TOK_EOF
  | tok :: _ => t tok
  end.

Definition is_binop (k : TokKind) : bool :=
  is_mulop k || is_addop k || is_compop k.

Section Grammar.

Variable m : Buffer.
Variable ast_src_base : Z.

Inductive G_primary : list Token -> Expr -> list Token -> Prop :=
| G_int tok rest e :
    t tok = TOK_INT ->
    make_intlit_expr m ast_src_base FRESH_CELL (pos tok) (intlit_type tok)
      = Done e ->
    G_primary (tok :: rest) e rest
| G_var tok rest :
    t tok = TOK_SYM ->
    peek_kind rest <> TOK_LPAREN ->
    G_primary (tok :: rest) (EXPR_VAR (pos tok)) rest
| G_call tok lp ts args rp rest :
    t tok = TOK_SYM ->
    t lp = TOK_LPAREN ->
    G_args ts args (rp :: rest) ->
    t rp = TOK_RPAREN ->
    G_primary (tok :: lp :: ts)
      (EXPR_FUNCALL (combine_pos (pos tok) (pos rp)) (pos tok) args) rest
| G_paren lp ts e rp rest :
    t lp = TOK_LPAREN ->
    G_comp ts e (rp :: rest) ->
    t rp = TOK_RPAREN ->
    G_primary (lp :: ts) e rest

(** Arguments: expressions separated by commas, the last one optionally
    followed by a comma, up to the closing parenthesis. *)
with G_args : list Token -> list Expr -> list Token -> Prop :=
| G_args_nil ts :
    peek_kind ts = TOK_RPAREN ->
    G_args ts [] ts
| G_args_last ts e rest :
    peek_kind ts <> TOK_RPAREN ->
    G_comp ts e rest ->
    peek_kind rest = TOK_RPAREN ->
    G_args ts [e] rest
| G_args_cons ts e comma ts1 args rest :
    peek_kind ts <> TOK_RPAREN ->
    G_comp ts e (comma :: ts1) ->
    t comma = TOK_COMMA ->
    G_args ts1 args rest ->
    G_args ts (e :: args) rest

with G_factor : list Token -> Expr -> list Token -> Prop :=
| G_factor_primary ts e rest :
    G_primary ts e rest ->
    G_factor ts e rest
| G_factor_binop ts l optok ts1 op r rest :
    G_factor ts l (optok :: ts1) ->
    is_mulop (t optok) = true ->
    binop_of (t optok) = Some op ->
    G_primary ts1 r rest ->
    G_factor ts (make_binop l r op) rest

with G_term : list Token -> Expr -> list Token -> Prop :=
| G_term_factor ts e rest :
    G_factor ts e rest ->
    G_term ts e rest
| G_term_binop ts l optok ts1 op r rest :
    G_term ts l (optok :: ts1) ->
    is_addop (t optok) = true ->
    binop_of (t optok) = Some op ->
    G_factor ts1 r rest ->
    G_term ts (make_binop l r op) rest

with G_comp : list Token -> Expr -> list Token -> Prop :=
| G_comp_term ts e rest :
    G_term ts e rest ->
    G_comp ts e rest
| G_comp_binop ts l optok ts1 op r rest :
    G_comp ts l (optok :: ts1) ->
    is_compop (t optok) = true ->
    binop_of (t optok) = Some op ->
    G_term ts1 r rest ->
    G_comp ts (make_binop l r op) rest.

End Grammar.

Scheme G_primary_min := Minimality for G_primary Sort Prop
  with G_args_min := Minimality for G_args Sort Prop
  with G_factor_min := Minimality for G_factor Sort Prop
  with G_term_min := Minimality for G_term Sort Prop
  with G_comp_min := Minimality for G_comp Sort Prop.

Combined Scheme G_mutual_ind from
  G_primary_min, G_args_min, G_factor_min, G_term_min, G_comp_min.

(** ** Operator precedence

    The specification's own table of the binary operators: comparison
    [== != > < >= <=] is the loosest level, the additive operators [+ -]
    bind tighter, the multiplicative ones [* /] tightest.  Nothing here
    refers to the tests or the node builder of the parser. *)

Inductive Level := Comparison | Additive | Multiplicative.

Definition level_rank (l : Level) : Z :=
  match l with
  | Comparison => 0
  | Additive => 1
  | Multiplicative => 2
  end.

(** [binds_tighter l1 l2]: an operator of level [l1] binds tighter than
    one of level [l2]. *)
Definition binds_tighter (l1 l2 : Level) : bool :=
  level_rank l2 <? level_rank l1.

(** The operator a token spells, and its level. *)
Definition operator (k : TokKind) : option (BinOp * Level) :=
  match k with
  | TOK_DEQ => Some (BINOP_EQ, Comparison)
  | TOK_NEQ => Some (BINOP_NEQ, Comparison)
  | TOK_GR => Some (BINOP_GR, Comparison)
  | TOK_LE => Some (BINOP_LE, Comparison)
  | TOK_GREQ => Some (BINOP_GREQ, Comparison)
  | TOK_LEEQ => Some (BINOP_LEEQ, Comparison)
  | TOK_ADD => Some (BINOP_ADD, Additive)
  | TOK_SUB => Some (BINOP_SUB, Additive)
  | TOK_MUL => Some (BINOP_MUL, Multiplicative)
  | TOK_DIV => Some (BINOP_DIV, Multiplicative)
  | _ => None
  end.

(** The node of a binary operation: the operator with its two operands,
    spanning the source from the left operand to the right one. *)
Definition binary (op : BinOp) (l r : Expr) : Expr :=
  EXPR_BINOP (combine_pos (expr_pos l) (expr_pos r)) op l r.

Section Precedence.

Variable m : Buffer.
Variable ast_src_base : Z.

(** [E_level l ts e rest]: the tokens [ts] start with an expression whose
    operators outside parentheses and arguments are of level [l] or
    tighter; [e] is its tree and [rest] follows it.  An operator takes as
    its left operand an expression of its own level, which makes it
    left-associative, and as its right operand one of the next tighter
    level ([E_operand]). *)
Inductive E_primary : list Token -> Expr -> list Token -> Prop :=
| E_int tok rest e :
    t tok = TOK_INT ->
    make_intlit_expr m ast_src_base FRESH_CELL (pos tok) (intlit_type tok)
      = Done e ->
    E_primary (tok :: rest) e rest
| E_var tok rest :
    t tok = TOK_SYM ->
    peek_kind rest <> TOK_LPAREN ->
    E_primary (tok :: rest) (EXPR_VAR (pos tok)) rest
| E_call tok lp ts args rp rest :
    t tok = TOK_SYM ->
    t lp = TOK_LPAREN ->
    E_args ts args (rp :: rest) ->
    t rp = TOK_RPAREN ->
    E_primary (tok :: lp :: ts)
      (EXPR_FUNCALL (combine_pos (pos tok) (pos rp)) (pos tok) args) rest
| E_paren lp ts e rp rest :
    t lp = TOK_LPAREN ->
    E_level Comparison ts e (rp :: rest) ->
    t rp = TOK_RPAREN ->
    E_primary (lp :: ts) e rest

with E_args : list Token -> list Expr -> list Token -> Prop :=
| E_args_nil ts :
    peek_kind ts = TOK_RPAREN ->
    E_args ts [] ts
| E_args_last ts e rest :
    peek_kind ts <> TOK_RPAREN ->
    E_level Comparison ts e rest ->
    peek_kind rest = TOK_RPAREN ->
    E_args ts [e] rest
| E_args_cons ts e comma ts1 args rest :
    peek_kind ts <> TOK_RPAREN ->
    E_level Comparison ts e (comma :: ts1) ->
    t comma = TOK_COMMA ->
    E_args ts1 args rest ->
    E_args ts (e :: args) rest

with E_operand : Level -> list Token -> Expr -> list Token -> Prop :=
| E_operand_comparison ts e rest :
    E_level Additive ts e rest ->
    E_operand Comparison ts e rest
| E_operand_additive ts e rest :
    E_level Multiplicative ts e rest ->
    E_operand Additive ts e rest
| E_operand_multiplicative ts e rest :
    E_primary ts e rest ->
    E_operand Multiplicative ts e rest

with E_level : Level -> list Token -> Expr -> list Token -> Prop :=
| E_tighter l ts e rest :
    E_operand l ts e rest ->
    E_level l ts e rest
| E_binary l ts left optok ts1 op right rest :
    E_level l ts left (optok :: ts1) ->
    operator (t optok) = Some (op, l) ->
    E_operand l ts1 right rest ->
    E_level l ts (binary op left right) rest.

End Precedence.

Scheme E_primary_min := Minimality for E_primary Sort Prop
  with E_args_min := Minimality for E_args Sort Prop
  with E_operand_min := Minimality for E_operand Sort Prop
  with E_level_min := Minimality for E_level Sort Prop.

Combined Scheme E_mutual_ind from
  E_primary_min, E_args_min, E_operand_min, E_level_min.

(** ** The arena *)

Definition region_disjoint (r1 r2 : Region) : Prop :=
  fst r1 + snd r1 <= fst r2 \/ fst r2 + snd r2 <= fst r1.

(** The region lies in the part of the mapping the pool has made readable
    and writable. *)
Definition region_committed (pool : MemPool) (r : Region) : Prop :=
  base pool <= fst r /\ fst r + snd r <= base pool + alloc pool.

Definition is_munmap (c : SysCall) : bool :=
  match c with Munmap _ _ => true | _ => false end.

(** What [mempool_init] establishes and [mempool_alloc] keeps. *)
Definition pool_ok (pool : MemPool) : Prop :=
  0 <= size pool < alloc pool /\ alloc pool <= POOL_MAX_SZ.

(** The largest request for which no [size_t] computation of
    [mempool_alloc] wraps around. *)
Definition MAX_REQUEST : Z := SIZE_MOD - POOL_MAX_SZ - POOL_CHUNK_SZ.

Definition request_ok (amount : Z) : Prop := 0 <= amount <= MAX_REQUEST.

(** The diagnostic of [mempool_alloc] when the mapping is used up. *)
Definition OOM : Diag := InternalErr "out of memory in mmap pool".

(** The region lies between two used sizes of the pool at [b]. *)
Definition region_within (b lo hi : Z) (r : Region) : Prop :=
  b + lo <= fst r /\ fst r + snd r <= b + hi.

(** ** Diagnostics *)

(** What a diagnostic looks like on stderr: the message after the red
    [error] tag, then the source line after a bar. *)
Definition diag_text (text line : list Z) : list Z :=
  RED ++ bytes_of_string "error" ++ RESET ++ bytes_of_string ": " ++ text
      ++ [CH_NL] ++ bytes_of_string " | " ++ WHITE_UNDERLINE ++ line
      ++ RESET ++ [CH_NL].

(** The start of a line: the start of the text or what follows a newline. *)
Definition line_start (pre : list Z) : Prop :=
  pre = [] \/ exists pre', pre = pre' ++ [CH_NL].

(** A message that holds no conversion: no ['%'], and no NUL before its
    end. *)
Definition verbatim (text : string) : Prop :=
  Forall (fun c => c <> CH_PERCENT /\ c <> CH_NUL) (bytes_of_string text).

(** ** Vectors *)

(** An initialised vector whose items fit the address space. *)
Definition vector_ok (vec : Vector) : Prop :=
  NULL < data vec /\ 0 <= it_sz vec /\ 0 <= items vec /\
  items vec * it_sz vec < SIZE_MOD.

End Spec.

(** * Invariants of the expression functions *)

Module Invariants.
Import Helper Parser Spec.

(** [r'] is [r] or what [r] becomes when the bound is raised. *)
Definition fuel_le {A} (r r' : Outcome A) : Prop := r = NoFuel \/ r = r'.

(** The run only moves the lexer on. *)
Definition same_env (st st' : PState) : Prop :=
  st' = with_toks st (toks st').

Section WithSource.

Variable m : Buffer.
Variable b : Z.

(** One more unit of the bound changes no run that ended without it. *)
Definition step_mono (n : nat) : Prop :=
  (forall st, fuel_le (parse_primary m b n st) (parse_primary m b (S n) st)) /\
  (forall tk st,
      fuel_le (parse_funcall m b n tk st) (parse_funcall m b (S n) tk st)) /\
  (forall a st,
      fuel_le (parse_funcall_loop m b n a st)
        (parse_funcall_loop m b (S n) a st)) /\
  (forall st, fuel_le (parse_factor m b n st) (parse_factor m b (S n) st)) /\
  (forall e st,
      fuel_le (parse_factor_loop m b n e st)
        (parse_factor_loop m b (S n) e st)) /\
  (forall st, fuel_le (parse_term m b n st) (parse_term m b (S n) st)) /\
  (forall e st,
      fuel_le (parse_term_loop m b n e st) (parse_term_loop m b (S n) e st)) /\
  (forall st, fuel_le (parse_comp m b n st) (parse_comp m b (S n) st)) /\
  (forall e st,
      fuel_le (parse_comp_loop m b n e st) (parse_comp_loop m b (S n) e st)).

(** What a derivation of the grammar promises of the parser.  A loop is
    entered with the tree built so far, so for the three operator levels
    the promise is about the function whose loop goes on from there. *)
Definition C_primary (ts : list Token) (e : Expr) (rest : list Token) :=
  forall st, exists n,
    parse_primary m b n (with_toks st ts) = Done (e, with_toks st rest).

Definition C_args (ts : list Token) (args : list Expr) (rest : list Token) :=
  forall st acc, exists n,
    parse_funcall_loop m b n acc (with_toks st ts)
    = Done (acc ++ args, with_toks st rest).

Definition C_factor (ts : list Token) (e : Expr) (rest : list Token) :=
  forall st k r,
    parse_factor_loop m b k e (with_toks st rest) = Done r ->
    exists n, parse_factor m b n (with_toks st ts) = Done r.

Definition C_term (ts : list Token) (e : Expr) (rest : list Token) :=
  is_mulop (peek_kind rest) = false ->
  forall st k r,
    parse_term_loop m b k e (with_toks st rest) = Done r ->
    exists n, parse_term m b n (with_toks st ts) = Done r.

Definition C_comp (ts : list Token) (e : Expr) (rest : list Token) :=
  is_mulop (peek_kind rest) = false ->
  is_addop (peek_kind rest) = false ->
  forall st k r,
    parse_comp_loop m b k e (with_toks st rest) = Done r ->
    exists n, parse_comp m b n (with_toks st ts) = Done r.

(** What a run of the parser with bound [n] promises of the grammar. *)
Definition sound (n : nat) : Prop :=
  (forall st e st',
      parse_primary m b n st = Done (e, st') ->
      G_primary m b (toks st) e (toks st') /\ same_env st st') /\
  (forall tk st e st',
      t tk = TOK_SYM -> t (peek_token st) = TOK_LPAREN ->
      parse_funcall m b n tk st = Done (e, st') ->
      G_primary m b (tk :: toks st) e (toks st') /\ same_env st st') /\
  (forall acc st args st',
      parse_funcall_loop m b n acc st = Done (args, st') ->
      same_env st st' /\
      (peek_kind (toks st') = TOK_RPAREN ->
       exists more,
         args = acc ++ more /\ G_args m b (toks st) more (toks st'))) /\
  (forall st e st',
      parse_factor m b n st = Done (e, st') ->
      G_factor m b (toks st) e (toks st') /\
      is_mulop (peek_kind (toks st')) = false /\ same_env st st') /\
  (forall l st e st',
      parse_factor_loop m b n l st = Done (e, st') ->
      same_env st st' /\ is_mulop (peek_kind (toks st')) = false /\
      forall ts0,
        G_factor m b ts0 l (toks st) -> G_factor m b ts0 e (toks st')) /\
  (forall st e st',
      parse_term m b n st = Done (e, st') ->
      G_term m b (toks st) e (toks st') /\
      is_mulop (peek_kind (toks st')) = false /\
      is_addop (peek_kind (toks st')) = false /\ same_env st st') /\
  (forall l st e st',
      parse_term_loop m b n l st = Done (e, st') ->
      is_mulop (peek_kind (toks st)) = false ->
      same_env st st' /\ is_mulop (peek_kind (toks st')) = false /\
      is_addop (peek_kind (toks st')) = false /\
      forall ts0,
        G_term m b ts0 l (toks st) -> G_term m b ts0 e (toks st')) /\
  (forall st e st',
      parse_comp m b n st = Done (e, st') ->
      G_comp m b (toks st) e (toks st') /\
      is_binop (peek_kind (toks st')) = false /\ same_env st st') /\
  (forall l st e st',
      parse_comp_loop m b n l st = Done (e, st') ->
      is_mulop (peek_kind (toks st)) = false ->
      is_addop (peek_kind (toks st)) = false ->
      same_env st st' /\ is_binop (peek_kind (toks st')) = false /\
      forall ts0,
        G_comp m b ts0 l (toks st) -> G_comp m b ts0 e (toks st')).

End WithSource.

End Invariants.

(** * Concrete inputs *)

Module Inputs.
Import Helper Parser Spec.

(** The literals [256u8], [12] and [7u8], each at the head of a source
    buffer that is mapped at address 4096. *)
Definition buf_256u8 : Buffer := mkBuffer 4096 (bytes_of_string "256u8
").
Definition pos_256u8 : SourcePosition := mkPos 4096 5.

Definition buf_12 : Buffer := mkBuffer 4096 (bytes_of_string "12
").
Definition pos_12 : SourcePosition := mkPos 4096 2.

Definition buf_7u8 : Buffer := mkBuffer 4096 (bytes_of_string "7u8
").
Definition pos_7u8 : SourcePosition := mkPos 4096 3.

Definition tok (k : TokKind) (p n : Z) : Token :=
  mkToken k (mkPos p n) INTLIT_I64_NONE.

Definition tok_at (k : TokKind) (p : SourcePosition) : Token :=
  mkToken k p INTLIT_I64_NONE.

Definition eof0 : SourcePosition := mkPos 0 0.

(** A stray parenthesis on the first line of the source. *)
Definition buf_paren : Buffer := mkBuffer 4096 (bytes_of_string "(
").

(** A source of two lines. *)
Definition buf_two_lines : Buffer := mkBuffer 4096 (bytes_of_string "f()
g(
").

(** [let x] and a newline. *)
Definition toks_let_bare : list Token :=
  [tok TOK_LET 4096 3; tok TOK_SYM 4100 1; tok TOK_NEWLINE 4101 1].

(** [let x = y] and a newline. *)
Definition toks_let_init : list Token :=
  [tok TOK_LET 4096 3; tok TOK_SYM 4100 1; tok TOK_EQ 4102 1;
   tok TOK_SYM 4104 1; tok TOK_NEWLINE 4105 1].


Definition toks_fn_i64 : list Token :=
  [tok TOK_SYM 4096 1; tok TOK_LPAREN 4097 1; tok TOK_RPAREN 4098 1;
   tok TOK_I64 4100 3; tok TOK_LCURLY 4104 1; tok TOK_RCURLY 4105 1].

(** The pool [mempool_init] builds when [mmap] answers 65536. *)
Definition pool0 : MemPool := mkPool 65536 0 POOL_CHUNK_SZ.

(** A vector of three 8-byte items. *)
Definition vec3 : Vector := mkVector 8 3 32 65536.

End Inputs.

(** * The arena's memory and the vectors in it

    [vector_push], [vector_insert], [vector_remove] and [vector_resize]
    move bytes inside the arena with [memcpy] and [memmove].  Memory is a
    map from addresses to bytes; of the pool's mapping only the first
    [alloc] bytes can be read and written, the rest is [PROT_NONE]. *)

Module Heap.
Import Helper Spec.

(** The bytes of memory, by address. *)
Definition Mem : Type := Z -> Z.

(** The [n] bytes at [p]. *)
Definition mem_read (mem : Mem) (p n : Z) : list Z :=
  map (fun k => mem (p + Z.of_nat k)) (seq 0 (Z.to_nat n)).

(** Memory once [bytes] are stored at [p]. *)
Definition mem_write (mem : Mem) (p : Z) (bytes : list Z) : Mem :=
  fun a =>
    if (p <=? a) && (a <? p + Z.of_nat (List.length bytes))
    then nth (Z.to_nat (a - p)) bytes 0
    else mem a.

(** The [n] bytes at [p] lie in the part of the mapping that the pool
    has made readable and writable. *)
Definition accessible (pool : MemPool) (p n : Z) : bool :=
  (base pool <=? p) && (p + n <=? base pool + alloc pool).

(** [memmove (dst, src, n)] inside the arena: the bytes are read, then
    written, so the two areas may overlap. *)
Definition memmove (pool : MemPool) (mem : Mem) (dst src n : Z)
  : Outcome Mem :=
  if accessible pool dst n && accessible pool src n
  then Done (mem_write mem dst (mem_read mem src n))
  else Undef.

(** [memcpy (dst, src, n)] inside the arena: the two areas must not
    overlap. *)
Definition memcpy (pool : MemPool) (mem : Mem) (dst src n : Z)
  : Outcome Mem :=
  if (dst + n <=? src) || (src + n <=? dst)
  then memmove pool mem dst src n
  else Undef.

(** [memcpy (dst, data, n)] from an object of the caller, whose bytes are
    [item], into the arena. *)
Definition copy_in (pool : MemPool) (mem : Mem) (dst n : Z) (item : list Z)
  : Outcome Mem :=
  if accessible pool dst n && (n <=? Z.of_nat (List.length item))
  then Done (mem_write mem dst (firstn (Z.to_nat n) item))
  else Undef.

(** [vector_resize] with the copy of the items. *)
Definition vector_resize (vec : Vector) (pool : MemPool) (mem : Mem)
  : Outcome (Vector * MemPool * Mem) :=
  obind (Helper.vector_resize vec pool) (fun '(vec1, pool1) =>
  obind (memcpy pool1 mem (data vec1) (data vec)
           (wrap64 (items vec * it_sz vec))) (fun mem1 =>
  Done (vec1, pool1, mem1))).

(** [if (vec->items + 1 > vec->alloc) vector_resize (vec);] *)
Definition grow_if_full (vec : Vector) (pool : MemPool) (mem : Mem)
  : Outcome (Vector * MemPool * Mem) :=
  if wrap64 (items vec + 1) >? valloc vec
  then vector_resize vec pool mem
  else Done (vec, pool, mem).

Definition with_items (vec : Vector) (n : Z) : Vector :=
  {| it_sz := it_sz vec; items := n; valloc := valloc vec;
     data := data vec |}.

(** [vector_push (vec, data)]; [item] holds the bytes [data] points to. *)
Definition vector_push (vec : Vector) (pool : MemPool) (mem : Mem)
    (item : list Z) : Outcome (Vector * MemPool * Mem) :=
  obind (grow_if_full vec pool mem) (fun '(vec1, pool1, mem1) =>
  obind (copy_in pool1 mem1
           (data vec1 + wrap64 (items vec1 * it_sz vec1)) (it_sz vec1) item)
    (fun mem2 =>
  Done (with_items vec1 (wrap64 (items vec1 + 1)), pool1, mem2))).

(** [vector_alloc (vec)] with the copy a resize makes: the address of the
    new last item. *)
Definition vector_alloc (vec : Vector) (pool : MemPool) (mem : Mem)
  : Outcome (Z * Vector * MemPool * Mem) :=
  obind (grow_if_full vec pool mem) (fun '(vec1, pool1, mem1) =>
  Done (data vec1 + wrap64 (items vec1 * it_sz vec1),
        with_items vec1 (wrap64 (items vec1 + 1)), pool1, mem1)).

(** [vector_remove (vec, idx)] *)
Definition vector_remove (vec : Vector) (pool : MemPool) (mem : Mem)
    (idx : Z) : Outcome (Vector * Mem) :=
  obind (memmove pool mem
           (data vec + wrap64 (idx * it_sz vec))
           (data vec + wrap64 (wrap64 (idx + 1) * it_sz vec))
           (wrap64 (wrap64 (items vec - idx) * it_sz vec))) (fun mem1 =>
  Done (with_items vec (wrap64 (items vec - 1)), mem1)).

(** [vector_insert (vec, idx, data)] *)
Definition vector_insert (vec : Vector) (pool : MemPool) (mem : Mem)
    (idx : Z) (item : list Z) : Outcome (Vector * MemPool * Mem) :=
  obind (grow_if_full vec pool mem) (fun '(vec1, pool1, mem1) =>
  obind (memmove pool1 mem1
           (data vec1 + wrap64 (wrap64 (idx + 1) * it_sz vec1))
           (data vec1 + wrap64 (idx * it_sz vec1))
           (wrap64 (wrap64 (items vec1 - idx) * it_sz vec1))) (fun mem2 =>
  obind (copy_in pool1 mem2 (data vec1 + wrap64 (idx * it_sz vec1))
           (it_sz vec1) item) (fun mem3 =>
  Done (with_items vec1 (wrap64 (items vec1 + 1)), pool1, mem3)))).

(** A run of [vector_push] calls, one per item. *)
Fixpoint vector_pushes (vec : Vector) (pool : MemPool) (mem : Mem)
    (xs : list (list Z)) : Outcome (Vector * MemPool * Mem) :=
  match xs with
  | [] => Done (vec, pool, mem)
  | x :: rest =>
      obind (vector_push vec pool mem x) (fun '(vec1, pool1, mem1) =>
      vector_pushes vec1 pool1 mem1 rest)
  end.

(** [vector_init] and then one [vector_push] per item. *)
Definition vector_build (sz_item : Z) (pool : MemPool) (mem : Mem)
    (xs : list (list Z)) : Outcome (Vector * MemPool * Mem) :=
  obind (vector_init sz_item pool) (fun '(vec, pool1) =>
  vector_pushes vec pool1 mem xs).

(** ** What a vector holds *)

(** The bytes of item [j]. *)
Definition item_at (vec : Vector) (mem : Mem) (j : Z) : list Z :=
  mem_read mem (data vec + j * it_sz vec) (it_sz vec).

(** The items, first to last. *)
Definition contents (vec : Vector) (mem : Mem) : list (list Z) :=
  map (fun j => item_at vec mem (Z.of_nat j))
      (seq 0 (Z.to_nat (items vec))).

(** The storage of the vector: room for [valloc] items at [data]. *)
Definition in_storage (vec : Vector) (a : Z) : Prop :=
  data vec <= a < data vec + valloc vec * it_sz vec.

(** A vector in use: the pool is initialised and has handed out the
    vector's storage, the items have a size, and there are no more of them
    than the storage has room for. *)
Definition vec_wf (vec : Vector) (pool : MemPool) : Prop :=
  pool_ok pool /\
  0 < it_sz vec /\
  0 <= items vec <= valloc vec /\
  0 < valloc vec /\
  base pool <= data vec /\
  data vec + valloc vec * it_sz vec <= base pool + size pool.

(** What the item [data] points to looks like once stored: its first
    [it_sz] bytes. *)
Definition stored (vec : Vector) (item : list Z) : list Z :=
  firstn (Z.to_nat (it_sz vec)) item.

(** A list with [x] put in at index [i], and with index [i] taken out. *)
Definition insert_at {A} (i : nat) (x : A) (l : list A) : list A :=
  firstn i l ++ x :: skipn i l.

Definition remove_at {A} (i : nat) (l : list A) : list A :=
  firstn i l ++ skipn (S i) l.

End Heap.

(** * Concrete vectors *)

Module HeapInputs.
Import Helper Heap.

(** Memory that holds zero everywhere, as fresh anonymous pages do. *)
Definition mem0 : Mem := fun _ => 0.

(** A pool of which 256 bytes are in use, the first eight of them as the
    storage of a vector of two-byte items with room for four; three items
    are in it, or two. *)
Definition pool_used : MemPool := mkPool 65536 256 POOL_CHUNK_SZ.
Definition vec_ab : Vector := mkVector 2 3 4 65536.
Definition vec_two : Vector := mkVector 2 2 4 65536.
Definition mem_ab : Mem := mem_write mem0 65536 [1; 2; 3; 4; 5; 6].

(** A vector that is full: four items. *)
Definition vec_full : Vector := mkVector 2 4 4 65536.

(** A vector with no item in it. *)
Definition vec_none : Vector := mkVector 2 0 4 65536.

(** What [vector_init_size] with 50-byte items and one item sets up in a
    pool of which 4000 bytes are in use: the storage is the last 50 bytes
    handed out, and 46 bytes further the readable and writable part
    ends. *)
Definition pool_last : MemPool := mkPool 65536 4050 POOL_CHUNK_SZ.
Definition vec_last : Vector := mkVector 50 1 1 (65536 + 4000).

End HeapInputs.

(** * The arena's system calls *)

Module Arena.
Import Helper.

(** [mempool_init] and then one [mempool_alloc] per requested amount: the
    regions handed out, the pool at the end and every system call issued,
    oldest first. *)
Definition mempool_session (mmap_ret mprotect_ret : Z) (amounts : list Z)
  : Outcome (list Region * MemPool * list SysCall) :=
  obind (mempool_init mmap_ret mprotect_ret) (fun '(pool, calls0) =>
  obind (mempool_allocs pool amounts) (fun '(regions, pool', calls) =>
  Done (regions, pool', calls0 ++ calls))).

(** The bytes the [mprotect] calls have made readable and writable. *)
Fixpoint committed (calls : list SysCall) : Z :=
  match calls with
  | [] => 0
  | Mprotect _ len :: rest => len + committed rest
  | _ :: rest => committed rest
  end.

(** The [mprotect] calls make whole chunks readable and writable, one
    after the other from address [a] on, and nothing is unmapped. *)
Fixpoint tiled (a : Z) (calls : list SysCall) : Prop :=
  match calls with
  | [] => True
  | Mmap len :: rest => len = POOL_MAX_SZ /\ tiled a rest
  | Mprotect addr len :: rest =>
      addr = a /\ 0 <= len /\ len mod POOL_CHUNK_SZ = 0 /\
      tiled (a + len) rest
  | Munmap _ _ :: _ => False
  end.

End Arena.

(** * Runs of the parser

    What every run of a parsing function is like: how it ends, what it
    leaves of the tokens, which diagnostic it raises, and which bound on
    calls and loop rounds is enough for it. *)

Module Runs.
Import Helper Parser Spec Invariants.

(** The messages of the expression functions, and those of the parser. *)
Definition EXPR_MSGS : list string :=
  ["expected expression"%string; "expected ')'"%string].

Definition PARSER_MSGS : list string :=
  EXPR_MSGS ++
  ["expected type name"%string; "expected variable name"%string;
   "expected newline or ';'"%string; "expected '=' or ';'"%string;
   "expected '=' or ':'"%string; "expected function name"%string;
   "expected '('"%string; "expected param name"%string].

(** The run from [st] to [st'] has only moved the lexer on: [st'] has
    the tokens of [st] that are left, and is [st] otherwise. *)
Definition moved (st st' : PState) : Prop :=
  same_env st st' /\ exists used, toks st = used ++ toks st'.

(** The span [p] is that of a token still to come, or the one the lexer
    gives for the end of the file. *)
Definition token_pos (st : PState) (p : SourcePosition) : Prop :=
  p = eof_pos st \/ In p (map pos (toks st)).

Section WithSource.

(** [ast->src_base] *)
Variable b : Z.

(** A diagnostic of the parser: one of the messages [msgs] at the span of
    a token, with the file-scope [src_base] as base, or the overflow of a
    literal with [ast->src_base] as base. *)
Definition diag_ok (msgs : list string) (st : PState) (d : Diag) : Prop :=
  (exists text p,
      d = SourceErr (Plain text) (src_base st) p /\ In text msgs /\
      token_pos st p) \/
  (exists prec str p, d = SourceErr (OverflowOn prec str) b p).

(** The result [r] of a run from [st] with bound [n]: a run that returns
    has only moved the lexer on, by [k] tokens or more; a run that ends
    the process has raised a diagnostic of the parser; and the bound is
    reached only when it is below four times the number of tokens left
    plus [rank]. *)
Definition run_ok {A} (msgs : list string) (k rank n : nat) (st : PState)
    (r : Outcome (A * PState)) : Prop :=
  match r with
  | Done (_, st') =>
      moved st st' /\
      (List.length (toks st') + k <= List.length (toks st))%nat
  | Abort d => diag_ok msgs st d
  | Undef => True
  | NoFuel => (n < 4 * List.length (toks st) + rank)%nat
  end.

Variable m : Buffer.

Definition expr_runs_ok (n : nat) : Prop :=
  (forall st, run_ok EXPR_MSGS 1 1 n st (parse_primary m b n st)) /\
  (forall tk st,
      t (peek_token st) = TOK_LPAREN ->
      run_ok EXPR_MSGS 1 2 n st (parse_funcall m b n tk st)) /\
  (forall a st, run_ok EXPR_MSGS 0 5 n st (parse_funcall_loop m b n a st)) /\
  (forall st, run_ok EXPR_MSGS 1 2 n st (parse_factor m b n st)) /\
  (forall e st, run_ok EXPR_MSGS 0 1 n st (parse_factor_loop m b n e st)) /\
  (forall st, run_ok EXPR_MSGS 1 3 n st (parse_term m b n st)) /\
  (forall e st, run_ok EXPR_MSGS 0 1 n st (parse_term_loop m b n e st)) /\
  (forall st, run_ok EXPR_MSGS 1 4 n st (parse_comp m b n st)) /\
  (forall e st, run_ok EXPR_MSGS 0 1 n st (parse_comp_loop m b n e st)).

End WithSource.

(** ** Statements *)

(** How a statement ends once its expression is parsed and [rest] is
    left: with the newline that follows, or with a diagnostic at the
    token that follows instead. *)
Definition after_expr (st : PState) (rest : list Token) (s : Stmt)
  : Outcome (Stmt * PState) :=
  if TokKind_beq (peek_kind rest) TOK_NEWLINE
  then Done (s, with_toks st (tl rest))
  else Abort (SourceErr (Plain "expected newline or ';'") (src_base st)
                (pos (peek_token (with_toks st rest)))).

(** ** Parameter lists as they are written *)

(** A parameter in the source: the token of its name, the token of its
    type and the comma after it, if there is one. *)
Record ParamText := mkParamText {
  pt_name : Token;
  pt_type : Token;
  pt_comma : option Token }.

Definition param_tokens (p : ParamText) : list Token :=
  pt_name p :: pt_type p ::
  match pt_comma p with Some c => [c] | None => [] end.

(** The text [p] is a parameter, and [q] is what it declares. *)
Definition param_text_ok (p : ParamText) (q : Param) : Prop :=
  t (pt_name p) = TOK_SYM /\
  type_const_of (t (pt_type p)) = Some (param_type q) /\
  param_name q = pos (pt_name p) /\
  match pt_comma p with Some c => t c = TOK_COMMA | None => True end.

(** ** The operands at the two ends of an expression *)

Fixpoint leftmost (e : Expr) : Expr :=
  match e with
  | EXPR_BINOP _ _ l _ => leftmost l
  | _ => e
  end.

Fixpoint rightmost (e : Expr) : Expr :=
  match e with
  | EXPR_BINOP _ _ _ r => rightmost r
  | _ => e
  end.

(** Every operator node has the span [combine_pos] gives for the spans
    of its two operands. *)
Fixpoint spans_ok (e : Expr) : Prop :=
  match e with
  | EXPR_BINOP p _ l r =>
      p = combine_pos (expr_pos l) (expr_pos r) /\ spans_ok l /\ spans_ok r
  | _ => True
  end.

End Runs.

(** * The parser and its arena

    The parsing functions once more, now with the allocations the source
    makes: [make_expr] takes the bytes of every node from [ast->pool], and
    the vectors of arguments, statements, parameters and functions are set
    up and grown there, so that each of these calls can end the process
    with the out-of-memory error of [mempool_alloc].  What is parsed is as
    in [Parser]: a node is a value, a vector of items is the list of its
    items, and next to the list goes the [Vector] record that says when
    the storage is full. *)

Module Pooled.
Import Helper Parser Spec.

(** The sizes of the structs of ast.h, which is not part of the sources at
    hand. *)
Record Sizes := mkSizes {
  sizeof_Expr : Z;
  sizeof_Expr_ptr : Z;
  sizeof_Stmt : Z;
  sizeof_Param : Z }.

(** The state of a run: that of the lexer with the file-scope pointer,
    and [ast->pool]. *)
Record AState := mkAState { lexer : PState; ast_pool : MemPool }.

Definition MA (A : Type) : Type := AState -> Outcome (A * AState).

Definition aret {A} (a : A) : MA A := fun s => Done (a, s).

Definition abind {A B} (c : MA A) (k : A -> MA B) : MA B :=
  fun s =>
    match c s with
    | Done (a, s') => k a s'
    | Abort d => Abort d
    | Undef => Undef
    | NoFuel => NoFuel
    end.

Notation "x <~ c ;; k" := (abind c (fun x => k))
  (at level 61, c at next level, right associativity).
Notation "c ~;; k" := (abind c (fun _ => k))
  (at level 61, right associativity).

(** A step of [Parser]: it concerns the lexer only. *)
Definition lexing {A} (c : M A) : MA A :=
  fun s =>
    match c (lexer s) with
    | Done (a, st') => Done (a, {| lexer := st'; ast_pool := ast_pool s |})
    | Abort d => Abort d
    | Undef => Undef
    | NoFuel => NoFuel
    end.

(** A step on [ast->pool]. *)
Definition in_pool {A} (f : MemPool -> Outcome (A * MemPool)) : MA A :=
  fun s =>
    obind (f (ast_pool s)) (fun '(a, pool') =>
      Done (a, {| lexer := lexer s; ast_pool := pool' |})).

Definition no_fuel {A} : MA A := fun _ => NoFuel.

(** [vector_init (&vec, sz_item, &ast->pool)] *)
Definition vector_init (sz_item : Z) : MA Vector :=
  in_pool (Helper.vector_init sz_item).

(** [vector_alloc (&vec)]: the record after the call; the slot returned
    is filled in by the caller, whose item is the value parsed next. *)
Definition vector_alloc (vec : Vector) : MA Vector :=
  in_pool (fun pool =>
    obind (Helper.vector_alloc vec pool) (fun '(_, vec', pool') =>
      Done (vec', pool'))).

(** [vector_push (&vec, &item)]: a full vector is resized, the item is
    copied to the slot after the last one and [items] is counted up.  The
    bytes copied are the subject of [Heap.vector_push]; here the record
    and the pool. *)
Definition vector_push (vec : Vector) : MA Vector :=
  in_pool (fun pool =>
    obind (if wrap64 (items vec + 1) >? valloc vec
           then vector_resize vec pool else Done (vec, pool))
      (fun '(vec1, pool1) =>
         Done ({| it_sz := it_sz vec1; items := wrap64 (items vec1 + 1);
                  valloc := valloc vec1; data := data vec1 |}, pool1))).

Section WithSource.

Variable sizes : Sizes.
Variable m : Buffer.
Variable ast_src_base : Z.   (* ast->src_base *)

(** [make_expr (ast, t, pos)]: the address of the new node. *)
Definition make_expr : MA Z :=
  in_pool (fun pool =>
    obind (mempool_alloc pool (sizeof_Expr sizes)) (fun '(p, pool', _) =>
      Done (p, pool'))).

(** ** Expressions *)

Fixpoint parse_primary (n : nat) : MA Expr :=
  match n with
  | O => no_fuel
  | S n' =>
      tok <~ lexing lexer_next ;;
      match t tok with
      | TOK_INT =>
          (* make_intlit_expr: the node first, then its value *)
          make_expr ~;;
          lexing (lift (make_intlit_expr m ast_src_base FRESH_CELL (pos tok)
                          (intlit_type tok)))
      | TOK_SYM =>
          nxt <~ lexing lexer_peek ;;
          if TokKind_beq (t nxt) TOK_LPAREN then parse_funcall n' tok
          else make_expr ~;; aret (EXPR_VAR (pos tok))
      | TOK_LPAREN =>
          e <~ parse_comp n' ;;
          lexing (expect TOK_RPAREN "expected ')'") ~;;
          aret e
      | _ => lexing (source_err "expected expression" (pos tok))
      end
  end

with parse_funcall (n : nat) (name_tok : Token) : MA Expr :=
  match n with
  | O => no_fuel
  | S n' =>
      lexing lexer_next ~;;
      vec <~ vector_init (sizeof_Expr_ptr sizes) ;;
      args <~ parse_funcall_loop n' [] vec ;;
      last_paren <~ lexing (expect TOK_RPAREN "expected ')'") ;;
      make_expr ~;;
      aret (EXPR_FUNCALL (combine_pos (pos name_tok) (pos last_paren))
              (pos name_tok) (fst args))
  end

(** The loop of [parse_funcall]: [args] are the items of the vector
    [vec]. *)
with parse_funcall_loop (n : nat) (args : list Expr) (vec : Vector)
  : MA (list Expr * Vector) :=
  match n with
  | O => no_fuel
  | S n' =>
      nxt <~ lexing lexer_peek ;;
      if TokKind_beq (t nxt) TOK_RPAREN then aret (args, vec)
      else
        temp <~ parse_comp n' ;;
        vec' <~ vector_push vec ;;
        nxt' <~ lexing lexer_peek ;;
        if negb (TokKind_beq (t nxt') TOK_COMMA)
        then aret (args ++ [temp], vec')
        else lexing lexer_next ~;;
             parse_funcall_loop n' (args ++ [temp]) vec'
  end

with parse_factor (n : nat) : MA Expr :=
  match n with
  | O => no_fuel
  | S n' => e <~ parse_primary n' ;; parse_factor_loop n' e
  end

with parse_factor_loop (n : nat) (e : Expr) : MA Expr :=
  match n with
  | O => no_fuel
  | S n' =>
      tok <~ lexing lexer_peek ;;
      if is_mulop (t tok) then
        op <~ lexing parse_binop ;;
        right <~ parse_primary n' ;;
        make_expr ~;;
        parse_factor_loop n' (make_binop e right op)
      else aret e
  end

with parse_term (n : nat) : MA Expr :=
  match n with
  | O => no_fuel
  | S n' => e <~ parse_factor n' ;; parse_term_loop n' e
  end

with parse_term_loop (n : nat) (e : Expr) : MA Expr :=
  match n with
  | O => no_fuel
  | S n' =>
      tok <~ lexing lexer_peek ;;
      if is_addop (t tok) then
        op <~ lexing parse_binop ;;
        right <~ parse_factor n' ;;
        make_expr ~;;
        parse_term_loop n' (make_binop e right op)
      else aret e
  end

with parse_comp (n : nat) : MA Expr :=
  match n with
  | O => no_fuel
  | S n' => e <~ parse_term n' ;; parse_comp_loop n' e
  end

with parse_comp_loop (n : nat) (e : Expr) : MA Expr :=
  match n with
  | O => no_fuel
  | S n' =>
      tok <~ lexing lexer_peek ;;
      if is_compop (t tok) then
        op <~ lexing parse_binop ;;
        right <~ parse_term n' ;;
        make_expr ~;;
        parse_comp_loop n' (make_binop e right op)
      else aret e
  end.

Definition parse_expr (n : nat) : MA Expr := parse_comp n.

(** ** Statements, functions *)

(** The statement functions allocate only through [parse_expr]: their
    statement is the slot the caller has taken from [block->stmts]. *)
Definition parse_let (n : nat) (mut : Z) : MA Stmt :=
  first_tok <~ lexing lexer_next ;;
  var_name <~ lexing (expect TOK_SYM "expected variable name") ;;
  middle_tok <~ lexing lexer_next ;;
  match t middle_tok with
  | TOK_EQ =>
      value <~ parse_expr n ;;
      last_tok <~ lexing (expect TOK_NEWLINE "expected newline or ';'") ;;
      aret (STMT_LET (combine_pos (pos first_tok) (pos last_tok))
              (pos var_name) None (Some value) mut)
  | TOK_COLON =>
      type <~ lexing parse_type ;;
      equal_tok <~ lexing lexer_next ;;
      match t equal_tok with
      | TOK_EQ =>
          value <~ parse_expr n ;;
          last_tok <~ lexing (expect TOK_NEWLINE "expected newline or ';'") ;;
          aret (STMT_LET (combine_pos (pos first_tok) (pos last_tok))
                  (pos var_name) (Some type) (Some value) mut)
      | TOK_NEWLINE =>
          aret (STMT_LET (combine_pos (pos first_tok) (pos equal_tok))
                  (pos var_name) (Some type) None mut)
      | _ => lexing (source_err "expected '=' or ';'" (pos equal_tok))
      end
  | _ => lexing (source_err "expected '=' or ':'" (pos middle_tok))
  end.

Definition parse_expr_stmt (n : nat) : MA Stmt :=
  e <~ parse_expr n ;;
  lexing (expect TOK_NEWLINE "expected newline or ';'") ~;;
  aret (STMT_EXPR e).

Definition parse_return (n : nat) : MA Stmt :=
  lexing lexer_next ~;;
  nxt <~ lexing lexer_peek ;;
  if TokKind_beq (t nxt) TOK_NEWLINE then
    lexing lexer_next ~;; aret (STMT_RETURN None)
  else
    e <~ parse_expr n ;;
    lexing (expect TOK_NEWLINE "expected newline or ';'") ~;;
    aret (STMT_RETURN (Some e)).

(** The [while (1)] of [parse_block]: [stmts] are the items of the vector
    [vec], which is [block->stmts].  The slot of a statement is taken
    before the statement is parsed. *)
Fixpoint parse_block_loop (n : nat) (stmts : list Stmt) (vec : Vector)
  : MA (list Stmt * Vector) :=
  match n with
  | O => no_fuel
  | S n' =>
      nxt <~ lexing lexer_peek ;;
      match t nxt with
      | TOK_LET =>
          vec' <~ vector_alloc vec ;;
          s <~ parse_let n' 0 ;; parse_block_loop n' (stmts ++ [s]) vec'
      | TOK_RETURN =>
          vec' <~ vector_alloc vec ;;
          s <~ parse_return n' ;; parse_block_loop n' (stmts ++ [s]) vec'
      | TOK_MUT =>
          vec' <~ vector_alloc vec ;;
          s <~ parse_let n' 1 ;; parse_block_loop n' (stmts ++ [s]) vec'
      | TOK_RCURLY => lexing lexer_next ~;; aret (stmts, vec)
      | _ =>
          vec' <~ vector_alloc vec ;;
          s <~ parse_expr_stmt n' ;; parse_block_loop n' (stmts ++ [s]) vec'
      end
  end.

Definition parse_block (n : nat) : MA (list Stmt) :=
  lexing lexer_next ~;;
  vec <~ vector_init (sizeof_Stmt sizes) ;;
  stmts <~ parse_block_loop n [] vec ;;
  aret (fst stmts).

(** The parameter loop of [parse_fn]: [ps] are the items of the vector
    [vec], which is [function->params]. *)
Fixpoint parse_fn_params (n : nat) (ps : list Param) (vec : Vector)
  : MA (list Param * Vector) :=
  match n with
  | O => no_fuel
  | S n' =>
      nxt <~ lexing lexer_peek ;;
      if negb (TokKind_beq (t nxt) TOK_RPAREN) then
        vec' <~ vector_alloc vec ;;
        name_tok <~ lexing (expect TOK_SYM "expected param name") ;;
        ty <~ lexing parse_type ;;
        nxt' <~ lexing lexer_peek ;;
        lexing (if TokKind_beq (t nxt') TOK_COMMA then lexer_next ;; ret tt
                else ret tt) ~;;
        parse_fn_params n'
          (ps ++ [{| param_name := pos name_tok; param_type := ty |}]) vec'
      else aret (ps, vec)
  end.

Definition parse_fn (n : nat) : MA Function :=
  name_tok <~ lexing (expect TOK_SYM "expected function name") ;;
  lexing (expect TOK_LPAREN "expected '('") ~;;
  vec <~ vector_init (sizeof_Param sizes) ;;
  ps <~ parse_fn_params n [] vec ;;
  lexing lexer_next ~;;
  nxt <~ lexing lexer_peek ;;
  rty <~ lexing (if negb (TokKind_beq (t nxt) TOK_LCURLY) then parse_type
                 else ret void_const) ;;
  stmts <~ parse_block n ;;
  aret {| fn_name := pos name_tok; fn_pos := pos name_tok;
          params := fst ps; ret_type := rty; body := stmts |}.

(** The loop of [parse_ast]: [fns] are the items of the vector [vec],
    which is [ret.fns].  The slot of a function is taken before the
    function is parsed. *)
Fixpoint parse_ast_loop (n : nat) (fns : list Function) (vec : Vector)
  : MA (list Function * Vector) :=
  match n with
  | O => no_fuel
  | S n' =>
      nxt <~ lexing lexer_peek ;;
      if negb (TokKind_beq (t nxt) TOK_EOF) then
        vec' <~ vector_alloc vec ;;
        f <~ parse_fn n' ;; parse_ast_loop n' (fns ++ [f]) vec'
      else aret (fns, vec)
  end.

End WithSource.

(** [parse_ast (src)] from its loop on.  Modelled from the spec: all nodes
    of a compilation unit come from one arena owned by that unit, so
    [ast_init] (ast.c is not part of the sources at hand) leaves
    [ast->pool] set up and [ret.fns], here [fns_vec], a vector in it. *)
Definition parse_ast (sizes : Sizes) (m : Buffer) (n : nat) (src : Z)
    (fns_vec : Vector) : MA (list Function) :=
  fns <~ parse_ast_loop sizes m src n [] fns_vec ;;
  lexing (set_src_base src) ~;;
  aret (fst fns).

(** ** Runs with and without the arena *)

(** The pool has only handed out more. *)
Definition grown (pool pool' : MemPool) : Prop :=
  pool_ok pool' /\ base pool' = base pool /\ size pool <= size pool'.

(** Sizes a struct can have: positive, and such that the request of
    [vector_init] does not wrap around. *)
Definition size_ok (sz : Z) : Prop :=
  0 < sz /\ sz * VEC_INIT_ALLOC <= MAX_REQUEST.

Definition sizes_ok (sizes : Sizes) : Prop :=
  size_ok (sizeof_Expr sizes) /\ size_ok (sizeof_Expr_ptr sizes) /\
  size_ok (sizeof_Stmt sizes) /\ size_ok (sizeof_Param sizes).

(** A run [real] from a state with [pool] is the run [ideal] of the
    function of [Parser], unless the arena is used up on the way: it
    ends as [ideal] does, what it returns has the value [ideal] returns
    as its part [part], and the pool has only handed out more. *)
Definition follows {A B} (part : B -> A) (pool : MemPool)
    (real : Outcome (B * AState)) (ideal : Outcome (A * PState)) : Prop :=
  real = Abort OOM \/
  match ideal with
  | Done (a, st') =>
      exists b pool',
        real = Done (b, {| lexer := st'; ast_pool := pool' |}) /\
        part b = a /\ grown pool pool'
  | Abort d => real = Abort d
  | Undef => real = Undef
  | NoFuel => real = NoFuel
  end.

End Pooled.

Module PooledInputs.
Import Helper Parser Pooled.

(** Sizes as a 64-bit target could have them. *)
Definition sizes64 : Sizes :=
  {| sizeof_Expr := 64; sizeof_Expr_ptr := 8; sizeof_Stmt := 64;
     sizeof_Param := 24 |}.

(** A pool of one chunk with 256 bytes in use, and one that has all of its
    mapping in use but sixteen bytes. *)
Definition pool_start : MemPool :=
  {| base := 65536; size := 256; alloc := POOL_CHUNK_SZ |}.
Definition pool_end : MemPool :=
  {| base := 65536; size := POOL_MAX_SZ - 16; alloc := POOL_MAX_SZ |}.

(** The vector [ret.fns] as [vector_init] sets it up at the start of the
    pool, for functions of 128 bytes. *)
Definition fns_vec0 : Vector :=
  {| it_sz := 128; items := 0; valloc := VEC_INIT_ALLOC; data := 65536 |}.

Definition pool_fns : MemPool :=
  {| base := 65536; size := 4096; alloc := 2 * POOL_CHUNK_SZ |}.

End PooledInputs.

(** * Properties *)

Import Helper Parser Spec Invariants Inputs.

Lemma wrap64_range x : in_size_t (wrap64 x).
Proof. unfold in_size_t, wrap64, SIZE_MOD. apply Z.mod_pos_bound. lia. Qed.

Lemma wrap64_small x : in_size_t x -> wrap64 x = x.
Proof. unfold in_size_t, wrap64. intros H. apply Z.mod_small. exact H. Qed.

(** ** The SSA value counter *)

Lemma next_vn_calls_values n :
  forall reg,
    reg + Z.of_nat n <= INT64_MAX ->
    next_vn_calls n reg
    = Done (map (fun k => reg + Z.of_nat k) (seq 0 n), reg + Z.of_nat n).
Proof.
  induction n as [|n IH]; intros reg Hreg.
  - simpl. now rewrite Z.add_0_r.
  - cbn [next_vn_calls]. unfold next_vn.
    destruct (reg <? INT64_MAX) eqn:E; [|apply Z.ltb_ge in E; lia].
    cbn [obind]. rewrite IH by lia. cbn [obind].
    f_equal. f_equal.
    + cbn [seq map]. rewrite Z.add_0_r. f_equal.
      rewrite <- seq_shift, map_map. apply map_ext. intros k. lia.
    + lia.
Qed.

Lemma nth_error_issued reg n i v :
  nth_error (map (fun k => reg + Z.of_nat k) (seq 0 n)) i = Some v ->
  v = reg + Z.of_nat i.
Proof.
  rewrite nth_error_map.
  destruct (nth_error (seq 0 n) i) as [k|] eqn:E; [|discriminate].
  intros [= <-].
  assert (Hi : (i < n)%nat).
  { rewrite <- (length_seq n 0). apply nth_error_Some. congruence. }
  rewrite nth_error_seq in E.
  destruct (Nat.ltb_spec i n); [|lia]. now injection E as <-.
Qed.

(** C3.  Every sequence of calls of [next_vn] in one process, up to the
    [INT64_MAX - 1] calls the counter can serve, returns: the values come
    out in strictly increasing order, so each call returns more than every
    earlier one and no identifier is issued twice. *)
Theorem next_vn_strictly_increasing (n : nat) :
  Z.of_nat n < INT64_MAX ->
  exists vs reg',
    next_vn_calls n reg_init = Done (vs, reg') /\
    List.length vs = n /\
    (forall i j vi vj,
        (i < j)%nat ->
        nth_error vs i = Some vi -> nth_error vs j = Some vj -> vi < vj) /\
    NoDup vs.
Proof.
  intros Hn.
  exists (map (fun k => reg_init + Z.of_nat k) (seq 0 n)), (reg_init + Z.of_nat n).
  split; [apply next_vn_calls_values; unfold reg_init; lia|].
  split; [now rewrite length_map, length_seq|].
  split.
  - intros i j vi vj Hij Hi Hj.
    apply nth_error_issued in Hi, Hj. lia.
  - apply Injective_map_NoDup; [|apply seq_NoDup].
    intros a b. lia.
Qed.

Lemma next_vn_strictly_increasing_witness :
  exists vs reg',
    next_vn_calls 3 reg_init = Done (vs, reg') /\
    List.length vs = 3%nat /\
    (forall i j vi vj,
        (i < j)%nat ->
        nth_error vs i = Some vi -> nth_error vs j = Some vj -> vi < vj) /\
    NoDup vs.
Proof. apply (next_vn_strictly_increasing 3). reflexivity. Defined.

(** ** Vectors *)

(** C10.  For an initialised vector and any index, [vector_idx] returns
    [NULL] exactly when the index is at least the item count; otherwise
    it returns the address of the item at that index, and the item lies
    inside the storage of the vector's items.  The function reads no
    memory at all: its result depends on the record only. *)
Theorem vector_idx_total (vec : Vector) (idx : Z) :
  vector_ok vec ->
  in_size_t idx ->
  (vector_idx vec idx = NULL <-> items vec <= idx) /\
  (idx < items vec ->
   vector_idx vec idx = data vec + idx * it_sz vec /\
   data vec <= vector_idx vec idx /\
   vector_idx vec idx + it_sz vec <= data vec + items vec * it_sz vec).
Proof.
  intros (Hdata & Hsz & Hitems & Hfit) [Hidx0 Hidx].
  unfold vector_idx.
  destruct (idx >=? items vec) eqn:E.
  - apply Z.geb_le in E. split; [tauto | lia].
  - rewrite Z.geb_leb in E. apply Z.leb_gt in E.
    assert (Hw : wrap64 (idx * it_sz vec) = idx * it_sz vec).
    { apply wrap64_small. unfold in_size_t. nia. }
    rewrite Hw. unfold NULL in *. split.
    + split; intros; nia.
    + intros _. repeat split; nia.
Qed.

Lemma vector_idx_total_witness :
  vector_idx vec3 3 = NULL /\ vector_idx vec3 1 = 65544.
Proof.
  assert (Hok : vector_ok vec3) by (vm_compute; repeat split; congruence).
  assert (H3 : in_size_t 3) by (vm_compute; split; congruence).
  assert (H1 : in_size_t 1) by (vm_compute; split; congruence).
  split.
  - apply (proj1 (vector_idx_total vec3 3 Hok H3)). vm_compute. congruence.
  - apply (proj2 (vector_idx_total vec3 1 Hok H1)). reflexivity.
Defined.

(** ** Integer literals *)

Lemma wrap64_sub_add a k : in_size_t a -> wrap64 (wrap64 (a - k) + k) = a.
Proof.
  intros Ha. unfold wrap64. rewrite Zplus_mod_idemp_l.
  replace (a - k + k) with a by lia. now apply Z.mod_small.
Qed.

Lemma intlit_pos_sz_suffix ty :
  intlit_pos_sz ty = Z.of_nat (List.length (bytes_of_string (suffix_text ty))).
Proof. now destruct ty. Qed.

Lemma bytes_at_length m p :
  buf_addr m <= p ->
  Z.of_nat (List.length (bytes_at m p)) = Z.max 0 (buf_addr m + buf_len m - p).
Proof.
  intros Hp. unfold bytes_at, buf_len.
  destruct (buf_addr m <=? p) eqn:E1; [|apply Z.leb_gt in E1; lia].
  destruct (p <? buf_addr m + Z.of_nat (List.length (buf_bytes m))) eqn:E2; cbn [andb].
  - apply Z.ltb_lt in E2. rewrite length_skipn. lia.
  - apply Z.ltb_ge in E2. cbn. lia.
Qed.

(** The size of a literal token is the number of its digits plus the
    length of its suffix. *)
Lemma literal_token_sz m p ty digits :
  span_inside m p ->
  span_bytes m p = digits ++ bytes_of_string (suffix_text ty) ->
  sz p = Z.of_nat (List.length digits) + intlit_pos_sz ty.
Proof.
  intros (Hs & [Hz0 Hz] & He) Hb.
  apply (f_equal (@List.length Z)) in Hb.
  unfold span_bytes in Hb. rewrite length_firstn, length_app in Hb.
  pose proof (bytes_at_length m (start p) Hs) as Hl.
  rewrite intlit_pos_sz_suffix. lia.
Qed.

Lemma digits_pos_span m p ty digits :
  span_inside m p ->
  span_bytes m p = digits ++ bytes_of_string (suffix_text ty) ->
  sz (digits_pos p ty) = Z.of_nat (List.length digits) /\
  span_bytes m (digits_pos p ty) = digits.
Proof.
  intros Hin Hb.
  pose proof (literal_token_sz m p ty digits Hin Hb) as Hsz.
  destruct Hin as (Hs & [Hz0 Hz] & He).
  assert (Hk : 0 <= intlit_pos_sz ty) by (destruct ty; cbn; lia).
  assert (Hd : sz (digits_pos p ty) = Z.of_nat (List.length digits)).
  { cbn [digits_pos sz]. rewrite wrap64_small; unfold in_size_t; lia. }
  split; [exact Hd|].
  unfold span_bytes in *. rewrite Hd. cbn [digits_pos start].
  rewrite Nat2Z.id.
  apply (f_equal (firstn (List.length digits))) in Hb.
  rewrite firstn_firstn in Hb.
  rewrite firstn_app, Nat.sub_diag, firstn_all, firstn_O, app_nil_r in Hb.
  replace (Init.Nat.min (List.length digits) (Z.to_nat (sz p)))
    with (List.length digits) in Hb by lia.
  exact Hb.
Qed.

(** On a span that starts with a decimal digit and a zero cell the
    conversion returns at the first digit. *)
Lemma pos_to_num_first_digit m p c rest :
  bytes_at m (start p) = c :: rest ->
  is_digit c = true ->
  0 < sz p ->
  pos_to_num m p 0 = Done (0, c - CH_0).
Proof.
  intros Hb Hc Hsz. unfold pos_to_num. rewrite Hb.
  cbn [pos_to_num_loop].
  destruct (0 <? sz p) eqn:E; [|apply Z.ltb_ge in E; lia].
  unfold is_digit, CH_0 in *. apply andb_true_iff in Hc as [H1 H2].
  apply Z.leb_le in H1, H2.
  unfold builtin_add_overflow.
  assert (Hr : in_size_t (0 + (c - 48))) by (unfold in_size_t, SIZE_MOD; lia).
  rewrite (wrap64_small _ Hr).
  destruct Hr as [Hr0 Hr1].
  apply Z.leb_le in Hr0. apply Z.ltb_lt in Hr1. rewrite Hr0, Hr1.
  cbn. reflexivity.
Qed.

Lemma literal_token_accepted m base p ty digits :
  literal_token m p ty digits ->
  exists v, make_intlit_expr m base FRESH_CELL p ty = Done (EXPR_INT p v ty).
Proof.
  intros (Hin & Hb & Hne & Hdig).
  destruct (digits_pos_span m p ty digits Hin Hb) as [Hsz Hspan].
  destruct digits as [|c ds]; [congruence|].
  unfold span_bytes in Hspan. rewrite Hsz, Nat2Z.id in Hspan.
  destruct (bytes_at m (start (digits_pos p ty))) as [|c' rest] eqn:Hat;
    [cbn in Hspan; discriminate|].
  cbn [List.length firstn] in Hspan. injection Hspan as -> _.
  cbn [forallb] in Hdig. apply andb_true_iff in Hdig as [Hc _].
  exists (c - CH_0). unfold make_intlit_expr, FRESH_CELL.
  rewrite (pos_to_num_first_digit m _ c rest Hat Hc)
    by (rewrite Hsz; cbn [List.length]; lia).
  reflexivity.
Qed.

Lemma make_intlit_expr_done m base cell p ty e :
  make_intlit_expr m base cell p ty = Done e ->
  exists v, e = EXPR_INT p v ty /\
            pos_to_num m (digits_pos p ty) cell = Done (0, v).
Proof.
  unfold make_intlit_expr.
  destruct (pos_to_num m (digits_pos p ty) cell) as [[rc v]| | |]; cbn [obind];
    try discriminate.
  destruct (rc =? 0) eqn:E; [|discriminate].
  apply Z.eqb_eq in E. subst rc. intros [= <-]. eauto.
Qed.

Lemma pos_to_num_loop_code avail : forall i n acc rc v,
  pos_to_num_loop avail i n acc = Done (rc, v) -> rc = 0 \/ rc = 1.
Proof.
  induction avail as [|c rest IH]; intros i n acc rc v; cbn [pos_to_num_loop].
  - destruct (i <? n); [discriminate|]. intros [= <- _]. now right.
  - destruct (i <? n); [|intros [= <- _]; now right].
    destruct (builtin_add_overflow acc (c - CH_0)) as [o r].
    destruct o; cbn [negb].
    + apply IH.
    + intros [= <- _]. now left.
Qed.

Lemma make_intlit_expr_abort m base cell p ty d :
  in_size_t (sz p) ->
  make_intlit_expr m base cell p ty = Abort d ->
  d = SourceErr (OverflowOn (int_of_size_t (sz p)) (start p)) base p /\
  exists v, pos_to_num m (digits_pos p ty) cell = Done (1, v).
Proof.
  intros Hsz. unfold make_intlit_expr.
  destruct (pos_to_num m (digits_pos p ty) cell) as [[rc v]| | |] eqn:E;
    cbn [obind]; try discriminate.
  - destruct (rc =? 0) eqn:E0; [discriminate|].
    cbn [digits_pos start sz]. rewrite (wrap64_sub_add _ _ Hsz).
    intros [= <-]. split; [now destruct p|].
    apply pos_to_num_loop_code in E as H. apply Z.eqb_neq in E0.
    destruct H; [lia|subst rc]. eauto.
  - unfold pos_to_num in E. revert E.
    generalize (bytes_at m (start (digits_pos p ty))) 0 (sz (digits_pos p ty)) cell.
    intros avail; induction avail as [|c rest IH]; intros i n acc;
      cbn [pos_to_num_loop].
    + destruct (i <? n); discriminate.
    + destruct (i <? n); [|discriminate].
      destruct (builtin_add_overflow acc (c - CH_0)) as [o r].
      destruct o; cbn [negb]; [apply IH | discriminate].
Qed.


Lemma literal_7u8 :
  literal_token buf_7u8 pos_7u8 INTLIT_U8 (bytes_of_string "7").
Proof.
  unfold literal_token, span_inside, in_size_t.
  repeat split; try reflexivity; try (vm_compute; congruence).
Qed.

(** C1 as stated fails: [256u8] is a well-formed literal whose value, 256,
    exceeds the range of [u8], and [make_intlit_expr] returns its node
    (with the value 2) without any diagnostic. *)
Lemma intlit_out_of_range_accepted :
  literal_token buf_256u8 pos_256u8 INTLIT_U8 (bytes_of_string "256") /\
  numeric_value (bytes_of_string "256") = 256 /\
  type_max INTLIT_U8 = 255 /\
  make_intlit_expr buf_256u8 4096 FRESH_CELL pos_256u8 INTLIT_U8
  = Done (EXPR_INT pos_256u8 2 INTLIT_U8).
Proof.
  unfold literal_token, span_inside, in_size_t.
  repeat split; try reflexivity; try (vm_compute; congruence).
Qed.

(** C1, amended.  [make_intlit_expr] ends in a diagnostic only when the
    digit conversion reports overflow, and the diagnostic is then the
    overflow message for the whole token, attributed to the literal's
    exact span; the value is never compared with the range of the suffix
    type.  For every literal whose value is within its type's range no
    overflow diagnostic is raised: the node is returned. *)
Theorem intlit_overflow_diagnostic
    (m : Buffer) (base cell : Z) (p : SourcePosition) (ty : IntLitType) :
  in_size_t (sz p) ->
  (forall d,
      make_intlit_expr m base cell p ty = Abort d ->
      d = SourceErr (OverflowOn (int_of_size_t (sz p)) (start p)) base p /\
      exists v, pos_to_num m (digits_pos p ty) cell = Done (1, v)) /\
  (forall digits,
      literal_token m p ty digits ->
      numeric_value digits <= type_max ty ->
      cell = FRESH_CELL ->
      exists v, make_intlit_expr m base cell p ty = Done (EXPR_INT p v ty)).
Proof.
  intros Hsz. split.
  - intros d. now apply make_intlit_expr_abort.
  - intros digits Htok _ ->. now apply (literal_token_accepted m base p ty digits).
Qed.

Lemma intlit_overflow_diagnostic_witness :
  exists v,
    make_intlit_expr buf_7u8 4096 FRESH_CELL pos_7u8 INTLIT_U8
    = Done (EXPR_INT pos_7u8 v INTLIT_U8).
Proof.
  assert (Hsz : in_size_t (sz pos_7u8)) by (vm_compute; split; congruence).
  apply (proj2 (intlit_overflow_diagnostic buf_7u8 4096 FRESH_CELL
                  pos_7u8 INTLIT_U8 Hsz) (bytes_of_string "7")).
  - exact literal_7u8.
  - vm_compute; congruence.
  - reflexivity.
Defined.

(** C2 (the code departs from it).  On the literal [12] the conversion
    returns success after the first digit with 1 in the cell, where adding
    every digit with an overflow check gives success with 3. *)
Theorem pos_to_num_stops_after_first_digit :
  span_bytes buf_12 pos_12 = bytes_of_string "12" /\
  pos_to_num buf_12 pos_12 FRESH_CELL = Done (0, 1) /\
  checked_digit_sum (bytes_of_string "12") FRESH_CELL = (0, 3).
Proof. repeat split; reflexivity. Qed.

(** C5.  For a literal token whose text is digits followed by the suffix
    of its type tag: the table entry of the tag is the length of that
    suffix (2 for [u8] and [i8], 3 for the other six, 0 for none), the
    span converted is the token without exactly the suffix, which is the
    digits; without a suffix it is the whole token.  The node records the
    token's span and type tag and the value the conversion stored, and on
    a fresh node with decimal digits the node is returned. *)
Theorem intlit_type_and_digits
    (m : Buffer) (base cell : Z) (p : SourcePosition) (ty : IntLitType)
    (digits : list Z) :
  span_inside m p ->
  span_bytes m p = digits ++ bytes_of_string (suffix_text ty) ->
  intlit_pos_sz ty = Z.of_nat (String.length (suffix_text ty)) /\
  start (digits_pos p ty) = start p /\
  sz (digits_pos p ty) + intlit_pos_sz ty = sz p /\
  span_bytes m (digits_pos p ty) = digits /\
  (ty = INTLIT_I64_NONE -> digits_pos p ty = p /\ span_bytes m p = digits) /\
  (forall e,
      make_intlit_expr m base cell p ty = Done e ->
      exists v, e = EXPR_INT p v ty /\
                pos_to_num m (digits_pos p ty) cell = Done (0, v)) /\
  (digits <> [] -> forallb is_digit digits = true -> cell = FRESH_CELL ->
   exists v, make_intlit_expr m base cell p ty = Done (EXPR_INT p v ty)).
Proof.
  intros Hin Hb.
  destruct (digits_pos_span m p ty digits Hin Hb) as [Hsz Hspan].
  pose proof (literal_token_sz m p ty digits Hin Hb) as Hp.
  split; [now destruct ty|].
  split; [reflexivity|].
  split; [lia|].
  split; [exact Hspan|].
  split.
  - intros ->. cbn in Hb. rewrite app_nil_r in Hb. split; [|exact Hb].
    destruct Hin as (_ & Hr & _).
    unfold digits_pos. cbn [intlit_pos_sz]. rewrite Z.sub_0_r.
    rewrite (wrap64_small _ Hr). now destruct p.
  - split.
    + intros e. apply make_intlit_expr_done.
    + intros Hne Hdig ->. apply (literal_token_accepted m base p ty digits).
      unfold literal_token. auto.
Qed.

Lemma intlit_type_and_digits_witness :
  span_bytes buf_7u8 (digits_pos pos_7u8 INTLIT_U8) = bytes_of_string "7".
Proof.
  destruct literal_7u8 as (Hin & Hb & _).
  exact (proj1 (proj2 (proj2 (proj2
    (intlit_type_and_digits buf_7u8 4096 FRESH_CELL pos_7u8 INTLIT_U8
       (bytes_of_string "7") Hin Hb))))).
Defined.

(** ** The arena *)

Lemma size_needed_loop_spec fuel : forall ret requested,
  0 <= ret ->
  requested <= SIZE_MOD - POOL_CHUNK_SZ ->
  requested - ret <= POOL_CHUNK_SZ * Z.of_nat fuel ->
  exists r,
    size_needed_loop fuel ret requested = Done r /\
    ret <= r /\ requested <= r /\ (r = ret \/ r < requested + POOL_CHUNK_SZ).
Proof.
  induction fuel as [|fuel IH]; intros ret requested Hret Hreq Hfuel;
    cbn [size_needed_loop];
    destruct (ret <? requested) eqn:E;
    try (apply Z.ltb_ge in E; exists ret; repeat split; auto; lia).
  - apply Z.ltb_lt in E. exfalso. rewrite Z.mul_0_r in Hfuel. lia.
  - apply Z.ltb_lt in E.
    assert (Hw : wrap64 (ret + POOL_CHUNK_SZ) = ret + POOL_CHUNK_SZ).
    { apply wrap64_small. unfold in_size_t, POOL_CHUNK_SZ in *. lia. }
    rewrite Hw.
    destruct (IH (ret + POOL_CHUNK_SZ) requested) as (r & Hr & H1 & H2 & H3);
      try (unfold POOL_CHUNK_SZ in *; lia).
    exists r. repeat split; try lia; try exact Hr.
Qed.

(** Beyond the last multiple of the chunk size the loop of [size_needed]
    does not end: [ret] wraps around to zero before it reaches the
    request, so no bound is enough. *)
Lemma size_needed_loop_diverges fuel : forall ret requested,
  SIZE_MOD - POOL_CHUNK_SZ < requested ->
  in_size_t ret ->
  ret mod POOL_CHUNK_SZ = 0 ->
  size_needed_loop fuel ret requested = NoFuel.
Proof.
  induction fuel as [|fuel IH]; intros ret requested Hreq [Hr0 Hr1] Hmod;
    cbn [size_needed_loop].
  - destruct (ret <? requested) eqn:E; [reflexivity|].
    apply Z.ltb_ge in E. unfold SIZE_MOD, POOL_CHUNK_SZ in *.
    pose proof (Z.div_mod ret 4096 ltac:(lia)) as Hd. lia.
  - destruct (ret <? requested) eqn:E.
    + apply IH; [exact Hreq | apply wrap64_range |].
      unfold wrap64, SIZE_MOD, POOL_CHUNK_SZ in *.
      rewrite Z.mod_mod_divide by (exists (2 ^ 52); reflexivity).
      rewrite Z.add_mod, Hmod by lia. reflexivity.
    + apply Z.ltb_ge in E. unfold SIZE_MOD, POOL_CHUNK_SZ in *.
      pose proof (Z.div_mod ret 4096 ltac:(lia)) as Hd. lia.
Qed.

Lemma size_needed_spec requested :
  0 <= requested <= SIZE_MOD - POOL_CHUNK_SZ ->
  exists r,
    size_needed requested = Done r /\
    requested <= r < requested + POOL_CHUNK_SZ.
Proof.
  intros [H0 H1]. unfold size_needed.
  destruct (size_needed_loop_spec (S (Z.to_nat (requested / POOL_CHUNK_SZ)))
              0 requested) as (r & Hr & Ha & Hb & Hc); try lia.
  - unfold POOL_CHUNK_SZ in *.
    pose proof (Z.div_mod requested 4096 ltac:(lia)) as Hdm.
    pose proof (Z.mod_pos_bound requested 4096 ltac:(lia)) as Hm.
    assert (0 <= requested / 4096) by (apply Z.div_pos; lia).
    rewrite Nat2Z.inj_succ, Z2Nat.id by lia. lia.
  - exists r. split; [exact Hr|]. unfold POOL_CHUNK_SZ in *. lia.
Qed.

(** One call: it ends the process for want of memory or hands out the
    bytes that follow the used part of the pool. *)
Lemma mempool_alloc_step pool amount :
  pool_ok pool ->
  request_ok amount ->
  mempool_alloc pool amount = Abort OOM \/
  exists pool' calls,
    mempool_alloc pool amount = Done (base pool + size pool, pool', calls) /\
    pool_ok pool' /\
    base pool' = base pool /\
    size pool' = size pool + amount /\
    alloc pool <= alloc pool' /\
    existsb is_munmap calls = false.
Proof.
  intros [[Hs0 Hs] Ha] [Hq0 Hq].
  unfold request_ok, MAX_REQUEST, SIZE_MOD, POOL_MAX_SZ, POOL_CHUNK_SZ in *.
  unfold mempool_alloc.
  assert (Hw1 : wrap64 (size pool + amount + 1) = size pool + amount + 1).
  { apply wrap64_small. unfold in_size_t, SIZE_MOD. lia. }
  assert (Hw2 : wrap64 (size pool + amount) = size pool + amount).
  { apply wrap64_small. unfold in_size_t, SIZE_MOD. lia. }
  rewrite Hw1.
  destruct (size pool + amount + 1 >=? alloc pool) eqn:E.
  - destruct (size_needed_spec amount) as (needed & Hn & Hn1 & Hn2).
    { unfold SIZE_MOD, POOL_CHUNK_SZ. lia. }
    unfold POOL_CHUNK_SZ in *.
    rewrite Hn. cbn [obind].
    assert (Hw3 : wrap64 (alloc pool + needed) = alloc pool + needed).
    { apply wrap64_small. unfold in_size_t, SIZE_MOD. lia. }
    rewrite Hw3.
    destruct (alloc pool + needed >? POOL_MAX_SZ) eqn:E2; cbn [obind].
    + now left.
    + right. rewrite Z.gtb_ltb in E2. apply Z.ltb_ge in E2.
      unfold POOL_MAX_SZ in E2.
      eexists _, _. split; [reflexivity|]. cbn [base size alloc].
      rewrite Hw2. unfold pool_ok, POOL_MAX_SZ. cbn [base size alloc].
      repeat split; try lia; reflexivity.
  - right. rewrite Z.geb_leb in E. apply Z.leb_gt in E. cbn [obind].
    eexists _, _. split; [reflexivity|]. cbn [base size alloc].
    rewrite Hw2. unfold pool_ok, POOL_MAX_SZ. cbn [base size alloc].
    repeat split; try lia; reflexivity.
Qed.

Lemma mempool_allocs_run amounts : forall pool,
  pool_ok pool ->
  Forall request_ok amounts ->
  mempool_allocs pool amounts = Abort OOM \/
  exists regions pool' calls,
    mempool_allocs pool amounts = Done (regions, pool', calls) /\
    pool_ok pool' /\
    base pool' = base pool /\
    size pool' = size pool + fold_right Z.add 0 amounts /\
    alloc pool <= alloc pool' /\
    map snd regions = amounts /\
    Forall (region_within (base pool) (size pool) (size pool')) regions /\
    ForallOrdPairs region_disjoint regions /\
    existsb is_munmap calls = false.
Proof.
  induction amounts as [|amount rest IH]; intros pool Hok Hreq.
  - right. exists [], pool, []. cbn [mempool_allocs fold_right map existsb].
    destruct Hok as [[? ?] ?].
    repeat split; auto; try lia; constructor.
  - inversion Hreq as [|? ? Ha Hrest]; subst.
    cbn [mempool_allocs].
    destruct (mempool_alloc_step pool amount Hok Ha)
      as [-> | (pool1 & calls1 & -> & Hok1 & Hb1 & Hs1 & Ha1 & Hm1)];
      [now left|].
    cbn [obind].
    destruct (IH pool1 Hok1 Hrest)
      as [-> | (regions & pool2 & calls2 & -> & Hok2 & Hb2 & Hs2 & Ha2 & Hmap
                & Hwithin & Hdisj & Hm2)];
      [now left|].
    cbn [obind]. right. eexists _, _, _. split; [reflexivity|].
    assert (Hsum : 0 <= fold_right Z.add 0 rest).
    { clear -Hrest. induction Hrest as [|a l [Ha0 _] _ IHl]; cbn; lia. }
    destruct Ha as [Ha0 _].
    split; [exact Hok2|].
    split; [congruence|].
    split; [cbn [fold_right]; lia|].
    split; [lia|].
    split; [cbn [map snd]; now f_equal|].
    split.
    { constructor.
      - unfold region_within. cbn [fst snd]. lia.
      - eapply Forall_impl; [|exact Hwithin].
        intros r [H1 H2]. unfold region_within. rewrite Hb1 in *. lia. }
    split.
    { constructor; [|exact Hdisj].
      eapply Forall_impl; [|exact Hwithin].
      intros r [H1 _]. left. cbn [fst snd]. rewrite Hb1 in H1. lia. }
    rewrite existsb_app, Hm1, Hm2. reflexivity.
Qed.

Lemma mempool_allocs_app before : forall pool after,
  mempool_allocs pool (before ++ after)
  = obind (mempool_allocs pool before) (fun '(r1, pool1, c1) =>
    obind (mempool_allocs pool1 after) (fun '(r2, pool2, c2) =>
    Done (r1 ++ r2, pool2, c1 ++ c2))).
Proof.
  induction before as [|a before IH]; intros pool after.
  - cbn [app mempool_allocs obind].
    destruct (mempool_allocs pool after) as [[[r2 pool2] c2]| | |]; reflexivity.
  - cbn [app mempool_allocs].
    destruct (mempool_alloc pool a) as [[[p pool1] c1]| | |]; cbn [obind];
      try reflexivity.
    rewrite IH.
    destruct (mempool_allocs pool1 before) as [[[r1 pool2] c2]| | |];
      cbn [obind]; try reflexivity.
    destruct (mempool_allocs pool2 after) as [[[r2 pool3] c3]| | |];
      cbn [obind]; try reflexivity.
    now rewrite app_assoc.
Qed.

Lemma region_within_committed pool lo r :
  pool_ok pool -> 0 <= lo ->
  region_within (base pool) lo (size pool) r -> region_committed pool r.
Proof.
  intros [[_ Hs] _] Hlo [H1 H2]. unfold region_committed. lia.
Qed.

(** C9 as stated fails: a request of [SIZE_MOD - 8] bytes after one of 16
    wraps the used size around from 16 to 8; the region it returns is not
    inside the readable and writable part, and the next region overlaps
    the first. *)
Lemma mempool_alloc_wraps_around :
  mempool_init 65536 0
  = Done (pool0, [Mmap POOL_MAX_SZ; Mprotect 65536 POOL_CHUNK_SZ]) /\
  mempool_allocs pool0 [16] = Done ([(65536, 16)], mkPool 65536 16 4096, []) /\
  mempool_allocs pool0 [16; SIZE_MOD - 8]
  = Done ([(65536, 16); (65552, SIZE_MOD - 8)], mkPool 65536 8 4096, []) /\
  mempool_allocs pool0 [16; SIZE_MOD - 8; 4]
  = Done ([(65536, 16); (65552, SIZE_MOD - 8); (65544, 4)],
          mkPool 65536 12 4096, []) /\
  ~ region_disjoint (65536, 16) (65544, 4) /\
  ~ region_committed (mkPool 65536 8 4096) (65552, SIZE_MOD - 8).
Proof.
  repeat split; try reflexivity.
  - unfold region_disjoint. cbn. lia.
  - unfold region_committed, SIZE_MOD. cbn. lia.
Qed.

(** C9, amended.  For every sequence of [mempool_alloc] calls on an
    initialised pool in which no request exceeds [MAX_REQUEST], the run
    ends the process for want of memory or returns, and then: the used
    size after any prefix of the calls is between the size at the start
    and the size at the end, the regions returned are pairwise disjoint
    and each lies wholly within the readable and writable part of the
    pool, both when it is returned and at the end, the regions returned by
    a prefix are the same when more calls follow, and no call issues
    [munmap].  The one release is the [munmap] of the whole mapping that
    [mempool_deinit] issues. *)
Theorem mempool_growth_only (pool : MemPool) (amounts : list Z) :
  pool_ok pool ->
  Forall request_ok amounts ->
  (mempool_allocs pool amounts = Abort OOM \/
   exists regions pool' calls,
     mempool_allocs pool amounts = Done (regions, pool', calls) /\
     pool_ok pool' /\
     base pool' = base pool /\
     map snd regions = amounts /\
     ForallOrdPairs region_disjoint regions /\
     Forall (region_committed pool') regions /\
     existsb is_munmap calls = false /\
     (forall before after,
         amounts = before ++ after ->
         exists regions1 pool1 calls1,
           mempool_allocs pool before = Done (regions1, pool1, calls1) /\
           size pool <= size pool1 <= size pool' /\
           Forall (region_committed pool1) regions1 /\
           firstn (List.length before) regions = regions1)) /\
  (forall r, r <> -1 ->
     mempool_deinit pool r
     = Done ({| base := NULL; size := size pool; alloc := alloc pool |},
             [Munmap (base pool) POOL_MAX_SZ])).
Proof.
  intros Hok Hreq. split.
  - destruct (mempool_allocs_run amounts pool Hok Hreq)
      as [-> | (regions & pool' & calls & Hrun & Hok' & Hb & Hs & Ha & Hmap
                & Hwithin & Hdisj & Hm)];
      [now left|right].
    exists regions, pool', calls.
    assert (Hs0 : 0 <= size pool) by (destruct Hok as [[? ?] ?]; lia).
    split; [exact Hrun|]. split; [exact Hok'|]. split; [exact Hb|].
    split; [exact Hmap|]. split; [exact Hdisj|].
    split.
    { eapply Forall_impl; [|exact Hwithin].
      intros r Hr. apply (region_within_committed pool' (size pool)); auto.
      now rewrite Hb. }
    split; [exact Hm|].
    intros before after ->.
    apply Forall_app in Hreq as [Hreq1 Hreq2].
    rewrite mempool_allocs_app in Hrun.
    destruct (mempool_allocs_run before pool Hok Hreq1)
      as [E | (regions1 & pool1 & calls1 & E & Hok1 & Hb1 & Hs1 & Ha1 & Hmap1
               & Hwithin1 & _ & _)];
      rewrite E in Hrun; cbn [obind] in Hrun; [discriminate|].
    destruct (mempool_allocs_run after pool1 Hok1 Hreq2)
      as [E2 | (regions2 & pool2 & calls2 & E2 & Hok2 & Hb2 & Hs2 & _)];
      rewrite E2 in Hrun; cbn [obind] in Hrun; [discriminate|].
    injection Hrun as <- <- <-.
    exists regions1, pool1, calls1. split; [exact E|].
    assert (Hsum : forall l, Forall request_ok l -> 0 <= fold_right Z.add 0 l).
    { intros l Hl. induction Hl as [|a l [Ha0 _] _ IHl]; cbn; lia. }
    pose proof (Hsum _ Hreq1). pose proof (Hsum _ Hreq2).
    split; [lia|]. split.
    + eapply Forall_impl; [|exact Hwithin1].
      intros r Hr. apply (region_within_committed pool1 (size pool)); auto.
      now rewrite Hb1.
    + apply (f_equal (@List.length _)) in Hmap1.
      rewrite length_map in Hmap1. rewrite <- Hmap1.
      now rewrite firstn_app, Nat.sub_diag, firstn_all, firstn_O, app_nil_r.
  - intros r Hr. unfold mempool_deinit.
    destruct (r =? -1) eqn:E; [apply Z.eqb_eq in E; contradiction|reflexivity].
Qed.

Lemma mempool_growth_only_witness :
  exists regions pool' calls,
    mempool_allocs pool0 [16; 5000; 4] = Done (regions, pool', calls) /\
    ForallOrdPairs region_disjoint regions /\
    Forall (region_committed pool') regions /\
    existsb is_munmap calls = false.
Proof.
  assert (Hok : pool_ok pool0) by (vm_compute; repeat split; congruence).
  assert (Hreq : Forall request_ok [16; 5000; 4])
    by (repeat constructor; vm_compute; congruence).
  destruct (proj1 (mempool_growth_only pool0 [16; 5000; 4] Hok Hreq))
    as [E | (regions & pool' & calls & E & _ & _ & _ & Hd & Hc & Hm & _)].
  - vm_compute in E. discriminate E.
  - exists regions, pool', calls. auto.
Defined.

(** The pointer a call returns is the end of the used part. *)
Lemma mempool_alloc_pointer pool amount p pool' calls :
  mempool_alloc pool amount = Done (p, pool', calls) ->
  p = base pool + size pool /\ base pool' = base pool.
Proof.
  unfold mempool_alloc.
  destruct (wrap64 (size pool + amount + 1) >=? alloc pool).
  - destruct (size_needed amount) as [needed| | |]; cbn [obind];
      try discriminate.
    destruct (wrap64 (alloc pool + needed) >? POOL_MAX_SZ); cbn [obind];
      [discriminate|].
    intros [= <- <- _]. now split.
  - cbn [obind]. intros [= <- <- _]. now split.
Qed.

(** [vector_init] on an initialised pool sets up a vector that
    [vector_ok] admits. *)
Lemma vector_init_ok sz_item pool vec pool' :
  pool_ok pool ->
  NULL < base pool ->
  0 <= sz_item ->
  vector_init sz_item pool = Done (vec, pool') ->
  vector_ok vec.
Proof.
  intros [[Hs _] _] Hbase Hsz. unfold vector_init.
  destruct (mempool_alloc pool _) as [[[p pool1] calls]| | |] eqn:E;
    cbn [obind]; try discriminate.
  apply mempool_alloc_pointer in E as [-> _].
  intros [= <- _]. unfold vector_ok, NULL, SIZE_MOD in *.
  cbn [data it_sz items]. repeat split; lia.
Qed.

(** ** Diagnostics *)

(** C6 (the code departs from it).  A stray parenthesis as the first token
    of the source makes [parse_ast] call [log_source_err] with the
    file-scope [src_base], which is still null; the backward scan then
    reads below the source buffer, which is undefined.  With the address
    of the buffer as base the same call prints the message and the line. *)
Theorem parse_error_on_first_line :
  parse_ast buf_paren 8 4096 (initial_state [tok TOK_LPAREN 4096 1] eof0)
  = Abort (SourceErr (Plain "expected function name") NULL (mkPos 4096 1)) /\
  log_source_err buf_paren [] [] (Plain "expected function name") NULL
    (mkPos 4096 1) = None /\
  log_source_err buf_paren [] [] (Plain "expected function name") 4096
    (mkPos 4096 1)
  = Some {| err_stream :=
              diag_text (bytes_of_string "expected function name")
                (bytes_of_string "(");
            out_stream := [];
            exit_status := EXIT_FAILURE |}.
Proof. repeat split. Qed.

Lemma scan_back_segment seg : forall rest p base,
  Forall (fun c => c <> CH_NL) seg ->
  base <= p - Z.of_nat (List.length seg) ->
  scan_back (seg ++ rest) p base
  = scan_back rest (p - Z.of_nat (List.length seg)) base.
Proof.
  induction seg as [|c seg IH]; intros rest p base Hseg Hbase.
  - cbn [app List.length]. now rewrite Z.sub_0_r.
  - inversion Hseg as [|? ? Hc Hseg']; subst.
    cbn [app scan_back List.length] in *.
    destruct (p =? base) eqn:E; [apply Z.eqb_eq in E; lia|].
    destruct (c =? CH_NL) eqn:E2; [apply Z.eqb_eq in E2; contradiction|].
    rewrite IH by (auto; lia). f_equal. lia.
Qed.

Lemma put_line_segment line : forall post,
  Forall (fun c => c <> CH_NL) line ->
  put_line (line ++ CH_NL :: post) = Some line.
Proof.
  induction line as [|c line IH]; intros post Hline.
  - reflexivity.
  - inversion Hline as [|? ? Hc Hline']; subst. cbn [app put_line].
    destruct (c =? CH_NL) eqn:E; [apply Z.eqb_eq in E; contradiction|].
    now rewrite IH.
Qed.

Lemma Forall_firstn_keep {A} (P : A -> Prop) k l :
  Forall P l -> Forall P (firstn k l).
Proof.
  intros H. rewrite <- (firstn_skipn k l) in H.
  now apply Forall_app in H.
Qed.

(** A format without conversions is printed as it is. *)
Lemma print_format_verbatim fmt :
  Forall (fun c => c <> CH_PERCENT /\ c <> CH_NUL) fmt ->
  print_format fmt = Some fmt.
Proof.
  induction fmt as [|c fmt IH]; intros H; [reflexivity|].
  inversion H as [|? ? [Hp Hn] H']; subst. cbn [print_format].
  destruct (c =? CH_NUL) eqn:E1; [apply Z.eqb_eq in E1; contradiction|].
  destruct (c =? CH_PERCENT) eqn:E2; [apply Z.eqb_eq in E2; contradiction|].
  now rewrite IH.
Qed.

Lemma vfprintf_verbatim m text :
  verbatim text -> vfprintf m (Plain text) = Some (bytes_of_string text).
Proof. intros H. cbn [vfprintf]. now apply print_format_verbatim. Qed.

(** X1.  Given the address of the source buffer as [base], a message
    without conversions and a position on a line that ends in a newline,
    [log_source_err] writes the message and then that whole line to
    stderr, writes nothing to stdout and exits with [EXIT_FAILURE]. *)
Theorem log_source_err_renders_line
    (m : Buffer) (err0 out0 : list Z) (text : string) (p : SourcePosition)
    (pre line post : list Z) :
  verbatim text ->
  buf_bytes m = pre ++ line ++ CH_NL :: post ->
  line_start pre ->
  Forall (fun c => c <> CH_NL) line ->
  buf_addr m + Z.of_nat (List.length pre) <= start p
    <= buf_addr m + Z.of_nat (List.length pre) + Z.of_nat (List.length line) ->
  log_source_err m err0 out0 (Plain text) (buf_addr m) p
  = Some {| err_stream := err0 ++ diag_text (bytes_of_string text) line;
            out_stream := out0;
            exit_status := EXIT_FAILURE |}.
Proof.
  intros Htext Hbuf Hpre Hline [Hlo Hhi].
  unfold log_source_err. rewrite (vfprintf_verbatim m text Htext).
  set (k := Z.to_nat (start p - buf_addr m - Z.of_nat (List.length pre))).
  assert (Hk : (k <= List.length line)%nat) by lia.
  assert (Hlen : buf_len m
                 = Z.of_nat (List.length pre) + Z.of_nat (List.length line)
                   + 1 + Z.of_nat (List.length post)).
  { unfold buf_len. rewrite Hbuf, !length_app. cbn [List.length]. lia. }
  assert (Hbefore : bytes_before m (start p) = rev (firstn k line) ++ rev pre).
  { unfold bytes_before.
    destruct (buf_addr m <=? start p) eqn:E1; [|apply Z.leb_gt in E1; lia].
    destruct (start p <=? buf_addr m + buf_len m) eqn:E2;
      [|apply Z.leb_gt in E2; lia].
    cbn [andb]. rewrite Hbuf.
    replace (Z.to_nat (start p - buf_addr m)) with (List.length pre + k)%nat
      by lia.
    rewrite firstn_app_2, rev_app_distr.
    f_equal. f_equal. rewrite firstn_app.
    replace (k - List.length line)%nat with 0%nat by lia.
    now rewrite firstn_O, app_nil_r. }
  rewrite Hbefore.
  assert (Hscan : scan_back (rev (firstn k line) ++ rev pre) (start p)
                    (buf_addr m)
                  = Some (buf_addr m + Z.of_nat (List.length pre) - 1)).
  { rewrite scan_back_segment.
    - rewrite length_rev, length_firstn.
      replace (start p - Z.of_nat (Nat.min k (List.length line)))
        with (buf_addr m + Z.of_nat (List.length pre)) by lia.
      destruct Hpre as [-> | [pre' ->]].
      + cbn [rev scan_back List.length]. rewrite Z.add_0_r, Z.eqb_refl.
        reflexivity.
      + rewrite rev_app_distr. cbn [rev app scan_back].
        rewrite length_app. cbn [List.length].
        destruct (_ =? buf_addr m) eqn:E; [apply Z.eqb_eq in E; lia|].
        reflexivity.
    - apply Forall_rev. now apply Forall_firstn_keep.
    - rewrite length_rev, length_firstn. lia. }
  rewrite Hscan.
  assert (Hat : bytes_at m (buf_addr m + Z.of_nat (List.length pre) - 1 + 1)
                = line ++ CH_NL :: post).
  { unfold bytes_at.
    destruct (buf_addr m <=? _) eqn:E1; [|apply Z.leb_gt in E1; lia].
    destruct (_ <? buf_addr m + buf_len m) eqn:E2;
      [|apply Z.ltb_ge in E2; lia].
    cbn [andb]. rewrite Hbuf.
    replace (Z.to_nat _) with (List.length pre + 0)%nat by lia.
    now rewrite skipn_app, Nat.add_0_r, skipn_all, Nat.sub_diag. }
  rewrite Hat, put_line_segment by exact Hline.
  unfold diag_text. reflexivity.
Qed.

Lemma log_source_err_renders_line_witness :
  log_source_err buf_two_lines [] [] (Plain "expected ')'") 4096
    (mkPos 4101 1)
  = Some {| err_stream :=
              [] ++ diag_text (bytes_of_string "expected ')'")
                      (bytes_of_string "g(");
            out_stream := [];
            exit_status := EXIT_FAILURE |}.
Proof.
  apply (log_source_err_renders_line buf_two_lines [] [] "expected ')'"
           (mkPos 4101 1) (bytes_of_string "f()
") (bytes_of_string "g(") []).
  - repeat constructor; vm_compute; congruence.
  - reflexivity.
  - right. exists (bytes_of_string "f()"). reflexivity.
  - repeat constructor; vm_compute; congruence.
  - vm_compute. split; congruence.
Defined.

(** ** Statements *)

Lemma lexer_next_cons st tok rest :
  toks st = tok :: rest -> lexer_next st = Done (tok, with_toks st rest).
Proof. intros H. unfold lexer_next, peek_token. now rewrite H. Qed.

Lemma lexer_peek_cons st tok rest :
  toks st = tok :: rest -> lexer_peek st = Done (tok, st).
Proof. intros H. unfold lexer_peek, peek_token. now rewrite H. Qed.

Lemma expect_cons st tok rest k msg :
  toks st = tok :: rest -> t tok = k ->
  expect k msg st = Done (tok, with_toks st rest).
Proof.
  intros H Hk. unfold expect, bind. rewrite (lexer_next_cons st tok rest H).
  rewrite Hk. replace (TokKind_beq k k) with true; [reflexivity|].
  now destruct k.
Qed.

Lemma parse_type_cons st tok rest ty :
  toks st = tok :: rest -> type_const_of (t tok) = Some ty ->
  parse_type st = Done (ty, with_toks st rest).
Proof.
  intros H Hty. unfold parse_type, bind.
  rewrite (lexer_next_cons st tok rest H), Hty. reflexivity.
Qed.

Lemma with_toks_toks st ts : toks (with_toks st ts) = ts.
Proof. reflexivity. Qed.

Lemma with_toks_twice st ts ts' :
  with_toks (with_toks st ts) ts' = with_toks st ts'.
Proof. reflexivity. Qed.

(** C8, amended.  A [let] or [mut] statement records its name and the
    mutability flag it is parsed with.  With [=] after the name it records
    the initializer and no declared type; with [:], a type and a newline
    it records the type and no initializer; with [:], a type and [=] it
    records both.  With neither [=] nor [:] after the name the statement
    is rejected with the diagnostic "expected '=' or ':'". *)
Theorem parse_let_forms
    (m : Buffer) (b : Z) (n : nat) (mut : Z) (st : PState)
    (first name mid : Token) (rest : list Token) :
  toks st = first :: name :: mid :: rest ->
  t name = TOK_SYM ->
  (* an initializer only *)
  (t mid = TOK_EQ ->
   forall e st' nl rest',
     parse_expr m b n (with_toks st rest) = Done (e, st') ->
     toks st' = nl :: rest' -> t nl = TOK_NEWLINE ->
     parse_let m b n mut st
     = Done (STMT_LET (combine_pos (pos first) (pos nl)) (pos name)
               None (Some e) mut,
             with_toks st' rest')) /\
  (* a declared type only *)
  (t mid = TOK_COLON ->
   forall tytok ty nl rest',
     rest = tytok :: nl :: rest' ->
     type_const_of (t tytok) = Some ty -> t nl = TOK_NEWLINE ->
     parse_let m b n mut st
     = Done (STMT_LET (combine_pos (pos first) (pos nl)) (pos name)
               (Some ty) None mut,
             with_toks st rest')) /\
  (* both *)
  (t mid = TOK_COLON ->
   forall tytok ty eq rest0 e st' nl rest',
     rest = tytok :: eq :: rest0 ->
     type_const_of (t tytok) = Some ty -> t eq = TOK_EQ ->
     parse_expr m b n (with_toks st rest0) = Done (e, st') ->
     toks st' = nl :: rest' -> t nl = TOK_NEWLINE ->
     parse_let m b n mut st
     = Done (STMT_LET (combine_pos (pos first) (pos nl)) (pos name)
               (Some ty) (Some e) mut,
             with_toks st' rest')) /\
  (* neither *)
  (t mid <> TOK_EQ -> t mid <> TOK_COLON ->
   parse_let m b n mut st
   = Abort (SourceErr (Plain "expected '=' or ':'") (src_base st) (pos mid))).
Proof.
  intros Htoks Hname.
  assert (Hhead : forall k : Token -> Token -> Token -> M Stmt,
    bind lexer_next (fun first_tok =>
    bind (expect TOK_SYM "expected variable name") (fun var_name =>
    bind lexer_next (fun middle_tok => k first_tok var_name middle_tok))) st
    = k first name mid (with_toks st rest)).
  { intros k. unfold bind at 1.
    rewrite (lexer_next_cons st first _ Htoks).
    unfold bind at 1.
    rewrite (expect_cons (with_toks st (name :: mid :: rest)) name
               (mid :: rest) TOK_SYM _ eq_refl Hname).
    unfold bind at 1.
    rewrite (lexer_next_cons (with_toks (with_toks st (name :: mid :: rest))
                                (mid :: rest)) mid rest eq_refl).
    reflexivity. }
  unfold parse_let. rewrite Hhead. clear Hhead.
  split; [|split; [|split]].
  - intros Hmid e st' nl rest' He Hst' Hnl. rewrite Hmid.
    unfold bind at 1. rewrite He.
    unfold bind at 1.
    rewrite (expect_cons st' nl rest' TOK_NEWLINE _ Hst' Hnl). reflexivity.
  - intros Hmid tytok ty nl rest' -> Hty Hnl. rewrite Hmid.
    unfold bind at 1.
    rewrite (parse_type_cons (with_toks st (tytok :: nl :: rest')) tytok
               (nl :: rest') ty eq_refl Hty).
    unfold bind at 1.
    rewrite (lexer_next_cons (with_toks (with_toks st (tytok :: nl :: rest'))
                                (nl :: rest')) nl rest' eq_refl).
    rewrite Hnl. reflexivity.
  - intros Hmid tytok ty eq rest0 e st' nl rest' -> Hty Heq He Hst' Hnl.
    rewrite Hmid.
    unfold bind at 1.
    rewrite (parse_type_cons (with_toks st (tytok :: eq :: rest0)) tytok
               (eq :: rest0) ty eq_refl Hty).
    unfold bind at 1.
    rewrite (lexer_next_cons (with_toks (with_toks st (tytok :: eq :: rest0))
                                (eq :: rest0)) eq rest0 eq_refl).
    rewrite Heq.
    unfold bind at 1. rewrite !with_toks_twice, He.
    unfold bind at 1.
    rewrite (expect_cons st' nl rest' TOK_NEWLINE _ Hst' Hnl). reflexivity.
  - intros H1 H2. destruct (t mid); try contradiction; reflexivity.
Qed.

(** C8 as stated fails: [let x] followed by a newline, a [let] with neither
    a declared type nor an initializer, is rejected. *)
Lemma parse_let_bare_rejected :
  parse_let buf_12 4096 8 0 (initial_state toks_let_bare eof0)
  = Abort (SourceErr (Plain "expected '=' or ':'") NULL (mkPos 4101 1)).
Proof. reflexivity. Qed.

Lemma parse_let_forms_witness :
  parse_let buf_12 4096 8 0 (initial_state toks_let_init eof0)
  = Done (STMT_LET (mkPos 4096 10) (mkPos 4100 1) None
            (Some (EXPR_VAR (mkPos 4104 1))) 0,
          initial_state [] eof0).
Proof.
  exact (proj1 (parse_let_forms buf_12 4096 8 0
                  (initial_state toks_let_init eof0)
                  (tok TOK_LET 4096 3) (tok TOK_SYM 4100 1) (tok TOK_EQ 4102 1)
                  [tok TOK_SYM 4104 1; tok TOK_NEWLINE 4105 1]
                  eq_refl eq_refl)
           eq_refl (EXPR_VAR (mkPos 4104 1))
           (initial_state [tok TOK_NEWLINE 4105 1] eof0)
           (tok TOK_NEWLINE 4105 1) [] eq_refl eq_refl eq_refl).
Defined.

(** ** Functions *)

Lemma TokKind_beq_eq a b : TokKind_beq a b = true <-> a = b.
Proof.
  split; [apply internal_TokKind_dec_bl | apply internal_TokKind_dec_lb].
Qed.



(** ** Expressions: one round of each function *)

Section Unfold.

Variable m : Buffer.
Variable b : Z.

Lemma parse_primary_S n :
  parse_primary m b (S n)
  = (tok <- lexer_next ;;
     match t tok with
     | TOK_INT =>
         lift (make_intlit_expr m b FRESH_CELL (pos tok) (intlit_type tok))
     | TOK_SYM =>
         nxt <- lexer_peek ;;
         if TokKind_beq (t nxt) TOK_LPAREN then parse_funcall m b n tok
         else ret (EXPR_VAR (pos tok))
     | TOK_LPAREN =>
         e <- parse_comp m b n ;;
         expect TOK_RPAREN "expected ')'" ;;
         ret e
     | _ => source_err "expected expression" (pos tok)
     end).
Proof. reflexivity. Qed.

Lemma parse_funcall_S n name_tok :
  parse_funcall m b (S n) name_tok
  = (lexer_next ;;
     args <- parse_funcall_loop m b n [] ;;
     last_paren <- expect TOK_RPAREN "expected ')'" ;;
     ret (EXPR_FUNCALL (combine_pos (pos name_tok) (pos last_paren))
            (pos name_tok) args)).
Proof. reflexivity. Qed.

Lemma parse_funcall_loop_S n args :
  parse_funcall_loop m b (S n) args
  = (nxt <- lexer_peek ;;
     if TokKind_beq (t nxt) TOK_RPAREN then ret args
     else
       temp <- parse_comp m b n ;;
       nxt' <- lexer_peek ;;
       if negb (TokKind_beq (t nxt') TOK_COMMA) then ret (args ++ [temp])
       else lexer_next ;; parse_funcall_loop m b n (args ++ [temp])).
Proof. reflexivity. Qed.

Lemma parse_factor_S n :
  parse_factor m b (S n)
  = (e <- parse_primary m b n ;; parse_factor_loop m b n e).
Proof. reflexivity. Qed.

Lemma parse_factor_loop_S n e :
  parse_factor_loop m b (S n) e
  = (tok <- lexer_peek ;;
     if is_mulop (t tok) then
       op <- parse_binop ;;
       right <- parse_primary m b n ;;
       parse_factor_loop m b n (make_binop e right op)
     else ret e).
Proof. reflexivity. Qed.

Lemma parse_term_S n :
  parse_term m b (S n)
  = (e <- parse_factor m b n ;; parse_term_loop m b n e).
Proof. reflexivity. Qed.

Lemma parse_term_loop_S n e :
  parse_term_loop m b (S n) e
  = (tok <- lexer_peek ;;
     if is_addop (t tok) then
       op <- parse_binop ;;
       right <- parse_factor m b n ;;
       parse_term_loop m b n (make_binop e right op)
     else ret e).
Proof. reflexivity. Qed.

Lemma parse_comp_S n :
  parse_comp m b (S n)
  = (e <- parse_term m b n ;; parse_comp_loop m b n e).
Proof. reflexivity. Qed.

Lemma parse_comp_loop_S n e :
  parse_comp_loop m b (S n) e
  = (tok <- lexer_peek ;;
     if is_compop (t tok) then
       op <- parse_binop ;;
       right <- parse_term m b n ;;
       parse_comp_loop m b n (make_binop e right op)
     else ret e).
Proof. reflexivity. Qed.

End Unfold.

(** ** Expressions: the bound only cuts runs short *)

Lemma fuel_le_refl {A} (r : Outcome A) : fuel_le r r.
Proof. now right. Qed.

Lemma bind_fuel_le {A B} (c c' : M A) (k k' : A -> M B) st :
  fuel_le (c st) (c' st) ->
  (forall a s, fuel_le (k a s) (k' a s)) ->
  fuel_le (bind c k st) (bind c' k' st).
Proof.
  intros [H | H] Hk; unfold bind; rewrite H; [now left|].
  destruct (c' st) as [[a s]| | |]; [apply Hk | now right ..].
Qed.

Ltac fuel_step :=
  first
    [ apply fuel_le_refl
    | apply bind_fuel_le; [|intros ? ?]
    | match goal with
      | |- fuel_le (match ?x with _ => _ end _) _ => destruct x
      | |- fuel_le ((if ?x then _ else _) _) _ => destruct x
      end
    | match goal with H : forall _, _ |- _ => apply H end ].

Section Fuel.

Variable m : Buffer.
Variable b : Z.

Lemma parse_step_mono n : step_mono m b n.
Proof.
  induction n as [|n (H1 & H2 & H3 & H4 & H5 & H6 & H7 & H8 & H9)].
  - repeat split; intros; now left.
  - unfold step_mono. repeat split; intros.
    + rewrite (parse_primary_S m b n), (parse_primary_S m b (S n)).
      repeat fuel_step.
    + rewrite (parse_funcall_S m b n), (parse_funcall_S m b (S n)).
      repeat fuel_step.
    + rewrite (parse_funcall_loop_S m b n), (parse_funcall_loop_S m b (S n)).
      repeat fuel_step.
    + rewrite (parse_factor_S m b n), (parse_factor_S m b (S n)).
      repeat fuel_step.
    + rewrite (parse_factor_loop_S m b n), (parse_factor_loop_S m b (S n)).
      repeat fuel_step.
    + rewrite (parse_term_S m b n), (parse_term_S m b (S n)).
      repeat fuel_step.
    + rewrite (parse_term_loop_S m b n), (parse_term_loop_S m b (S n)).
      repeat fuel_step.
    + rewrite (parse_comp_S m b n), (parse_comp_S m b (S n)).
      repeat fuel_step.
    + rewrite (parse_comp_loop_S m b n), (parse_comp_loop_S m b (S n)).
      repeat fuel_step.
Qed.

End Fuel.

Lemma fuel_le_lift {A} (f : nat -> Outcome A) :
  (forall n, fuel_le (f n) (f (S n))) ->
  forall n k r, f n = Done r -> (n <= k)%nat -> f k = Done r.
Proof.
  intros Hf n k r Hn Hle. induction Hle as [|k Hle IH]; [exact Hn|].
  destruct (Hf k) as [H | H]; congruence.
Qed.

Section Lift.

Variable m : Buffer.
Variable b : Z.

Lemma parse_primary_fuel n k st r :
  parse_primary m b n st = Done r -> (n <= k)%nat ->
  parse_primary m b k st = Done r.
Proof.
  apply (fuel_le_lift (fun n => parse_primary m b n st)).
  intros j. apply (parse_step_mono m b j).
Qed.

Lemma parse_funcall_loop_fuel n k a st r :
  parse_funcall_loop m b n a st = Done r -> (n <= k)%nat ->
  parse_funcall_loop m b k a st = Done r.
Proof.
  apply (fuel_le_lift (fun n => parse_funcall_loop m b n a st)).
  intros j. apply (parse_step_mono m b j).
Qed.

Lemma parse_factor_fuel n k st r :
  parse_factor m b n st = Done r -> (n <= k)%nat ->
  parse_factor m b k st = Done r.
Proof.
  apply (fuel_le_lift (fun n => parse_factor m b n st)).
  intros j. apply (parse_step_mono m b j).
Qed.

Lemma parse_factor_loop_fuel n k e st r :
  parse_factor_loop m b n e st = Done r -> (n <= k)%nat ->
  parse_factor_loop m b k e st = Done r.
Proof.
  apply (fuel_le_lift (fun n => parse_factor_loop m b n e st)).
  intros j. apply (parse_step_mono m b j).
Qed.

Lemma parse_term_fuel n k st r :
  parse_term m b n st = Done r -> (n <= k)%nat ->
  parse_term m b k st = Done r.
Proof.
  apply (fuel_le_lift (fun n => parse_term m b n st)).
  intros j. apply (parse_step_mono m b j).
Qed.

Lemma parse_term_loop_fuel n k e st r :
  parse_term_loop m b n e st = Done r -> (n <= k)%nat ->
  parse_term_loop m b k e st = Done r.
Proof.
  apply (fuel_le_lift (fun n => parse_term_loop m b n e st)).
  intros j. apply (parse_step_mono m b j).
Qed.

Lemma parse_comp_fuel n k st r :
  parse_comp m b n st = Done r -> (n <= k)%nat ->
  parse_comp m b k st = Done r.
Proof.
  apply (fuel_le_lift (fun n => parse_comp m b n st)).
  intros j. apply (parse_step_mono m b j).
Qed.

Lemma parse_comp_loop_fuel n k e st r :
  parse_comp_loop m b n e st = Done r -> (n <= k)%nat ->
  parse_comp_loop m b k e st = Done r.
Proof.
  apply (fuel_le_lift (fun n => parse_comp_loop m b n e st)).
  intros j. apply (parse_step_mono m b j).
Qed.

End Lift.

(** ** Expressions: the parser accepts what the grammar derives *)

Lemma bind_done {A B} (c : M A) (k : A -> M B) st a st' :
  c st = Done (a, st') -> bind c k st = k a st'.
Proof. intros H. unfold bind. now rewrite H. Qed.

Lemma TokKind_beq_neq a b : TokKind_beq a b = false <-> a <> b.
Proof.
  destruct (TokKind_beq a b) eqn:E.
  - apply TokKind_beq_eq in E. split; [discriminate | contradiction].
  - split; [|reflexivity]. intros _ H. apply TokKind_beq_eq in H. congruence.
Qed.

Lemma peek_with_toks st ts : t (peek_token (with_toks st ts)) = peek_kind ts.
Proof. now destruct ts. Qed.

Lemma lexer_next_with_toks st tok rest :
  lexer_next (with_toks st (tok :: rest)) = Done (tok, with_toks st rest).
Proof. reflexivity. Qed.

Lemma lexer_peek_with_toks st ts :
  lexer_peek (with_toks st ts) = Done (peek_token (with_toks st ts), with_toks st ts).
Proof. reflexivity. Qed.

Lemma expect_with_toks st tok rest k msg :
  t tok = k ->
  expect k msg (with_toks st (tok :: rest)) = Done (tok, with_toks st rest).
Proof.
  intros Hk. unfold expect, bind. cbn. rewrite Hk.
  now rewrite (proj2 (TokKind_beq_eq k k) eq_refl).
Qed.

Lemma parse_binop_with_toks st tok rest op :
  binop_of (t tok) = Some op ->
  parse_binop (with_toks st (tok :: rest)) = Done (op, with_toks st rest).
Proof. intros H. unfold parse_binop, bind. cbn. now rewrite H. Qed.

Section Complete.

Variable m : Buffer.
Variable b : Z.

(** Leaving a loop: the next token is not one of its operators. *)
Lemma parse_factor_loop_exit n e st ts :
  is_mulop (peek_kind ts) = false ->
  parse_factor_loop m b (S n) e (with_toks st ts) = Done (e, with_toks st ts).
Proof.
  intros H. rewrite parse_factor_loop_S. unfold bind, lexer_peek.
  now rewrite peek_with_toks, H.
Qed.

Lemma parse_term_loop_exit n e st ts :
  is_addop (peek_kind ts) = false ->
  parse_term_loop m b (S n) e (with_toks st ts) = Done (e, with_toks st ts).
Proof.
  intros H. rewrite parse_term_loop_S. unfold bind, lexer_peek.
  now rewrite peek_with_toks, H.
Qed.

Lemma parse_comp_loop_exit n e st ts :
  is_compop (peek_kind ts) = false ->
  parse_comp_loop m b (S n) e (with_toks st ts) = Done (e, with_toks st ts).
Proof.
  intros H. rewrite parse_comp_loop_S. unfold bind, lexer_peek.
  now rewrite peek_with_toks, H.
Qed.

(** One round of a loop. *)
Lemma parse_factor_loop_round n l st optok ts1 op r0 rest :
  is_mulop (t optok) = true ->
  binop_of (t optok) = Some op ->
  parse_primary m b n (with_toks st ts1) = Done (r0, with_toks st rest) ->
  parse_factor_loop m b (S n) l (with_toks st (optok :: ts1))
  = parse_factor_loop m b n (make_binop l r0 op) (with_toks st rest).
Proof.
  intros Hm Hop Hr. rewrite parse_factor_loop_S.
  unfold bind at 1. unfold lexer_peek. rewrite peek_with_toks. cbn [peek_kind].
  rewrite Hm. rewrite (bind_done _ _ _ _ _ (parse_binop_with_toks st _ _ _ Hop)).
  now rewrite (bind_done _ _ _ _ _ Hr).
Qed.

Lemma parse_term_loop_round n l st optok ts1 op r0 rest :
  is_addop (t optok) = true ->
  binop_of (t optok) = Some op ->
  parse_factor m b n (with_toks st ts1) = Done (r0, with_toks st rest) ->
  parse_term_loop m b (S n) l (with_toks st (optok :: ts1))
  = parse_term_loop m b n (make_binop l r0 op) (with_toks st rest).
Proof.
  intros Hm Hop Hr. rewrite parse_term_loop_S.
  unfold bind at 1. unfold lexer_peek. rewrite peek_with_toks. cbn [peek_kind].
  rewrite Hm. rewrite (bind_done _ _ _ _ _ (parse_binop_with_toks st _ _ _ Hop)).
  now rewrite (bind_done _ _ _ _ _ Hr).
Qed.

Lemma parse_comp_loop_round n l st optok ts1 op r0 rest :
  is_compop (t optok) = true ->
  binop_of (t optok) = Some op ->
  parse_term m b n (with_toks st ts1) = Done (r0, with_toks st rest) ->
  parse_comp_loop m b (S n) l (with_toks st (optok :: ts1))
  = parse_comp_loop m b n (make_binop l r0 op) (with_toks st rest).
Proof.
  intros Hm Hop Hr. rewrite parse_comp_loop_S.
  unfold bind at 1. unfold lexer_peek. rewrite peek_with_toks. cbn [peek_kind].
  rewrite Hm. rewrite (bind_done _ _ _ _ _ (parse_binop_with_toks st _ _ _ Hop)).
  now rewrite (bind_done _ _ _ _ _ Hr).
Qed.

Lemma is_addop_not_mulop k : is_addop k = true -> is_mulop k = false.
Proof. now destruct k. Qed.

Lemma is_compop_not_mulop k : is_compop k = true -> is_mulop k = false.
Proof. now destruct k. Qed.

Lemma is_compop_not_addop k : is_compop k = true -> is_addop k = false.
Proof. now destruct k. Qed.

Lemma grammar_complete :
  (forall ts e rest, G_primary m b ts e rest -> C_primary m b ts e rest) /\
  (forall ts args rest, G_args m b ts args rest -> C_args m b ts args rest) /\
  (forall ts e rest, G_factor m b ts e rest -> C_factor m b ts e rest) /\
  (forall ts e rest, G_term m b ts e rest -> C_term m b ts e rest) /\
  (forall ts e rest, G_comp m b ts e rest -> C_comp m b ts e rest).
Proof.
  apply G_mutual_ind.
  - (* G_int *)
    intros tok rest e Hk He st. exists 1%nat.
    rewrite parse_primary_S.
    rewrite (bind_done _ _ _ _ _ (lexer_next_with_toks st tok rest)).
    rewrite Hk. unfold lift. now rewrite He.
  - (* G_var *)
    intros tok rest Hk Hnext st. exists 1%nat.
    rewrite parse_primary_S.
    rewrite (bind_done _ _ _ _ _ (lexer_next_with_toks st tok rest)).
    rewrite Hk.
    rewrite (bind_done _ _ _ _ _ (lexer_peek_with_toks st rest)).
    rewrite peek_with_toks.
    now rewrite (proj2 (TokKind_beq_neq _ _) Hnext).
  - (* G_call *)
    intros tok lp ts args rp rest Hk Hlp _ IH Hrp st.
    destruct (IH st []) as [n Hn]. exists (S (S n)).
    rewrite parse_primary_S.
    rewrite (bind_done _ _ _ _ _ (lexer_next_with_toks st tok (lp :: ts))).
    rewrite Hk.
    rewrite (bind_done _ _ _ _ _ (lexer_peek_with_toks st (lp :: ts))).
    rewrite peek_with_toks. cbn [peek_kind]. rewrite Hlp. cbn [TokKind_beq].
    rewrite parse_funcall_S.
    rewrite (bind_done _ _ _ _ _ (lexer_next_with_toks st lp ts)).
    rewrite (bind_done _ _ _ _ _ Hn).
    rewrite (bind_done _ _ _ _ _ (expect_with_toks st rp rest _ _ Hrp)).
    reflexivity.
  - (* G_paren *)
    intros lp ts e rp rest Hlp _ IH Hrp st.
    destruct (IH ltac:(cbn; now rewrite Hrp) ltac:(cbn; now rewrite Hrp)
                st 1%nat (e, with_toks st (rp :: rest))) as [n Hn].
    { apply parse_comp_loop_exit. cbn. now rewrite Hrp. }
    exists (S n).
    rewrite parse_primary_S.
    rewrite (bind_done _ _ _ _ _ (lexer_next_with_toks st lp ts)).
    rewrite Hlp.
    rewrite (bind_done _ _ _ _ _ Hn).
    rewrite (bind_done _ _ _ _ _ (expect_with_toks st rp rest _ _ Hrp)).
    reflexivity.
  - (* G_args_nil *)
    intros ts Hk st acc. exists 1%nat.
    rewrite parse_funcall_loop_S.
    rewrite (bind_done _ _ _ _ _ (lexer_peek_with_toks st ts)).
    rewrite peek_with_toks, Hk. cbn [TokKind_beq]. unfold ret.
    now rewrite app_nil_r.
  - (* G_args_last *)
    intros ts e rest Hk _ IH Hrest st acc.
    destruct (IH ltac:(now rewrite Hrest) ltac:(now rewrite Hrest)
                st 1%nat (e, with_toks st rest)) as [n Hn].
    { apply parse_comp_loop_exit. now rewrite Hrest. }
    exists (S n).
    rewrite parse_funcall_loop_S.
    rewrite (bind_done _ _ _ _ _ (lexer_peek_with_toks st ts)).
    rewrite peek_with_toks. rewrite (proj2 (TokKind_beq_neq _ _) Hk).
    rewrite (bind_done _ _ _ _ _ Hn).
    rewrite (bind_done _ _ _ _ _ (lexer_peek_with_toks st rest)).
    rewrite peek_with_toks, Hrest. reflexivity.
  - (* G_args_cons *)
    intros ts e comma ts1 args rest Hk _ IH Hcomma _ IHargs st acc.
    destruct (IH ltac:(cbn; now rewrite Hcomma) ltac:(cbn; now rewrite Hcomma)
                st 1%nat (e, with_toks st (comma :: ts1))) as [n1 Hn1].
    { apply parse_comp_loop_exit. cbn. now rewrite Hcomma. }
    destruct (IHargs st (acc ++ [e])) as [n2 Hn2].
    exists (S (Nat.max n1 n2)).
    rewrite parse_funcall_loop_S.
    rewrite (bind_done _ _ _ _ _ (lexer_peek_with_toks st ts)).
    rewrite peek_with_toks. rewrite (proj2 (TokKind_beq_neq _ _) Hk).
    rewrite (bind_done _ _ _ _ _
               (parse_comp_fuel m b n1 _ _ _ Hn1 (Nat.le_max_l n1 n2))).
    rewrite (bind_done _ _ _ _ _ (lexer_peek_with_toks st (comma :: ts1))).
    rewrite peek_with_toks.
    cbn [peek_kind]. rewrite Hcomma. cbn [TokKind_beq negb].
    rewrite (bind_done _ _ _ _ _ (lexer_next_with_toks st comma ts1)).
    rewrite (parse_funcall_loop_fuel m b n2 _ _ _ _ Hn2 (Nat.le_max_r n1 n2)).
    now rewrite <- app_assoc.
  - (* G_factor_primary *)
    intros ts e rest _ IH st k r Hloop.
    destruct (IH st) as [n Hn]. exists (S (Nat.max n k)).
    rewrite parse_factor_S.
    rewrite (bind_done _ _ _ _ _
               (parse_primary_fuel m b n _ _ _ Hn (Nat.le_max_l n k))).
    exact (parse_factor_loop_fuel m b k _ _ _ _ Hloop (Nat.le_max_r n k)).
  - (* G_factor_binop *)
    intros ts l optok ts1 op r0 rest _ IH Hm Hop _ IHr st k r Hloop.
    destruct (IHr st) as [n Hn].
    apply (IH st (S (Nat.max n k))).
    rewrite (parse_factor_loop_round _ _ _ _ _ _ _ _ Hm Hop
               (parse_primary_fuel m b n _ _ _ Hn (Nat.le_max_l n k))).
    exact (parse_factor_loop_fuel m b k _ _ _ _ Hloop (Nat.le_max_r n k)).
  - (* G_term_factor *)
    intros ts e rest _ IH Hmul st k r Hloop.
    destruct (IH st 1%nat (e, with_toks st rest)) as [n Hn].
    { now apply parse_factor_loop_exit. }
    exists (S (Nat.max n k)).
    rewrite parse_term_S.
    rewrite (bind_done _ _ _ _ _
               (parse_factor_fuel m b n _ _ _ Hn (Nat.le_max_l n k))).
    exact (parse_term_loop_fuel m b k _ _ _ _ Hloop (Nat.le_max_r n k)).
  - (* G_term_binop *)
    intros ts l optok ts1 op r0 rest _ IH Ha Hop _ IHr Hmul st k r Hloop.
    destruct (IHr st 1%nat (r0, with_toks st rest)) as [n Hn].
    { now apply parse_factor_loop_exit. }
    apply (IH (is_addop_not_mulop _ Ha) st (S (Nat.max n k))).
    rewrite (parse_term_loop_round _ _ _ _ _ _ _ _ Ha Hop
               (parse_factor_fuel m b n _ _ _ Hn (Nat.le_max_l n k))).
    exact (parse_term_loop_fuel m b k _ _ _ _ Hloop (Nat.le_max_r n k)).
  - (* G_comp_term *)
    intros ts e rest _ IH Hmul Hadd st k r Hloop.
    destruct (IH Hmul st 1%nat (e, with_toks st rest)) as [n Hn].
    { now apply parse_term_loop_exit. }
    exists (S (Nat.max n k)).
    rewrite parse_comp_S.
    rewrite (bind_done _ _ _ _ _
               (parse_term_fuel m b n _ _ _ Hn (Nat.le_max_l n k))).
    exact (parse_comp_loop_fuel m b k _ _ _ _ Hloop (Nat.le_max_r n k)).
  - (* G_comp_binop *)
    intros ts l optok ts1 op r0 rest _ IH Hc Hop _ IHr Hmul Hadd st k r Hloop.
    destruct (IHr Hmul st 1%nat (r0, with_toks st rest)) as [n Hn].
    { now apply parse_term_loop_exit. }
    apply (IH (is_compop_not_mulop _ Hc) (is_compop_not_addop _ Hc)
             st (S (Nat.max n k))).
    rewrite (parse_comp_loop_round _ _ _ _ _ _ _ _ Hc Hop
               (parse_term_fuel m b n _ _ _ Hn (Nat.le_max_l n k))).
    exact (parse_comp_loop_fuel m b k _ _ _ _ Hloop (Nat.le_max_r n k)).
Qed.

End Complete.

(** ** Expressions: what the parser accepts, the grammar derives *)

Lemma bind_inv {A B} (c : M A) (k : A -> M B) st r :
  bind c k st = Done r ->
  exists a st1, c st = Done (a, st1) /\ k a st1 = Done r.
Proof.
  unfold bind. destruct (c st) as [[a st1]| | |]; try discriminate. eauto.
Qed.

Lemma lexer_next_inv st a st1 :
  lexer_next st = Done (a, st1) ->
  a = peek_token st /\ st1 = with_toks st (tl (toks st)).
Proof. unfold lexer_next. intros [= <- <-]. now split. Qed.

Lemma lexer_peek_inv st a st1 :
  lexer_peek st = Done (a, st1) -> a = peek_token st /\ st1 = st.
Proof. unfold lexer_peek. intros [= <- <-]. now split. Qed.

Lemma ret_inv {A} (a a' : A) st st' :
  ret a st = Done (a', st') -> a' = a /\ st' = st.
Proof. unfold ret. intros [= <- <-]. now split. Qed.

Lemma expect_inv st k msg a st1 :
  expect k msg st = Done (a, st1) ->
  a = peek_token st /\ t a = k /\ st1 = with_toks st (tl (toks st)).
Proof.
  unfold expect. intros H. apply bind_inv in H as (a0 & s0 & Hn & H).
  apply lexer_next_inv in Hn as [-> ->].
  destruct (TokKind_beq (t (peek_token st)) k) eqn:E; [|discriminate].
  apply ret_inv in H as [-> ->]. apply TokKind_beq_eq in E. now repeat split.
Qed.

Lemma parse_binop_inv st op st1 :
  parse_binop st = Done (op, st1) ->
  binop_of (t (peek_token st)) = Some op /\
  st1 = with_toks st (tl (toks st)).
Proof.
  unfold parse_binop. intros H. apply bind_inv in H as (a0 & s0 & Hn & H).
  apply lexer_next_inv in Hn as [-> ->].
  destruct (binop_of (t (peek_token st))) as [op'|]; [|discriminate].
  apply ret_inv in H as [-> ->]. now split.
Qed.

Lemma peek_token_cons st :
  t (peek_token st) <> TOK_EOF -> toks st = peek_token st :: tl (toks st).
Proof.
  unfold peek_token. destruct (toks st) as [|tok rest]; cbn; [congruence|].
  reflexivity.
Qed.

Lemma peek_kind_token st : peek_kind (toks st) = t (peek_token st).
Proof. unfold peek_kind, peek_token. now destruct (toks st). Qed.

Lemma same_env_refl st : same_env st st.
Proof. unfold same_env. now destruct st. Qed.

Lemma same_env_next st ts : same_env st (with_toks st ts).
Proof. reflexivity. Qed.

Lemma same_env_trans st st1 st2 :
  same_env st st1 -> same_env st1 st2 -> same_env st st2.
Proof. unfold same_env. intros H1 H2. rewrite H2 at 1. now rewrite H1. Qed.

Create HintDb env.
#[local] Hint Resolve same_env_refl same_env_next same_env_trans : env.

(** Reading a successful step backwards. *)
Ltac norm_toks := cbn [toks with_toks] in *.
Ltac inv_next H := apply lexer_next_inv in H as [-> ->]; norm_toks.
Ltac inv_peek H := apply lexer_peek_inv in H as [-> ->]; norm_toks.
Ltac inv_ret H := apply ret_inv in H as [-> ->]; norm_toks.
Ltac inv_expect H Hk := apply expect_inv in H as (-> & Hk & ->); norm_toks.
Ltac inv_binop H Hop := apply parse_binop_inv in H as (Hop & ->); norm_toks.

Section Sound.

Variable m : Buffer.
Variable b : Z.

Lemma op_token_cons st op :
  binop_of (t (peek_token st)) = Some op ->
  toks st = peek_token st :: tl (toks st).
Proof.
  intros H. apply peek_token_cons. intros E. rewrite E in H. discriminate.
Qed.

Lemma grammar_sound n : sound m b n.
Proof.
  induction n as [|n (S1 & S2 & S3 & S4 & S5 & S6 & S7 & S8 & S9)].
  - repeat split; intros; discriminate.
  - unfold sound. repeat apply conj.
    + (* parse_primary *)
      intros st e st' H. rewrite parse_primary_S in H.
      apply bind_inv in H as (tk & st1 & Hn & H).
      inv_next Hn.
      destruct (t (peek_token st)) eqn:Hk; try discriminate.
      * (* TOK_INT *)
        unfold lift in H.
        destruct (make_intlit_expr m b FRESH_CELL _ _) as [e0| | |] eqn:He;
          try discriminate.
        cbn [obind] in H. injection H as <- <-.
        split; [|apply same_env_next].
        rewrite (peek_token_cons st) at 1 by congruence.
        now apply G_int.
      * (* TOK_SYM *)
        apply bind_inv in H as (nxt & st1 & Hp & H).
        inv_peek Hp.
        destruct (TokKind_beq _ TOK_LPAREN) eqn:E.
        -- apply TokKind_beq_eq in E.
           apply S2 in H as [HG Henv]; auto.
           norm_toks.
           split; [|eauto with env].
           rewrite (peek_token_cons st) at 1 by congruence. exact HG.
        -- apply TokKind_beq_neq in E.
           inv_ret H.
           split; [|apply same_env_next].
           rewrite (peek_token_cons st) at 1 by congruence.
           apply G_var; [exact Hk|].
           now rewrite <- peek_with_toks with (st := st).
      * (* TOK_LPAREN *)
        apply bind_inv in H as (e0 & st1 & Hc & H).
        apply bind_inv in H as (rp & st2 & Hx & H).
        inv_ret H.
        inv_expect Hx Hrp.
        apply S8 in Hc as (HG & _ & Henv).
        norm_toks.
        split; [|eauto with env].
        rewrite (peek_token_cons st) at 1 by congruence.
        apply G_paren with (rp := peek_token st1); auto.
        rewrite <- (peek_token_cons st1) by congruence. exact HG.
    + (* parse_funcall *)
      intros tk st e st' Htk Hlp H. rewrite parse_funcall_S in H.
      apply bind_inv in H as (lp & st1 & Hn & H).
      inv_next Hn.
      apply bind_inv in H as (args & st2 & Hl & H).
      apply bind_inv in H as (rp & st3 & Hx & H).
      inv_ret H.
      inv_expect Hx Hrp.
      apply S3 in Hl as (Henv & Hargs).
      norm_toks.
      destruct Hargs as (more & -> & HG);
        [now rewrite peek_kind_token|].
      split; [|eauto with env].
      rewrite (peek_token_cons st) at 1 by congruence.
      apply G_call with (rp := peek_token st2); auto.
      rewrite <- (peek_token_cons st2) by congruence. exact HG.
    + (* parse_funcall_loop *)
      intros acc st args st' H. rewrite parse_funcall_loop_S in H.
      apply bind_inv in H as (nxt & st1 & Hp & H).
      inv_peek Hp.
      destruct (TokKind_beq _ TOK_RPAREN) eqn:E.
      * apply TokKind_beq_eq in E. apply ret_inv in H as [-> ->].
        split; [apply same_env_refl|]. intros _. exists [].
        split; [now rewrite app_nil_r|].
        apply G_args_nil. now rewrite peek_kind_token.
      * apply TokKind_beq_neq in E.
        apply bind_inv in H as (temp & st1 & Hc & H).
        apply bind_inv in H as (nxt' & st2 & Hp & H).
        inv_peek Hp.
        apply S8 in Hc as (HG & _ & Henv).
        norm_toks.
        destruct (TokKind_beq _ TOK_COMMA) eqn:E2; cbn [negb] in H.
        -- apply TokKind_beq_eq in E2.
           apply bind_inv in H as (comma & st2 & Hn & H).
           inv_next Hn.
           apply S3 in H as (Henv2 & Hargs).
           norm_toks.
           split; [eauto with env|]. intros Hr.
           destruct (Hargs Hr) as (more & -> & HG2).
           exists (temp :: more). split; [now rewrite <- app_assoc|].
           apply G_args_cons with (comma := peek_token st1)
                                  (ts1 := tl (toks st1)); auto.
           ++ now rewrite peek_kind_token.
           ++ rewrite <- (peek_token_cons st1) by congruence. exact HG.
        -- inv_ret H.
           split; [exact Henv|]. intros Hr. exists [temp]. split; [reflexivity|].
           apply G_args_last; auto. now rewrite peek_kind_token.
    + (* parse_factor *)
      intros st e st' H. rewrite parse_factor_S in H.
      apply bind_inv in H as (e0 & st1 & Hp & H).
      apply S1 in Hp as (HG & Henv).
      norm_toks.
      apply S5 in H as (Henv2 & Hm & Hk).
      norm_toks.
      split; [|split; [exact Hm | eauto with env]].
      apply Hk. now apply G_factor_primary.
    + (* parse_factor_loop *)
      intros l st e st' H. rewrite parse_factor_loop_S in H.
      apply bind_inv in H as (tk & st1 & Hp & H).
      inv_peek Hp.
      destruct (is_mulop _) eqn:E.
      * apply bind_inv in H as (op & st1 & Hb & H).
        inv_binop Hb Hop.
        apply bind_inv in H as (r0 & st2 & Hp & H).
        apply S1 in Hp as (HG & Henv).
        norm_toks.
        apply S5 in H as (Henv2 & Hm & Hk).
        norm_toks.
        split; [eauto with env|]. split; [exact Hm|].
        intros ts0 Hl. apply Hk.
        rewrite (op_token_cons st op Hop) in Hl.
        eapply G_factor_binop; eauto.
      * inv_ret H.
        split; [apply same_env_refl|]. split; [now rewrite peek_kind_token|].
        auto.
    + (* parse_term *)
      intros st e st' H. rewrite parse_term_S in H.
      apply bind_inv in H as (e0 & st1 & Hp & H).
      apply S4 in Hp as (HG & Hm0 & Henv).
      norm_toks.
      apply S7 in H as (Henv2 & Hm & Ha & Hk); [|exact Hm0].
      norm_toks.
      split; [|split; [exact Hm | split; [exact Ha | eauto with env]]].
      apply Hk. now apply G_term_factor.
    + (* parse_term_loop *)
      intros l st e st' H Hmul. rewrite parse_term_loop_S in H.
      apply bind_inv in H as (tk & st1 & Hp & H).
      inv_peek Hp.
      destruct (is_addop _) eqn:E.
      * apply bind_inv in H as (op & st1 & Hb & H).
        inv_binop Hb Hop.
        apply bind_inv in H as (r0 & st2 & Hp & H).
        apply S4 in Hp as (HG & Hm0 & Henv).
        norm_toks.
        apply S7 in H as (Henv2 & Hm & Ha & Hk); [|exact Hm0].
        norm_toks.
        split; [eauto with env|]. split; [exact Hm|]. split; [exact Ha|].
        intros ts0 Hl. apply Hk.
        rewrite (op_token_cons st op Hop) in Hl.
        eapply G_term_binop; eauto.
      * inv_ret H.
        split; [apply same_env_refl|]. split; [exact Hmul|].
        split; [now rewrite peek_kind_token|]. auto.
    + (* parse_comp *)
      intros st e st' H. rewrite parse_comp_S in H.
      apply bind_inv in H as (e0 & st1 & Hp & H).
      apply S6 in Hp as (HG & Hm0 & Ha0 & Henv).
      norm_toks.
      apply S9 in H as (Henv2 & Hb & Hk); [|exact Hm0|exact Ha0].
      norm_toks.
      split; [|split; [exact Hb | eauto with env]].
      apply Hk. now apply G_comp_term.
    + (* parse_comp_loop *)
      intros l st e st' H Hmul Hadd. rewrite parse_comp_loop_S in H.
      apply bind_inv in H as (tk & st1 & Hp & H).
      inv_peek Hp.
      destruct (is_compop _) eqn:E.
      * apply bind_inv in H as (op & st1 & Hb & H).
        inv_binop Hb Hop.
        apply bind_inv in H as (r0 & st2 & Hp & H).
        apply S6 in Hp as (HG & Hm0 & Ha0 & Henv).
        norm_toks.
        apply S9 in H as (Henv2 & Hb & Hk); [|exact Hm0|exact Ha0].
        norm_toks.
        split; [eauto with env|]. split; [exact Hb|].
        intros ts0 Hl. apply Hk.
        rewrite (op_token_cons st op Hop) in Hl.
        eapply G_comp_binop; eauto.
      * inv_ret H.
        split; [apply same_env_refl|].
        split; [|auto].
        unfold is_binop. rewrite Hmul, Hadd. cbn [orb].
        now rewrite peek_kind_token.
Qed.

End Sound.

(** ** Expressions: the parser's tests and the table of precedence *)

(** The token tests of the three loops and the [switch] of [parse_binop]
    sort the operators as the table of the specification does. *)
Lemma operator_level k op l :
  operator k = Some (op, l) <->
  binop_of k = Some op /\
  match l with
  | Comparison => is_compop k
  | Additive => is_addop k
  | Multiplicative => is_mulop k
  end = true.
Proof.
  destruct k; cbn; (split; [intros [= <- <-]; now split|]);
    intros [[= <-] H]; destruct l; cbn in H; congruence.
Qed.

Lemma operator_none k : operator k = None <-> is_binop k = false.
Proof. destruct k; cbn; split; congruence. Qed.

Lemma make_binop_binary l r op : make_binop l r op = binary op l r.
Proof. reflexivity. Qed.

Section Levels.

Variable m : Buffer.
Variable b : Z.

(** What the grammar of the loops derives, the levels derive. *)
Lemma grammar_levels :
  (forall ts e rest, G_primary m b ts e rest -> E_primary m b ts e rest) /\
  (forall ts args rest, G_args m b ts args rest -> E_args m b ts args rest) /\
  (forall ts e rest,
      G_factor m b ts e rest -> E_level m b Multiplicative ts e rest) /\
  (forall ts e rest,
      G_term m b ts e rest -> E_level m b Additive ts e rest) /\
  (forall ts e rest,
      G_comp m b ts e rest -> E_level m b Comparison ts e rest).
Proof.
  apply G_mutual_ind; intros.
  - eapply E_int; eauto.
  - eapply E_var; eauto.
  - eapply E_call; eauto.
  - eapply E_paren; eauto.
  - eapply E_args_nil; eauto.
  - eapply E_args_last; eauto.
  - eapply E_args_cons; eauto.
  - now apply E_tighter, E_operand_multiplicative.
  - rewrite make_binop_binary. eapply E_binary; eauto.
    + apply operator_level. now split.
    + now apply E_operand_multiplicative.
  - now apply E_tighter, E_operand_additive.
  - rewrite make_binop_binary. eapply E_binary; eauto.
    + apply operator_level. now split.
    + now apply E_operand_additive.
  - now apply E_tighter, E_operand_comparison.
  - rewrite make_binop_binary. eapply E_binary; eauto.
    + apply operator_level. now split.
    + now apply E_operand_comparison.
Qed.

(** And conversely. *)
Lemma levels_grammar :
  (forall ts e rest, E_primary m b ts e rest -> G_primary m b ts e rest) /\
  (forall ts args rest, E_args m b ts args rest -> G_args m b ts args rest) /\
  (forall l ts e rest,
      E_operand m b l ts e rest ->
      match l with
      | Comparison => G_term m b ts e rest
      | Additive => G_factor m b ts e rest
      | Multiplicative => G_primary m b ts e rest
      end) /\
  (forall l ts e rest,
      E_level m b l ts e rest ->
      match l with
      | Comparison => G_comp m b ts e rest
      | Additive => G_term m b ts e rest
      | Multiplicative => G_factor m b ts e rest
      end).
Proof.
  apply E_mutual_ind; intros.
  - eapply G_int; eauto.
  - eapply G_var; eauto.
  - eapply G_call; eauto.
  - eapply G_paren; eauto.
  - eapply G_args_nil; eauto.
  - eapply G_args_last; eauto.
  - eapply G_args_cons; eauto.
  - assumption.
  - assumption.
  - assumption.
  - destruct l.
    + now apply G_comp_term.
    + now apply G_term_factor.
    + now apply G_factor_primary.
  - rewrite <- make_binop_binary.
    match goal with
    | H : operator _ = Some _ |- _ => apply operator_level in H as [Hop Hk]
    end.
    destruct l.
    + eapply G_comp_binop; eauto.
    + eapply G_term_binop; eauto.
    + eapply G_factor_binop; eauto.
Qed.

Lemma comparison_level ts e rest :
  E_level m b Comparison ts e rest <-> G_comp m b ts e rest.
Proof.
  split.
  - intros H. now apply (proj2 (proj2 (proj2 levels_grammar))) in H.
  - apply grammar_levels.
Qed.

End Levels.

(** C4.  Every expression [parse_expr] accepts has the tree that the
    levels of the specification derive for its tokens (comparison
    loosest, the additive operators tighter, the multiplicative ones
    tightest, each operator left-associative), and every expression of
    these levels is accepted with that tree, which is unique.  For any
    two operators between three operands, the second operator's node is
    the right operand of the first when it binds tighter than the first,
    and otherwise the first operator's node is the left operand of the
    second.  So [a + b * c] is [a + (b * c)], [a - b - c] is
    [(a - b) - c], [a == b == c] is the ordinary chain [(a == b) == c],
    [a == b + c] is [a == (b + c)] and [a + b == c] is [(a + b) == c]. *)
Theorem parse_expr_precedence (m : Buffer) (b : Z) :
  (forall n st e st',
      parse_expr m b n st = Done (e, st') ->
      E_level m b Comparison (toks st) e (toks st') /\
      operator (peek_kind (toks st')) = None /\
      st' = with_toks st (toks st')) /\
  (forall ts e rest,
      E_level m b Comparison ts e rest ->
      operator (peek_kind rest) = None ->
      forall st, exists n0, forall n,
        (n0 <= n)%nat ->
        parse_expr m b n (with_toks st ts) = Done (e, with_toks st rest)) /\
  (forall ts e1 e2 rest,
      E_level m b Comparison ts e1 rest ->
      E_level m b Comparison ts e2 rest ->
      operator (peek_kind rest) = None -> e1 = e2) /\
  (forall k1 k2 op1 op2 l1 l2 pa pb pc p1 p2 st,
      operator k1 = Some (op1, l1) ->
      operator k2 = Some (op2, l2) ->
      let a := EXPR_VAR pa in
      let b' := EXPR_VAR pb in
      let c := EXPR_VAR pc in
      parse_expr m b 12
        (with_toks st [tok_at TOK_SYM pa; tok_at k1 p1; tok_at TOK_SYM pb;
                       tok_at k2 p2; tok_at TOK_SYM pc])
      = Done (if binds_tighter l2 l1
              then EXPR_BINOP (combine_pos pa (combine_pos pb pc)) op1
                     a (EXPR_BINOP (combine_pos pb pc) op2 b' c)
              else EXPR_BINOP (combine_pos (combine_pos pa pb) pc) op2
                     (EXPR_BINOP (combine_pos pa pb) op1 a b') c,
              with_toks st [])) /\
  (forall pa pb pc p1 p2 st,
      let a := EXPR_VAR pa in
      let b' := EXPR_VAR pb in
      let c := EXPR_VAR pc in
      parse_expr m b 12
        (with_toks st [tok_at TOK_SYM pa; tok_at TOK_ADD p1; tok_at TOK_SYM pb;
                       tok_at TOK_MUL p2; tok_at TOK_SYM pc])
      = Done (EXPR_BINOP (combine_pos pa (combine_pos pb pc)) BINOP_ADD
                a (EXPR_BINOP (combine_pos pb pc) BINOP_MUL b' c),
              with_toks st []) /\
      parse_expr m b 12
        (with_toks st [tok_at TOK_SYM pa; tok_at TOK_SUB p1; tok_at TOK_SYM pb;
                       tok_at TOK_SUB p2; tok_at TOK_SYM pc])
      = Done (EXPR_BINOP (combine_pos (combine_pos pa pb) pc) BINOP_SUB
                (EXPR_BINOP (combine_pos pa pb) BINOP_SUB a b') c,
              with_toks st []) /\
      parse_expr m b 12
        (with_toks st [tok_at TOK_SYM pa; tok_at TOK_DEQ p1; tok_at TOK_SYM pb;
                       tok_at TOK_DEQ p2; tok_at TOK_SYM pc])
      = Done (EXPR_BINOP (combine_pos (combine_pos pa pb) pc) BINOP_EQ
                (EXPR_BINOP (combine_pos pa pb) BINOP_EQ a b') c,
              with_toks st []) /\
      parse_expr m b 12
        (with_toks st [tok_at TOK_SYM pa; tok_at TOK_DEQ p1; tok_at TOK_SYM pb;
                       tok_at TOK_ADD p2; tok_at TOK_SYM pc])
      = Done (EXPR_BINOP (combine_pos pa (combine_pos pb pc)) BINOP_EQ
                a (EXPR_BINOP (combine_pos pb pc) BINOP_ADD b' c),
              with_toks st []) /\
      parse_expr m b 12
        (with_toks st [tok_at TOK_SYM pa; tok_at TOK_ADD p1; tok_at TOK_SYM pb;
                       tok_at TOK_DEQ p2; tok_at TOK_SYM pc])
      = Done (EXPR_BINOP (combine_pos (combine_pos pa pb) pc) BINOP_EQ
                (EXPR_BINOP (combine_pos pa pb) BINOP_ADD a b') c,
              with_toks st [])).
Proof.
  assert (Hcomplete : forall ts e rest,
      E_level m b Comparison ts e rest ->
      operator (peek_kind rest) = None ->
      forall st, exists n0, forall n,
        (n0 <= n)%nat ->
        parse_expr m b n (with_toks st ts) = Done (e, with_toks st rest)).
  { intros ts e rest HE Hb st.
    apply comparison_level in HE. apply operator_none in Hb.
    unfold is_binop in Hb. apply orb_false_iff in Hb as [Hb Hc].
    apply orb_false_iff in Hb as [Hm Ha].
    destruct (grammar_complete m b) as (_ & _ & _ & _ & C5).
    destruct (C5 ts e rest HE Hm Ha st 1%nat (e, with_toks st rest))
      as [n0 Hn0].
    { now apply parse_comp_loop_exit. }
    exists n0. intros n Hn. unfold parse_expr.
    now apply (parse_comp_fuel m b n0). }
  split; [|split; [exact Hcomplete|split; [|split]]].
  - intros n st e st' H. unfold parse_expr in H.
    destruct (grammar_sound m b n) as (_ & _ & _ & _ & _ & _ & _ & S8 & _).
    apply S8 in H as (HG & Hb & Henv).
    split; [now apply comparison_level|].
    split; [now apply operator_none|auto].
  - intros ts e1 e2 rest H1 H2 Hb.
    destruct (Hcomplete ts e1 rest H1 Hb (initial_state [] eof0)) as [n1 Hn1].
    destruct (Hcomplete ts e2 rest H2 Hb (initial_state [] eof0)) as [n2 Hn2].
    specialize (Hn1 (Nat.max n1 n2) (Nat.le_max_l n1 n2)).
    specialize (Hn2 (Nat.max n1 n2) (Nat.le_max_r n1 n2)).
    congruence.
  - intros k1 k2 op1 op2 l1 l2 pa pb pc p1 p2 st H1 H2.
    destruct k1; cbn in H1; try discriminate H1; injection H1 as <- <-;
      destruct k2; cbn in H2; try discriminate H2; injection H2 as <- <-;
      reflexivity.
  - intros pa pb pc p1 p2 st. repeat split.
Qed.

(** * Further properties *)

Import Heap HeapInputs Arena Runs.

(** * Vectors in memory *)

(** ** Bytes in memory *)

Lemma mem_read_length mem p n : List.length (mem_read mem p n) = Z.to_nat n.
Proof. unfold mem_read. now rewrite length_map, length_seq. Qed.

Lemma mem_read_nth mem p n k :
  (k < Z.to_nat n)%nat ->
  nth k (mem_read mem p n) 0 = mem (p + Z.of_nat k).
Proof.
  intros Hk. unfold mem_read.
  pose proof (map_nth (fun k => mem (p + Z.of_nat k)) (seq 0 (Z.to_nat n))
                0%nat k) as H.
  cbv beta in H.
  rewrite (nth_indep _ 0 (mem (p + Z.of_nat 0)))
    by (now rewrite length_map, length_seq).
  rewrite H, seq_nth by exact Hk. reflexivity.
Qed.

Lemma mem_read_ext m1 m2 p q n :
  (forall k, 0 <= k < n -> m1 (p + k) = m2 (q + k)) ->
  mem_read m1 p n = mem_read m2 q n.
Proof.
  intros H. unfold mem_read. apply map_ext_in. intros k Hk.
  apply in_seq in Hk. apply H. lia.
Qed.

Lemma mem_write_in mem p bytes a :
  p <= a < p + Z.of_nat (List.length bytes) ->
  mem_write mem p bytes a = nth (Z.to_nat (a - p)) bytes 0.
Proof.
  intros [H1 H2]. unfold mem_write.
  apply Z.leb_le in H1. apply Z.ltb_lt in H2. now rewrite H1, H2.
Qed.

Lemma mem_write_out mem p bytes a :
  a < p \/ p + Z.of_nat (List.length bytes) <= a ->
  mem_write mem p bytes a = mem a.
Proof.
  intros H. unfold mem_write.
  destruct (p <=? a) eqn:E1; [|reflexivity].
  destruct (a <? p + Z.of_nat (List.length bytes)) eqn:E2; [|reflexivity].
  apply Z.leb_le in E1. apply Z.ltb_lt in E2. lia.
Qed.

(** Reading back what was stored. *)
Lemma mem_read_write mem p bytes :
  mem_read (mem_write mem p bytes) p (Z.of_nat (List.length bytes)) = bytes.
Proof.
  apply (nth_ext _ _ 0 0).
  - now rewrite mem_read_length, Nat2Z.id.
  - intros k Hk. rewrite mem_read_length, Nat2Z.id in Hk.
    rewrite mem_read_nth by (now rewrite Nat2Z.id).
    rewrite mem_write_in by lia.
    f_equal. lia.
Qed.

Lemma accessible_spec pool p n :
  accessible pool p n = true <->
  base pool <= p /\ p + n <= base pool + alloc pool.
Proof.
  unfold accessible. rewrite andb_true_iff, Z.leb_le, Z.leb_le. tauto.
Qed.

Lemma memmove_done pool mem dst src n :
  base pool <= dst -> dst + n <= base pool + alloc pool ->
  base pool <= src -> src + n <= base pool + alloc pool ->
  memmove pool mem dst src n = Done (mem_write mem dst (mem_read mem src n)).
Proof.
  intros. unfold memmove.
  now rewrite (proj2 (accessible_spec pool dst n)),
              (proj2 (accessible_spec pool src n)).
Qed.

Lemma copy_in_done pool mem dst n item :
  base pool <= dst -> dst + n <= base pool + alloc pool ->
  n <= Z.of_nat (List.length item) ->
  copy_in pool mem dst n item
  = Done (mem_write mem dst (firstn (Z.to_nat n) item)).
Proof.
  intros H1 H2 H3. unfold copy_in.
  rewrite (proj2 (accessible_spec pool dst n)) by auto.
  now rewrite (proj2 (Z.leb_le _ _) H3).
Qed.

(** ** Vectors in memory *)

(** Slots: item [j] of size [s] starts [j * s] bytes into the storage. *)
Lemma mul_bounds a b s : 0 <= a <= b -> 0 <= s -> 0 <= a * s <= b * s.
Proof. intros. nia. Qed.

(** Byte [k] of slot [j] lies below slot [i] when [j < i]. *)
Lemma slot_below j i s k :
  0 <= j < i -> 0 <= k < s -> 0 <= j * s + k /\ j * s + k < i * s.
Proof. intros. nia. Qed.

Lemma slot_le j i s : j <= i -> 0 <= s -> j * s <= i * s.
Proof. intros. nia. Qed.

(** The sizes of a vector in use are far from wrapping around. *)
Lemma vec_wf_bounds vec pool :
  vec_wf vec pool ->
  valloc vec * it_sz vec < POOL_MAX_SZ /\
  valloc vec < POOL_MAX_SZ /\ it_sz vec < POOL_MAX_SZ /\
  0 <= items vec * it_sz vec <= valloc vec * it_sz vec.
Proof.
  intros ([[Hs0 Hs] Ha] & Hsz & [Hi0 Hi] & Hv & Hb & Hd).
  assert (H : valloc vec * it_sz vec < POOL_MAX_SZ) by lia.
  pose proof (mul_bounds (items vec) (valloc vec) (it_sz vec)
                ltac:(lia) ltac:(lia)).
  pose proof (mul_bounds 1 (valloc vec) (it_sz vec) ltac:(lia) ltac:(lia)).
  pose proof (mul_bounds 1 (it_sz vec) (valloc vec) ltac:(lia) ltac:(lia)).
  repeat split; lia.
Qed.

Lemma grow_if_full_spec vec pool mem :
  vec_wf vec pool ->
  (grow_if_full vec pool mem = Abort OOM /\ items vec = valloc vec) \/
  exists vec1 pool1 mem1,
    grow_if_full vec pool mem = Done (vec1, pool1, mem1) /\
    vec_wf vec1 pool1 /\
    it_sz vec1 = it_sz vec /\ items vec1 = items vec /\
    items vec1 < valloc vec1 /\
    base pool1 = base pool /\ size pool <= size pool1 /\
    (forall j, 0 <= j < items vec -> item_at vec1 mem1 j = item_at vec mem j) /\
    (forall a, ~ in_storage vec1 a -> mem1 a = mem a) /\
    (items vec < valloc vec -> vec1 = vec /\ pool1 = pool /\ mem1 = mem).
Proof.
  intros Hwf.
  pose proof (vec_wf_bounds vec pool Hwf) as (Hb1 & Hb2 & Hb3 & Hb4).
  destruct Hwf as (Hok & Hsz & [Hi0 Hi] & Hv & Hb & Hd).
  pose proof Hok as [[Hs0 Hs] Ha].
  unfold POOL_MAX_SZ in *.
  unfold grow_if_full.
  rewrite (wrap64_small (items vec + 1))
    by (unfold in_size_t, SIZE_MOD; lia).
  destruct (items vec + 1 >? valloc vec) eqn:E.
  - (* the vector is full *)
    rewrite Z.gtb_ltb in E. apply Z.ltb_lt in E.
    assert (Hfull : items vec = valloc vec) by lia.
    unfold vector_resize, Helper.vector_resize.
    rewrite (wrap64_small (valloc vec * it_sz vec))
      by (unfold in_size_t, SIZE_MOD; lia).
    rewrite (wrap64_small (valloc vec * it_sz vec * 2))
      by (unfold in_size_t, SIZE_MOD; lia).
    destruct (mempool_alloc_step pool (valloc vec * it_sz vec * 2) Hok)
      as [-> | (pool1 & calls & -> & Hok1 & Hbase & Hsize & Halloc & _)].
    { unfold request_ok, MAX_REQUEST, SIZE_MOD, POOL_MAX_SZ, POOL_CHUNK_SZ.
      lia. }
    { left. split; [reflexivity | exact Hfull]. }
    right. cbn [obind data].
    rewrite (wrap64_small (items vec * it_sz vec))
      by (unfold in_size_t, SIZE_MOD; lia).
    rewrite (wrap64_small (valloc vec * 2))
      by (unfold in_size_t, SIZE_MOD; lia).
    destruct Hok1 as [[Hs10 Hs1] Ha1].
    unfold memcpy.
    replace ((base pool + size pool + items vec * it_sz vec
              <=? data vec)
             || (data vec + items vec * it_sz vec <=? base pool + size pool))
      with true
      by (symmetry; apply orb_true_iff; right; apply Z.leb_le; lia).
    rewrite memmove_done by lia.
    cbn [obind]. eexists _, _, _. split; [reflexivity|].
    assert (Hlen : Z.of_nat (List.length
                     (mem_read mem (data vec) (items vec * it_sz vec)))
                   = items vec * it_sz vec)
      by (rewrite mem_read_length; lia).
    split.
    { unfold vec_wf, pool_ok. cbn [it_sz items valloc data].
      repeat split; lia. }
    cbn [it_sz items valloc data].
    split; [reflexivity|]. split; [reflexivity|]. split; [lia|].
    split; [exact Hbase|]. split; [lia|].
    split; [|split].
    + intros j Hj. unfold item_at. cbn [it_sz items valloc data].
      apply mem_read_ext. intros k Hk.
      pose proof (slot_below j (items vec) (it_sz vec) k Hj Hk).
      rewrite mem_write_in by (rewrite Hlen; lia).
      rewrite mem_read_nth by lia.
      f_equal. lia.
    + intros a Ha'. unfold in_storage in Ha'.
      cbn [it_sz items valloc data] in Ha'.
      apply mem_write_out. rewrite Hlen. lia.
    + intros Hlt. lia.
  - right. rewrite Z.gtb_ltb in E. apply Z.ltb_ge in E.
    exists vec, pool, mem. split; [reflexivity|].
    unfold vec_wf. repeat split; auto; lia.
Qed.

(** One [vector_push], item by item. *)
Lemma vector_push_run vec pool mem item :
  vec_wf vec pool ->
  it_sz vec <= Z.of_nat (List.length item) ->
  (vector_push vec pool mem item = Abort OOM /\ items vec = valloc vec) \/
  exists vec' pool' mem',
    vector_push vec pool mem item = Done (vec', pool', mem') /\
    vec_wf vec' pool' /\
    base pool' = base pool /\
    it_sz vec' = it_sz vec /\
    items vec' = items vec + 1 /\
    item_at vec' mem' (items vec) = stored vec item /\
    (forall j, 0 <= j < items vec -> item_at vec' mem' j = item_at vec mem j) /\
    (forall a, ~ in_storage vec' a -> mem' a = mem a) /\
    (items vec < valloc vec ->
     vec' = with_items vec (items vec + 1) /\ pool' = pool).
Proof.
  intros Hwf Hitem. unfold vector_push.
  destruct (grow_if_full_spec vec pool mem Hwf)
    as [[-> Hfull] | (vec1 & pool1 & mem1 & -> & Hwf1 & Hsz & Hit & Hroom
                      & Hbase & Hsize & Hkeep & Hframe & Hsame)];
    [left; split; [reflexivity | exact Hfull] | right].
  cbn [obind].
  pose proof (vec_wf_bounds vec1 pool1 Hwf1) as (Hb1 & Hb2 & Hb3 & Hb4).
  destruct Hwf1 as (Hok & Hsz1 & [Hi0 Hi] & Hv & Hb & Hd).
  pose proof Hok as [[Hs0 Hs] Ha]. unfold POOL_MAX_SZ in *.
  pose proof (slot_le (items vec1 + 1) (valloc vec1) (it_sz vec1)
                ltac:(lia) ltac:(lia)) as Hslot.
  rewrite (wrap64_small (items vec1 * it_sz vec1))
    by (unfold in_size_t, SIZE_MOD; lia).
  rewrite (wrap64_small (items vec1 + 1))
    by (unfold in_size_t, SIZE_MOD; lia).
  rewrite copy_in_done by lia.
  cbn [obind]. eexists _, _, _. split; [reflexivity|].
  assert (Hlen : Z.of_nat (List.length (firstn (Z.to_nat (it_sz vec1)) item))
                 = it_sz vec1) by (rewrite length_firstn; lia).
  split; [|split; [exact Hbase|]].
  - unfold vec_wf, with_items. cbn [it_sz items valloc data].
    repeat split; auto; lia.
  - split; [exact Hsz|]. split; [cbn [with_items items]; lia|].
    split; [|split; [|split]].
    + unfold stored. rewrite <- Hit, <- Hsz. unfold item_at, with_items.
      cbn [it_sz items valloc data].
      pose proof (mem_read_write mem1 (data vec1 + items vec1 * it_sz vec1)
                    (firstn (Z.to_nat (it_sz vec1)) item)) as Hrw.
      rewrite Hlen in Hrw. exact Hrw.
    + intros j Hj. rewrite <- Hkeep by exact Hj.
      unfold item_at, with_items. cbn [it_sz items valloc data].
      apply mem_read_ext. intros k Hk.
      pose proof (slot_below j (items vec1) (it_sz vec1) k ltac:(lia) Hk).
      apply mem_write_out. rewrite Hlen. lia.
    + intros a Ha'. unfold in_storage, with_items in Ha'.
      cbn [it_sz items valloc data] in Ha'.
      rewrite mem_write_out by (rewrite Hlen; lia).
      apply Hframe. unfold in_storage. exact Ha'.
    + intros Hlt. destruct (Hsame Hlt) as (-> & -> & _). now split.
Qed.

Lemma vector_pushes_spec xs : forall vec pool mem,
  vec_wf vec pool ->
  Forall (fun x => it_sz vec <= Z.of_nat (List.length x)) xs ->
  vector_pushes vec pool mem xs = Abort OOM \/
  exists vec' pool' mem',
    vector_pushes vec pool mem xs = Done (vec', pool', mem') /\
    vec_wf vec' pool' /\
    base pool' = base pool /\
    it_sz vec' = it_sz vec /\
    items vec' = items vec + Z.of_nat (List.length xs) /\
    (forall j, 0 <= j < items vec -> item_at vec' mem' j = item_at vec mem j) /\
    (forall k, (k < List.length xs)%nat ->
       item_at vec' mem' (items vec + Z.of_nat k)
       = stored vec (nth k xs [])).
Proof.
  induction xs as [|x xs IH]; intros vec pool mem Hwf Hxs.
  - right. exists vec, pool, mem. cbn [vector_pushes List.length].
    split; [reflexivity|]. split; [exact Hwf|]. split; [reflexivity|].
    split; [reflexivity|].
    split; [lia|]. split; [auto|]. intros k Hk. lia.
  - inversion Hxs as [|? ? Hx Hrest]; subst.
    cbn [vector_pushes].
    destruct (vector_push_run vec pool mem x Hwf Hx)
      as [[-> _] | (vec1 & pool1 & mem1 & -> & Hwf1 & Hbase1 & Hsz & Hit & Hnew
                & Hkeep & _)]; [now left|].
    cbn [obind].
    rewrite <- Hsz in Hrest.
    destruct (IH vec1 pool1 mem1 Hwf1 Hrest)
      as [-> | (vec2 & pool2 & mem2 & -> & Hwf2 & Hbase2 & Hsz2 & Hit2
                & Hkeep2 & Hnew2)]; [now left|right].
    destruct Hwf as (_ & _ & [Hi0 _] & _).
    exists vec2, pool2, mem2. split; [reflexivity|].
    split; [exact Hwf2|]. split; [congruence|]. split; [congruence|].
    split; [cbn [List.length]; lia|]. split.
    + intros j Hj. rewrite Hkeep2 by lia. now apply Hkeep.
    + intros [|k] Hk; cbn [nth].
      * rewrite Z.add_0_r, Hkeep2 by lia. exact Hnew.
      * cbn [List.length] in Hk.
        replace (items vec + Z.of_nat (S k))
          with (items vec1 + Z.of_nat k) by lia.
        rewrite Hnew2 by lia. unfold stored. now rewrite Hsz.
Qed.

Lemma vector_init_wf sz_item pool :
  pool_ok pool ->
  0 < sz_item ->
  sz_item * VEC_INIT_ALLOC <= MAX_REQUEST ->
  vector_init sz_item pool = Abort OOM \/
  exists vec pool',
    vector_init sz_item pool = Done (vec, pool') /\
    vec_wf vec pool' /\
    it_sz vec = sz_item /\ items vec = 0 /\ valloc vec = VEC_INIT_ALLOC /\
    data vec = base pool + size pool /\ base pool' = base pool.
Proof.
  intros Hok Hsz Hreq. unfold vector_init.
  assert (Hr : request_ok (sz_item * VEC_INIT_ALLOC))
    by (unfold request_ok, VEC_INIT_ALLOC in *; lia).
  rewrite (wrap64_small (sz_item * VEC_INIT_ALLOC)).
  2:{ unfold in_size_t, request_ok, MAX_REQUEST, SIZE_MOD, POOL_MAX_SZ,
        POOL_CHUNK_SZ, VEC_INIT_ALLOC in *. lia. }
  destruct (mempool_alloc_step pool _ Hok Hr)
    as [-> | (pool1 & calls & -> & Hok1 & Hbase & Hsize & Halloc & _)];
    [now left|right].
  cbn [obind]. eexists _, _. split; [reflexivity|].
  pose proof Hok as [[Hs0 Hs] Ha].
  unfold vec_wf, VEC_INIT_ALLOC in *. cbn [it_sz items valloc data].
  destruct Hok1 as [[Hs10 Hs1] Ha1].
  repeat split; auto; lia.
Qed.

(** ** The items as a list *)

Lemma contents_length vec mem :
  List.length (contents vec mem) = Z.to_nat (items vec).
Proof. unfold contents. now rewrite length_map, length_seq. Qed.

Lemma contents_nth vec mem k :
  (k < Z.to_nat (items vec))%nat ->
  nth k (contents vec mem) [] = item_at vec mem (Z.of_nat k).
Proof.
  intros Hk. unfold contents.
  rewrite (nth_indep _ [] (item_at vec mem (Z.of_nat 0)))
    by (now rewrite length_map, length_seq).
  pose proof (map_nth (fun j => item_at vec mem (Z.of_nat j))
                (seq 0 (Z.to_nat (items vec))) 0%nat k) as H.
  cbv beta in H. rewrite H, seq_nth by exact Hk. reflexivity.
Qed.

Lemma contents_eq vec mem l :
  List.length l = Z.to_nat (items vec) ->
  (forall k, (k < List.length l)%nat ->
     item_at vec mem (Z.of_nat k) = nth k l []) ->
  contents vec mem = l.
Proof.
  intros Hlen H. apply (nth_ext _ _ [] []).
  - now rewrite contents_length.
  - intros k Hk. rewrite contents_length in Hk.
    rewrite contents_nth by exact Hk. apply H. lia.
Qed.

(** One [vector_insert], item by item. *)
Lemma vector_insert_run vec pool mem idx item :
  vec_wf vec pool ->
  0 <= idx <= items vec ->
  it_sz vec <= Z.of_nat (List.length item) ->
  (vector_insert vec pool mem idx item = Abort OOM /\
   items vec = valloc vec) \/
  exists vec' pool' mem',
    vector_insert vec pool mem idx item = Done (vec', pool', mem') /\
    vec_wf vec' pool' /\
    it_sz vec' = it_sz vec /\
    items vec' = items vec + 1 /\
    (forall j, 0 <= j < idx -> item_at vec' mem' j = item_at vec mem j) /\
    item_at vec' mem' idx = stored vec item /\
    (forall j, idx < j <= items vec ->
       item_at vec' mem' j = item_at vec mem (j - 1)) /\
    (forall a, ~ in_storage vec' a -> mem' a = mem a) /\
    (items vec < valloc vec ->
     vec' = with_items vec (items vec + 1) /\ pool' = pool).
Proof.
  intros Hwf Hidx Hitem. unfold vector_insert.
  destruct (grow_if_full_spec vec pool mem Hwf)
    as [[-> Hfull] | (vec1 & pool1 & mem1 & -> & Hwf1 & Hsz & Hit & Hroom
                      & Hbase & Hsize & Hkeep & Hframe & Hsame)];
    [left; split; [reflexivity | exact Hfull] | right].
  cbn [obind].
  pose proof (vec_wf_bounds vec1 pool1 Hwf1) as (Hb1 & Hb2 & Hb3 & Hb4).
  destruct Hwf1 as (Hok & Hsz1 & [Hi0 Hi] & Hv & Hb & Hd).
  pose proof Hok as [[Hs0 Hs] Ha]. unfold POOL_MAX_SZ in *.
  pose proof (mul_bounds idx (items vec1) (it_sz vec1) ltac:(lia) ltac:(lia))
    as Hm1.
  pose proof (slot_le (items vec1 + 1) (valloc vec1) (it_sz vec1)
                ltac:(lia) ltac:(lia)) as Hm2.
  rewrite (wrap64_small (idx + 1)) by (unfold in_size_t, SIZE_MOD; lia).
  rewrite (wrap64_small ((idx + 1) * it_sz vec1))
    by (unfold in_size_t, SIZE_MOD; lia).
  rewrite (wrap64_small (idx * it_sz vec1))
    by (unfold in_size_t, SIZE_MOD; lia).
  rewrite (wrap64_small (items vec1 - idx))
    by (unfold in_size_t, SIZE_MOD; lia).
  rewrite (wrap64_small ((items vec1 - idx) * it_sz vec1))
    by (unfold in_size_t, SIZE_MOD; lia).
  rewrite (wrap64_small (items vec1 + 1))
    by (unfold in_size_t, SIZE_MOD; lia).
  rewrite memmove_done by lia. cbn [obind].
  rewrite copy_in_done by lia. cbn [obind].
  eexists _, _, _. split; [reflexivity|].
  set (src := data vec1 + idx * it_sz vec1).
  set (dst := data vec1 + (idx + 1) * it_sz vec1).
  set (n := (items vec1 - idx) * it_sz vec1).
  assert (Hlen : Z.of_nat (List.length (firstn (Z.to_nat (it_sz vec1)) item))
                 = it_sz vec1) by (rewrite length_firstn; lia).
  assert (Hlen2 : Z.of_nat (List.length (mem_read mem1 src n)) = n)
    by (rewrite mem_read_length; subst n; lia).
  split.
  { unfold vec_wf, with_items. cbn [it_sz items valloc data].
    repeat split; auto; lia. }
  split; [exact Hsz|]. split; [cbn [with_items items]; lia|].
  split; [|split; [|split; [|split]]].
  - intros j Hj. rewrite <- Hkeep by lia.
    unfold item_at, with_items. cbn [it_sz items valloc data].
    apply mem_read_ext. intros k Hk.
    pose proof (slot_below j idx (it_sz vec1) k ltac:(lia) Hk).
    rewrite mem_write_out by (rewrite Hlen; subst src; lia).
    apply mem_write_out. rewrite Hlen2. subst dst. lia.
  - unfold stored. rewrite <- Hsz.
    unfold item_at, with_items. cbn [it_sz items valloc data].
    pose proof (mem_read_write (mem_write mem1 dst (mem_read mem1 src n)) src
                  (firstn (Z.to_nat (it_sz vec1)) item)) as Hrw.
    rewrite Hlen in Hrw. exact Hrw.
  - intros j Hj. rewrite <- Hkeep by lia.
    unfold item_at, with_items. cbn [it_sz items valloc data].
    apply mem_read_ext. intros k Hk.
    pose proof (slot_below j (items vec1 + 1) (it_sz vec1) k ltac:(lia) Hk).
    pose proof (slot_le (idx + 1) j (it_sz vec1) ltac:(lia) ltac:(lia)).
    rewrite mem_write_out by (rewrite Hlen; subst src; lia).
    rewrite mem_write_in by (rewrite Hlen2; subst dst n; lia).
    rewrite mem_read_nth by (subst dst n; lia).
    f_equal. subst src dst. lia.
  - intros a Ha'. unfold in_storage, with_items in Ha'.
    cbn [it_sz items valloc data] in Ha'.
    pose proof (slot_le idx (valloc vec1) (it_sz vec1) ltac:(lia) ltac:(lia)).
    pose proof (slot_le (items vec1 + 1) (valloc vec1) (it_sz vec1)
                  ltac:(lia) ltac:(lia)).
    rewrite mem_write_out by (rewrite Hlen; subst src; lia).
    rewrite mem_write_out by (rewrite Hlen2; subst dst n; lia).
    apply Hframe. unfold in_storage. exact Ha'.
  - intros Hlt. destruct (Hsame Hlt) as (-> & -> & _). now split.
Qed.

(** One [vector_remove], item by item.  The move reads as many items
    as lie from [idx] on, starting one item further: it reads the slot
    after the last item. *)
Lemma vector_remove_run vec pool mem idx :
  vec_wf vec pool ->
  0 <= idx < items vec ->
  data vec + (items vec + 1) * it_sz vec <= base pool + alloc pool ->
  exists mem',
    vector_remove vec pool mem idx
    = Done (with_items vec (items vec - 1), mem') /\
    vec_wf (with_items vec (items vec - 1)) pool /\
    (forall j, 0 <= j < idx ->
       item_at vec mem' j = item_at vec mem j) /\
    (forall j, idx <= j < items vec - 1 ->
       item_at vec mem' j = item_at vec mem (j + 1)) /\
    (forall a, a < data vec + idx * it_sz vec \/
               data vec + items vec * it_sz vec <= a ->
       mem' a = mem a).
Proof.
  intros Hwf Hidx Hacc. unfold vector_remove.
  pose proof (vec_wf_bounds vec pool Hwf) as (Hb1 & Hb2 & Hb3 & Hb4).
  destruct Hwf as (Hok & Hsz1 & [Hi0 Hi] & Hv & Hb & Hd).
  pose proof Hok as [[Hs0 Hs] Ha]. unfold POOL_MAX_SZ in *.
  pose proof (mul_bounds idx (items vec) (it_sz vec) ltac:(lia) ltac:(lia))
    as Hm1.
  rewrite (wrap64_small (idx + 1)) by (unfold in_size_t, SIZE_MOD; lia).
  rewrite (wrap64_small ((idx + 1) * it_sz vec))
    by (unfold in_size_t, SIZE_MOD; lia).
  rewrite (wrap64_small (idx * it_sz vec))
    by (unfold in_size_t, SIZE_MOD; lia).
  rewrite (wrap64_small (items vec - idx))
    by (unfold in_size_t, SIZE_MOD; lia).
  rewrite (wrap64_small ((items vec - idx) * it_sz vec))
    by (unfold in_size_t, SIZE_MOD; lia).
  rewrite (wrap64_small (items vec - 1))
    by (unfold in_size_t, SIZE_MOD; lia).
  rewrite memmove_done by lia. cbn [obind].
  eexists. split; [reflexivity|].
  set (dst := data vec + idx * it_sz vec).
  set (src := data vec + (idx + 1) * it_sz vec).
  set (n := (items vec - idx) * it_sz vec).
  assert (Hlen2 : Z.of_nat (List.length (mem_read mem src n)) = n)
    by (rewrite mem_read_length; subst n; lia).
  split.
  { unfold vec_wf, with_items. cbn [it_sz items valloc data].
    repeat split; auto; lia. }
  unfold item_at. split; [|split].
  - intros j Hj. apply mem_read_ext. intros k Hk.
    pose proof (slot_below j idx (it_sz vec) k ltac:(lia) Hk).
    apply mem_write_out. rewrite Hlen2. subst dst. lia.
  - intros j Hj. apply mem_read_ext. intros k Hk.
    pose proof (slot_below j (items vec) (it_sz vec) k ltac:(lia) Hk).
    pose proof (slot_le idx j (it_sz vec) ltac:(lia) ltac:(lia)).
    rewrite mem_write_in by (rewrite Hlen2; subst dst n; lia).
    rewrite mem_read_nth by (subst dst n; lia).
    f_equal. subst src dst. lia.
  - intros a Ha'. apply mem_write_out. rewrite Hlen2. subst dst n. lia.
Qed.

(** ** What the vector operations do to the items *)

(** A run that evaluates to a result did not end otherwise. *)
Ltac run_is_done E :=
  match type of E with
  | ?run = _ =>
      let H := fresh in
      assert (H : match run with Done _ => true | _ => false end = true)
        by (vm_compute; reflexivity);
      rewrite E in H; discriminate H
  end.

Lemma insert_at_length {A} i (x : A) l :
  (i <= List.length l)%nat ->
  List.length (insert_at i x l) = S (List.length l).
Proof.
  intros Hi. unfold insert_at.
  rewrite length_app. cbn [List.length].
  rewrite length_firstn, length_skipn. lia.
Qed.

Lemma insert_at_nth {A} i (x : A) l d k :
  (i <= List.length l)%nat ->
  nth k (insert_at i x l) d
  = if (k <? i)%nat then nth k l d
    else if (k =? i)%nat then x else nth (k - 1) l d.
Proof.
  intros Hi. unfold insert_at.
  assert (Hlen : List.length (firstn i l) = i)
    by (rewrite length_firstn; lia).
  destruct (k <? i)%nat eqn:E1.
  - apply Nat.ltb_lt in E1.
    rewrite app_nth1 by lia. rewrite nth_firstn.
    now rewrite (proj2 (Nat.ltb_lt k i) E1).
  - apply Nat.ltb_ge in E1. rewrite app_nth2 by lia. rewrite Hlen.
    destruct (k =? i)%nat eqn:E2.
    + apply Nat.eqb_eq in E2. subst k. now rewrite Nat.sub_diag.
    + apply Nat.eqb_neq in E2.
      replace (k - i)%nat with (S (k - i - 1)) by lia. cbn [nth].
      rewrite nth_skipn. f_equal. lia.
Qed.

Lemma remove_at_length {A} i (l : list A) :
  (i < List.length l)%nat ->
  List.length (remove_at i l) = (List.length l - 1)%nat.
Proof.
  intros Hi. unfold remove_at.
  rewrite length_app, length_firstn, length_skipn. lia.
Qed.

Lemma remove_at_nth {A} i (l : list A) d k :
  (i < List.length l)%nat ->
  nth k (remove_at i l) d
  = if (k <? i)%nat then nth k l d else nth (S k) l d.
Proof.
  intros Hi. unfold remove_at.
  assert (Hlen : List.length (firstn i l) = i)
    by (rewrite length_firstn; lia).
  destruct (k <? i)%nat eqn:E1.
  - apply Nat.ltb_lt in E1.
    rewrite app_nth1 by lia. rewrite nth_firstn.
    now rewrite (proj2 (Nat.ltb_lt k i) E1).
  - apply Nat.ltb_ge in E1. rewrite app_nth2 by lia. rewrite Hlen.
    rewrite nth_skipn. f_equal. lia.
Qed.

(** Putting an item in and taking it out again gives the list back. *)
Lemma remove_insert_at {A} i (x : A) l :
  (i <= List.length l)%nat -> remove_at i (insert_at i x l) = l.
Proof.
  intros Hi. unfold remove_at, insert_at.
  assert (Hlen : List.length (firstn i l) = i)
    by (rewrite length_firstn; lia).
  rewrite firstn_app, Hlen, Nat.sub_diag, firstn_O, app_nil_r.
  rewrite firstn_all2 by lia.
  rewrite skipn_app, Hlen.
  rewrite (skipn_all2 (n := S i)) by lia.
  replace (S i - i)%nat with 1%nat by lia. cbn [skipn app].
  apply firstn_skipn.
Qed.

(** X2.  [vector_push] on a vector in use either ends the process for
    want of memory, which it can only do when the vector is full, or
    returns; the items are then the old items followed by the new one, no
    byte outside the vector's storage has changed, and unless the vector
    was full its storage is where it was. *)
Theorem vector_push_appends
    (vec : Vector) (pool : MemPool) (mem : Mem) (item : list Z) :
  vec_wf vec pool ->
  it_sz vec <= Z.of_nat (List.length item) ->
  (vector_push vec pool mem item = Abort OOM /\ items vec = valloc vec) \/
  exists vec' pool' mem',
    vector_push vec pool mem item = Done (vec', pool', mem') /\
    vec_wf vec' pool' /\
    contents vec' mem' = contents vec mem ++ [stored vec item] /\
    (forall a, ~ in_storage vec' a -> mem' a = mem a) /\
    (items vec < valloc vec -> data vec' = data vec /\ pool' = pool).
Proof.
  intros Hwf Hitem.
  destruct (vector_push_run vec pool mem item Hwf Hitem)
    as [H | (vec' & pool' & mem' & E & Hwf' & _ & Hsz & Hit & Hnew & Hkeep
             & Hframe & Hsame)]; [now left|right].
  exists vec', pool', mem'. split; [exact E|]. split; [exact Hwf'|].
  destruct Hwf as (_ & _ & [Hi0 _] & _).
  split; [|split; [exact Hframe|]].
  - apply contents_eq.
    + rewrite length_app, contents_length, Hit. cbn [List.length]. lia.
    + intros k Hk. rewrite length_app, contents_length in Hk.
      cbn [List.length] in Hk.
      destruct (Nat.lt_ge_cases k (Z.to_nat (items vec))) as [Hlt | Hge].
      * rewrite app_nth1 by (now rewrite contents_length).
        rewrite contents_nth by exact Hlt. apply Hkeep. lia.
      * rewrite app_nth2 by (rewrite contents_length; lia).
        rewrite contents_length.
        replace (k - Z.to_nat (items vec))%nat with 0%nat by lia.
        cbn [nth].
        replace (Z.of_nat k) with (items vec) by lia. exact Hnew.
  - intros Hlt. destruct (Hsame Hlt) as [-> ->]. now split.
Qed.

Lemma vector_push_appends_witness :
  exists vec' pool' mem',
    vector_push vec_ab pool_used mem_ab [7; 8] = Done (vec', pool', mem') /\
    contents vec' mem' = [[1; 2]; [3; 4]; [5; 6]; [7; 8]].
Proof.
  assert (Hwf : vec_wf vec_ab pool_used)
    by (vm_compute; repeat split; congruence).
  assert (Hlen : it_sz vec_ab <= Z.of_nat (List.length [7; 8]))
    by (vm_compute; congruence).
  destruct (vector_push_appends vec_ab pool_used mem_ab [7; 8] Hwf Hlen)
    as [[E _] | (vec' & pool' & mem' & E & _ & Hc & _)].
  - run_is_done E.
  - exists vec', pool', mem'. split; [exact E | exact Hc].
Defined.

(** X3.  [vector_init] followed by one [vector_push] per item either ends
    the process for want of memory or returns a vector that holds as many
    items as were pushed; [vector_idx] then answers [NULL] for the index
    that equals the count, and for every smaller index a non-null address
    at which the bytes of the item pushed at that position are found,
    through every resize on the way. *)
Theorem vector_build_lookup
    (sz_item : Z) (pool : MemPool) (mem : Mem) (xs : list (list Z)) :
  pool_ok pool ->
  NULL < base pool ->
  0 < sz_item ->
  sz_item * VEC_INIT_ALLOC <= MAX_REQUEST ->
  Forall (fun x => sz_item <= Z.of_nat (List.length x)) xs ->
  vector_build sz_item pool mem xs = Abort OOM \/
  exists vec pool' mem',
    vector_build sz_item pool mem xs = Done (vec, pool', mem') /\
    vec_wf vec pool' /\
    items vec = Z.of_nat (List.length xs) /\
    vector_idx vec (items vec) = NULL /\
    forall k, (k < List.length xs)%nat ->
      vector_idx vec (Z.of_nat k) <> NULL /\
      mem_read mem' (vector_idx vec (Z.of_nat k)) sz_item
      = firstn (Z.to_nat sz_item) (nth k xs []).
Proof.
  intros Hok Hbase Hsz Hreq Hxs. unfold vector_build.
  destruct (vector_init_wf sz_item pool Hok Hsz Hreq)
    as [-> | (vec & pool1 & -> & Hwf & Hit & Hitems & Hval & Hdata & Hb1)];
    [now left|].
  cbn [obind]. rewrite <- Hit in Hxs.
  destruct (vector_pushes_spec xs vec pool1 mem Hwf Hxs)
    as [-> | (vec' & pool' & mem' & -> & Hwf' & Hbase' & Hsz' & Hitems' & _
              & Hnew)];
    [now left|right].
  exists vec', pool', mem'. split; [reflexivity|]. split; [exact Hwf'|].
  split; [lia|].
  pose proof (vec_wf_bounds vec' pool' Hwf') as (Hb & Hb2 & Hb3 & Hb4).
  destruct Hwf' as (Hok' & Hsz1 & [Hi0 Hi] & Hv & Hbd & Hd).
  unfold POOL_MAX_SZ in *.
  split.
  - unfold vector_idx. destruct (items vec' >=? items vec') eqn:E;
      [reflexivity|]. rewrite Z.geb_leb in E. apply Z.leb_gt in E. lia.
  - intros k Hk. specialize (Hnew k Hk).
    unfold vector_idx.
    destruct (Z.of_nat k >=? items vec') eqn:E.
    { apply Z.geb_le in E. lia. }
    rewrite Z.geb_leb in E. apply Z.leb_gt in E.
    pose proof (mul_bounds (Z.of_nat k) (valloc vec') (it_sz vec')
                  ltac:(lia) ltac:(lia)) as Hk'.
    rewrite (wrap64_small (Z.of_nat k * it_sz vec'))
      by (unfold in_size_t, SIZE_MOD; lia).
    split.
    + unfold NULL in *. lia.
    + unfold item_at, stored in Hnew.
      rewrite Hitems, Z.add_0_l, Hit in Hnew.
      rewrite Hsz', Hit in Hnew. rewrite Hsz', Hit. exact Hnew.
Qed.

Lemma vector_build_lookup_witness :
  exists vec pool' mem',
    vector_build 2 pool0 mem0 (map (fun n => [Z.of_nat n; 0]) (seq 0 40))
    = Done (vec, pool', mem') /\
    mem_read mem' (vector_idx vec 39) 2 = [39; 0] /\
    vector_idx vec 40 = NULL.
Proof.
  assert (Hok : pool_ok pool0) by (vm_compute; repeat split; congruence).
  assert (Hbase : NULL < base pool0) by reflexivity.
  assert (Hsz : 0 < 2) by reflexivity.
  assert (Hreq : 2 * VEC_INIT_ALLOC <= MAX_REQUEST)
    by (vm_compute; congruence).
  assert (Hxs : Forall (fun x => 2 <= Z.of_nat (List.length x))
                  (map (fun n => [Z.of_nat n; 0]) (seq 0 40))).
  { apply Forall_forall. intros x Hx.
    apply in_map_iff in Hx as (n & <- & _). cbn [List.length]. lia. }
  destruct (vector_build_lookup 2 pool0 mem0 _ Hok Hbase Hsz Hreq Hxs)
    as [E | (vec & pool' & mem' & E & _ & Hn & Hnull & Hget)].
  - run_is_done E.
  - exists vec, pool', mem'. split; [exact E|]. split.
    + exact (proj2 (Hget 39%nat ltac:(cbn; lia))).
    + rewrite Hn in Hnull. exact Hnull.
Defined.

(** X4.  [vector_insert] at an index up to the count either ends the
    process for want of memory, which it can only do when the vector is
    full, or returns; the items are then the old items with the new one
    put in at the index, those from the index on moved up by one, and no
    byte outside the vector's storage has changed. *)
Theorem vector_insert_shifts
    (vec : Vector) (pool : MemPool) (mem : Mem) (idx : Z) (item : list Z) :
  vec_wf vec pool ->
  0 <= idx <= items vec ->
  it_sz vec <= Z.of_nat (List.length item) ->
  (vector_insert vec pool mem idx item = Abort OOM /\
   items vec = valloc vec) \/
  exists vec' pool' mem',
    vector_insert vec pool mem idx item = Done (vec', pool', mem') /\
    vec_wf vec' pool' /\
    contents vec' mem'
    = insert_at (Z.to_nat idx) (stored vec item) (contents vec mem) /\
    (forall a, ~ in_storage vec' a -> mem' a = mem a).
Proof.
  intros Hwf Hidx Hitem.
  destruct (vector_insert_run vec pool mem idx item Hwf Hidx Hitem)
    as [H | (vec' & pool' & mem' & E & Hwf' & Hsz & Hit & Hlow & Hnew & Hup
             & Hframe & _)]; [now left|right].
  exists vec', pool', mem'. split; [exact E|]. split; [exact Hwf'|].
  split; [|exact Hframe].
  assert (Hi : (Z.to_nat idx <= List.length (contents vec mem))%nat)
    by (rewrite contents_length; lia).
  apply contents_eq.
  - rewrite insert_at_length by exact Hi. rewrite contents_length, Hit. lia.
  - intros k Hk. rewrite insert_at_length in Hk by exact Hi.
    rewrite contents_length in Hk.
    rewrite insert_at_nth by exact Hi.
    destruct (k <? Z.to_nat idx)%nat eqn:E1.
    + apply Nat.ltb_lt in E1. rewrite contents_nth by lia. apply Hlow. lia.
    + apply Nat.ltb_ge in E1.
      destruct (k =? Z.to_nat idx)%nat eqn:E2.
      * apply Nat.eqb_eq in E2.
        replace (Z.of_nat k) with idx by lia. exact Hnew.
      * apply Nat.eqb_neq in E2. rewrite contents_nth by lia.
        rewrite Hup by lia. f_equal. lia.
Qed.

Lemma vector_insert_shifts_witness :
  exists vec' pool' mem',
    vector_insert vec_ab pool_used mem_ab 1 [7; 8] = Done (vec', pool', mem') /\
    contents vec' mem' = [[1; 2]; [7; 8]; [3; 4]; [5; 6]].
Proof.
  assert (Hwf : vec_wf vec_ab pool_used)
    by (vm_compute; repeat split; congruence).
  assert (Hidx : 0 <= 1 <= items vec_ab) by (vm_compute; split; congruence).
  assert (Hlen : it_sz vec_ab <= Z.of_nat (List.length [7; 8]))
    by (vm_compute; congruence).
  destruct (vector_insert_shifts vec_ab pool_used mem_ab 1 [7; 8]
              Hwf Hidx Hlen)
    as [[E _] | (vec' & pool' & mem' & E & _ & Hc & _)].
  - run_is_done E.
  - exists vec', pool', mem'. split; [exact E | exact Hc].
Defined.

(** X5.  [vector_remove] of an item of a vector in use, when the slot
    that follows the last item can be read, returns; the items are then
    the old items without the one at the index, those after it moved down
    by one, and no byte before the item removed or after the last item
    has changed. *)
Theorem vector_remove_shifts
    (vec : Vector) (pool : MemPool) (mem : Mem) (idx : Z) :
  vec_wf vec pool ->
  0 <= idx < items vec ->
  data vec + (items vec + 1) * it_sz vec <= base pool + alloc pool ->
  exists vec' mem',
    vector_remove vec pool mem idx = Done (vec', mem') /\
    vec_wf vec' pool /\
    contents vec' mem' = remove_at (Z.to_nat idx) (contents vec mem) /\
    (forall a, a < data vec + idx * it_sz vec \/
               data vec + items vec * it_sz vec <= a ->
       mem' a = mem a).
Proof.
  intros Hwf Hidx Hacc.
  destruct (vector_remove_run vec pool mem idx Hwf Hidx Hacc)
    as (mem' & E & Hwf' & Hlow & Hup & Hframe).
  exists (with_items vec (items vec - 1)), mem'.
  split; [exact E|]. split; [exact Hwf'|]. split; [|exact Hframe].
  assert (Hi : (Z.to_nat idx < List.length (contents vec mem))%nat)
    by (rewrite contents_length; lia).
  apply contents_eq.
  - rewrite remove_at_length by exact Hi. rewrite contents_length.
    cbn [with_items items]. lia.
  - intros k Hk. rewrite remove_at_length in Hk by exact Hi.
    rewrite contents_length in Hk.
    rewrite remove_at_nth by exact Hi.
    change (item_at (with_items vec (items vec - 1)) mem' (Z.of_nat k))
      with (item_at vec mem' (Z.of_nat k)).
    destruct (k <? Z.to_nat idx)%nat eqn:E1.
    + apply Nat.ltb_lt in E1. rewrite contents_nth by lia. apply Hlow. lia.
    + apply Nat.ltb_ge in E1. rewrite contents_nth by lia.
      rewrite Hup by lia. f_equal. lia.
Qed.

Lemma vector_remove_shifts_witness :
  exists vec' mem',
    vector_remove vec_ab pool_used mem_ab 0 = Done (vec', mem') /\
    contents vec' mem' = [[3; 4]; [5; 6]].
Proof.
  assert (Hwf : vec_wf vec_ab pool_used)
    by (vm_compute; repeat split; congruence).
  assert (Hidx : 0 <= 0 < items vec_ab) by (vm_compute; split; congruence).
  assert (Hacc : data vec_ab + (items vec_ab + 1) * it_sz vec_ab
                 <= base pool_used + alloc pool_used)
    by (vm_compute; congruence).
  destruct (vector_remove_shifts vec_ab pool_used mem_ab 0 Hwf Hidx Hacc)
    as (vec' & mem' & E & _ & Hc & _).
  exists vec', mem'. split; [exact E | exact Hc].
Defined.

(** X6.  [vector_remove] moves as many items as lie from the index on,
    starting with the item after it, so it reads the slot that follows
    the last item.  When that slot reaches beyond the part of the pool
    that can be read, the call is undefined, whatever the index. *)
Theorem vector_remove_reads_past_last
    (vec : Vector) (pool : MemPool) (mem : Mem) (idx : Z) :
  vec_wf vec pool ->
  0 <= idx < items vec ->
  base pool + alloc pool < data vec + (items vec + 1) * it_sz vec ->
  vector_remove vec pool mem idx = Undef.
Proof.
  intros Hwf Hidx Hacc. unfold vector_remove.
  pose proof (vec_wf_bounds vec pool Hwf) as (Hb1 & Hb2 & Hb3 & Hb4).
  destruct Hwf as (Hok & Hsz1 & [Hi0 Hi] & Hv & Hb & Hd).
  pose proof Hok as [[Hs0 Hs] Ha]. unfold POOL_MAX_SZ in *.
  pose proof (mul_bounds idx (items vec) (it_sz vec) ltac:(lia) ltac:(lia))
    as Hm1.
  rewrite (wrap64_small (idx + 1)) by (unfold in_size_t, SIZE_MOD; lia).
  rewrite (wrap64_small ((idx + 1) * it_sz vec))
    by (unfold in_size_t, SIZE_MOD; lia).
  rewrite (wrap64_small (idx * it_sz vec))
    by (unfold in_size_t, SIZE_MOD; lia).
  rewrite (wrap64_small (items vec - idx))
    by (unfold in_size_t, SIZE_MOD; lia).
  rewrite (wrap64_small ((items vec - idx) * it_sz vec))
    by (unfold in_size_t, SIZE_MOD; lia).
  unfold memmove.
  replace (accessible pool (data vec + (idx + 1) * it_sz vec)
             ((items vec - idx) * it_sz vec)) with false.
  - now rewrite andb_false_r.
  - symmetry. unfold accessible. apply andb_false_iff. right.
    apply Z.leb_gt. lia.
Qed.

Lemma vector_remove_reads_past_last_witness :
  vector_init_size 50 (mkPool 65536 4000 POOL_CHUNK_SZ) 1
  = Done (vec_last, pool_last) /\
  vector_remove vec_last pool_last mem0 0 = Undef.
Proof.
  split; [reflexivity|].
  apply (vector_remove_reads_past_last vec_last pool_last mem0 0).
  - vm_compute; repeat split; congruence.
  - vm_compute; split; congruence.
  - reflexivity.
Defined.

(** X7.  Inserting an item into a vector that has room for two more and
    removing it again at the same index leaves the vector and the pool as
    they were, with the same items. *)
Theorem vector_insert_remove
    (vec : Vector) (pool : MemPool) (mem : Mem) (idx : Z) (item : list Z) :
  vec_wf vec pool ->
  0 <= idx <= items vec ->
  it_sz vec <= Z.of_nat (List.length item) ->
  items vec + 2 <= valloc vec ->
  exists vec1 mem1 mem2,
    vector_insert vec pool mem idx item = Done (vec1, pool, mem1) /\
    vector_remove vec1 pool mem1 idx = Done (vec, mem2) /\
    contents vec mem2 = contents vec mem.
Proof.
  intros Hwf Hidx Hitem Hroom.
  destruct (vector_insert_run vec pool mem idx item Hwf Hidx Hitem)
    as [[_ Hfull] | (vec1 & pool1 & mem1 & E1 & Hwf1 & Hsz & Hit & Hlow & Hnew
                     & Hup & _ & Hsame)]; [lia|].
  destruct (Hsame ltac:(lia)) as [-> ->].
  pose proof (vec_wf_bounds vec pool Hwf) as (Hb1 & Hb2 & Hb3 & Hb4).
  pose proof Hwf as (Hok & Hsz1 & [Hi0 Hi] & Hv & Hb & Hd).
  pose proof Hok as [[Hs0 Hs] Ha].
  pose proof (slot_le (items vec + 2) (valloc vec) (it_sz vec)
                ltac:(lia) ltac:(lia)) as Hslot.
  destruct (vector_remove_run (with_items vec (items vec + 1)) pool mem1 idx
              Hwf1)
    as (mem2 & E2 & _ & Hlow2 & Hup2 & _).
  { cbn [with_items items]. lia. }
  { cbn [with_items items it_sz data].
    replace (items vec + 1 + 1) with (items vec + 2) by lia. lia. }
  cbn [with_items items it_sz valloc data] in E2.
  replace (items vec + 1 - 1) with (items vec) in E2 by lia.
  replace (with_items (with_items vec (items vec + 1)) (items vec))
    with vec in E2 by (now destruct vec).
  exists (with_items vec (items vec + 1)), mem1, mem2.
  split; [exact E1|]. split; [exact E2|].
  apply contents_eq; [now rewrite contents_length|].
  intros k Hk. rewrite contents_length in *.
  rewrite contents_nth by exact Hk.
  change (item_at vec mem2 (Z.of_nat k))
    with (item_at (with_items vec (items vec + 1)) mem2 (Z.of_nat k)).
  destruct (Z.lt_ge_cases (Z.of_nat k) idx) as [Hlt | Hge].
  - rewrite Hlow2 by lia. apply Hlow. lia.
  - rewrite Hup2 by (cbn [with_items items]; lia).
    rewrite Hup by lia. f_equal. lia.
Qed.

Lemma vector_insert_remove_witness :
  exists vec1 mem1 mem2,
    vector_insert vec_two pool_used mem_ab 1 [7; 8]
    = Done (vec1, pool_used, mem1) /\
    vector_remove vec1 pool_used mem1 1 = Done (vec_two, mem2) /\
    contents vec_two mem2 = [[1; 2]; [3; 4]].
Proof.
  assert (Hwf : vec_wf vec_two pool_used)
    by (vm_compute; repeat split; congruence).
  assert (Hidx : 0 <= 1 <= items vec_two) by (vm_compute; split; congruence).
  assert (Hlen : it_sz vec_two <= Z.of_nat (List.length [7; 8]))
    by (vm_compute; congruence).
  assert (Hroom : items vec_two + 2 <= valloc vec_two)
    by (vm_compute; congruence).
  destruct (vector_insert_remove vec_two pool_used mem_ab 1 [7; 8]
              Hwf Hidx Hlen Hroom)
    as (vec1 & mem1 & mem2 & E1 & E2 & Hc).
  exists vec1, mem1, mem2. split; [exact E1|]. split; [exact E2 | exact Hc].
Defined.

(** X8.  [vector_remove] does not compare the index with the count.
    With the count as index it moves no byte and lowers the count: the
    last item is dropped when there is one, and on a vector with no item
    the count wraps around to the largest [size_t]. *)
Theorem vector_remove_at_count
    (vec : Vector) (pool : MemPool) (mem : Mem) :
  vec_wf vec pool ->
  items vec < valloc vec ->
  exists vec' mem',
    vector_remove vec pool mem (items vec) = Done (vec', mem') /\
    (forall a, mem' a = mem a) /\
    items vec' = (if items vec =? 0 then SIZE_MOD - 1 else items vec - 1) /\
    (0 < items vec -> contents vec' mem' = removelast (contents vec mem)).
Proof.
  intros Hwf Hroom. unfold vector_remove.
  pose proof (vec_wf_bounds vec pool Hwf) as (Hb1 & Hb2 & Hb3 & Hb4).
  destruct Hwf as (Hok & Hsz1 & [Hi0 Hi] & Hv & Hb & Hd).
  pose proof Hok as [[Hs0 Hs] Ha]. unfold POOL_MAX_SZ in *.
  pose proof (slot_le (items vec + 1) (valloc vec) (it_sz vec)
                ltac:(lia) ltac:(lia)) as Hslot.
  rewrite Z.sub_diag.
  change (wrap64 0) with 0. rewrite Z.mul_0_l. change (wrap64 0) with 0.
  rewrite (wrap64_small (items vec + 1))
    by (unfold in_size_t, SIZE_MOD; lia).
  rewrite (wrap64_small ((items vec + 1) * it_sz vec))
    by (unfold in_size_t, SIZE_MOD; lia).
  rewrite (wrap64_small (items vec * it_sz vec))
    by (unfold in_size_t, SIZE_MOD; lia).
  rewrite memmove_done by lia. cbn [obind].
  eexists _, _. split; [reflexivity|].
  assert (Hmem : forall a,
             mem_write mem (data vec + items vec * it_sz vec)
               (mem_read mem (data vec + (items vec + 1) * it_sz vec) 0) a
             = mem a).
  { intros a. apply mem_write_out. rewrite mem_read_length. lia. }
  split; [exact Hmem|]. cbn [with_items items]. split.
  - destruct (items vec =? 0) eqn:E.
    + apply Z.eqb_eq in E. rewrite E. reflexivity.
    + apply Z.eqb_neq in E. apply wrap64_small.
      unfold in_size_t, SIZE_MOD. lia.
  - intros Hpos.
    rewrite (wrap64_small (items vec - 1))
      by (unfold in_size_t, SIZE_MOD; lia).
    rewrite removelast_firstn_len, contents_length.
    apply contents_eq.
    + rewrite length_firstn, contents_length. cbn [with_items items]. lia.
    + intros k Hk. rewrite length_firstn, contents_length in Hk.
      rewrite nth_firstn.
      replace (k <? Nat.pred (Z.to_nat (items vec)))%nat with true
        by (symmetry; apply Nat.ltb_lt; lia).
      rewrite contents_nth by lia.
      unfold item_at. cbn [with_items it_sz data].
      apply mem_read_ext. intros j _. apply Hmem.
Qed.

Lemma vector_remove_at_count_witness :
  exists vec' mem',
    vector_remove vec_none pool_used mem_ab 0 = Done (vec', mem') /\
    items vec' = 18446744073709551615.
Proof.
  assert (Hwf : vec_wf vec_none pool_used)
    by (vm_compute; repeat split; congruence).
  assert (Hroom : items vec_none < valloc vec_none) by reflexivity.
  destruct (vector_remove_at_count vec_none pool_used mem_ab Hwf Hroom)
    as (vec' & mem' & E & _ & Hn & _).
  exists vec', mem'. split; [exact E | exact Hn].
Defined.

(** A request for no byte is served where the used part ends and leaves
    the sizes of the pool as they are. *)
Lemma mempool_alloc_zero pool :
  pool_ok pool ->
  exists pool' calls,
    mempool_alloc pool 0 = Done (base pool + size pool, pool', calls) /\
    pool_ok pool' /\
    base pool' = base pool /\ size pool' = size pool /\
    alloc pool' = alloc pool.
Proof.
  intros [[Hs0 Hs] Ha]. unfold POOL_MAX_SZ in *. unfold mempool_alloc.
  rewrite Z.add_0_r.
  rewrite (wrap64_small (size pool + 1))
    by (unfold in_size_t, SIZE_MOD; lia).
  destruct (size pool + 1 >=? alloc pool).
  - change (size_needed 0) with (Done (A := Z) 0). cbn [obind].
    rewrite Z.add_0_r.
    rewrite (wrap64_small (alloc pool))
      by (unfold in_size_t, SIZE_MOD; lia).
    replace (alloc pool >? POOL_MAX_SZ) with false
      by (symmetry; rewrite Z.gtb_ltb; apply Z.ltb_ge;
          unfold POOL_MAX_SZ; lia).
    cbn [obind base size alloc]. rewrite ?Z.add_0_r.
    rewrite (wrap64_small (size pool))
      by (unfold in_size_t, SIZE_MOD; lia).
    eexists _, _. split; [reflexivity|].
    unfold pool_ok, POOL_MAX_SZ. cbn [base size alloc].
    repeat split; lia.
  - cbn [obind base size alloc]. rewrite ?Z.add_0_r.
    rewrite (wrap64_small (size pool))
      by (unfold in_size_t, SIZE_MOD; lia).
    eexists _, _. split; [reflexivity|].
    unfold pool_ok, POOL_MAX_SZ. cbn [base size alloc].
    repeat split; lia.
Qed.

(** X9.  A vector that [vector_init_size] sets up with no item has no
    capacity, and doubling none gives none: [vector_push] stores the item
    all the same, in bytes the pool has not handed out, and returns a
    vector with one item and room for none.  The next request to the pool
    is answered with the address of that item. *)
Theorem vector_of_no_capacity_overruns
    (sz_item : Z) (pool : MemPool) (mem : Mem) (item : list Z) :
  pool_ok pool ->
  0 < sz_item ->
  size pool + sz_item <= alloc pool ->
  sz_item <= Z.of_nat (List.length item) ->
  exists vec pool1 vec' pool' mem',
    vector_init_size sz_item pool 0 = Done (vec, pool1) /\
    vector_push vec pool1 mem item = Done (vec', pool', mem') /\
    items vec' = 1 /\ valloc vec' = 0 /\
    item_at vec' mem' 0 = firstn (Z.to_nat sz_item) item /\
    forall amount p pool2 calls,
      mempool_alloc pool' amount = Done (p, pool2, calls) -> p = data vec'.
Proof.
  intros Hok Hsz Hfit Hitem.
  destruct (mempool_alloc_zero pool Hok)
    as (pool1 & calls1 & E1 & Hok1 & Hb1 & Hs1 & Ha1).
  destruct (mempool_alloc_zero pool1 Hok1)
    as (pool2 & calls2 & E2 & Hok2 & Hb2 & Hs2 & Ha2).
  pose proof Hok as [[Hs0 Hs] Ha]. unfold POOL_MAX_SZ in *.
  unfold vector_init_size. rewrite Z.mul_0_r.
  change (wrap64 0) with 0. rewrite E1. cbn [obind].
  set (vec0 := {| it_sz := sz_item; items := 0; valloc := 0;
                  data := base pool + size pool |}).
  set (vec1 := {| it_sz := sz_item; items := 1; valloc := 0;
                  data := base pool + size pool |}).
  set (mem1 := mem_write
                 (mem_write mem (base pool + size pool)
                    (mem_read mem (base pool + size pool) 0))
                 (base pool + size pool) (firstn (Z.to_nat sz_item) item)).
  assert (Hpush : vector_push vec0 pool1 mem item = Done (vec1, pool2, mem1)).
  { unfold vector_push, grow_if_full. cbn [vec0 items valloc it_sz data].
    change (wrap64 (0 + 1) >? 0) with true. cbv iota.
    unfold vector_resize, Helper.vector_resize.
    cbn [vec0 items valloc it_sz data].
    rewrite !Z.mul_0_l. change (wrap64 0) with 0.
    change (wrap64 (0 * 2)) with 0. rewrite E2.
    cbn [obind data items it_sz].
    unfold memcpy. rewrite Z.add_0_r, Hb1, Hs1, Z.leb_refl. cbn [orb].
    rewrite memmove_done by lia. cbn [obind items it_sz data valloc].
    rewrite Z.mul_0_l. change (wrap64 0) with 0.
    change (wrap64 (0 + 1)) with 1. rewrite Z.add_0_r.
    rewrite copy_in_done by lia. cbn [obind]. reflexivity. }
  exists vec0, pool1, vec1, pool2, mem1.
  split; [reflexivity|]. split; [exact Hpush|].
  split; [reflexivity|]. split; [reflexivity|]. split.
  - unfold item_at. cbn [vec1 items valloc data it_sz].
    rewrite Z.mul_0_l, Z.add_0_r.
    pose proof (mem_read_write
                  (mem_write mem (base pool + size pool)
                     (mem_read mem (base pool + size pool) 0))
                  (base pool + size pool)
                  (firstn (Z.to_nat sz_item) item)) as Hrw.
    rewrite length_firstn in Hrw.
    replace (Z.of_nat (Nat.min (Z.to_nat sz_item) (List.length item)))
      with sz_item in Hrw by lia.
    exact Hrw.
  - intros amount p pool3 calls E.
    apply mempool_alloc_pointer in E as [-> _]. cbn [vec1 data]. lia.
Qed.

Lemma vector_of_no_capacity_overruns_witness :
  exists vec pool1 vec' pool' mem',
    vector_init_size 2 pool0 0 = Done (vec, pool1) /\
    vector_push vec pool1 mem0 [7; 8] = Done (vec', pool', mem') /\
    items vec' = 1 /\ valloc vec' = 0 /\
    mempool_alloc pool' 16 = Done (data vec', mkPool 65536 16 4096, []).
Proof.
  assert (Hok : pool_ok pool0) by (vm_compute; repeat split; congruence).
  assert (Hsz : 0 < 2) by reflexivity.
  assert (Hfit : size pool0 + 2 <= alloc pool0) by (vm_compute; congruence).
  assert (Hlen : 2 <= Z.of_nat (List.length [7; 8]))
    by (vm_compute; congruence).
  destruct (vector_of_no_capacity_overruns 2 pool0 mem0 [7; 8]
              Hok Hsz Hfit Hlen)
    as (vec & pool1 & vec' & pool' & mem' & E1 & E2 & Hn & Hv & _ & Hnext).
  exists vec, pool1, vec', pool', mem'.
  split; [exact E1|]. split; [exact E2|]. split; [exact Hn|].
  split; [exact Hv|].
  injection E1 as <- <-. cbn in E2. injection E2 as <- <- _.
  reflexivity.
Defined.

(** X10.  [vector_alloc] on a vector in use either ends the process for
    want of memory, which it can only do when the vector is full, or
    returns the address of a new last item: the count has grown by one,
    [vector_idx] answers that address for the new last index, the items
    that were there are unchanged, and no byte outside the vector's
    storage has changed. *)
Theorem vector_alloc_slot (vec : Vector) (pool : MemPool) (mem : Mem) :
  vec_wf vec pool ->
  (vector_alloc vec pool mem = Abort OOM /\ items vec = valloc vec) \/
  exists p vec' pool' mem',
    vector_alloc vec pool mem = Done (p, vec', pool', mem') /\
    vec_wf vec' pool' /\
    items vec' = items vec + 1 /\
    vector_idx vec' (items vec) = p /\
    data vec' <= p /\ p + it_sz vec' <= data vec' + valloc vec' * it_sz vec' /\
    firstn (Z.to_nat (items vec)) (contents vec' mem') = contents vec mem /\
    (forall a, ~ in_storage vec' a -> mem' a = mem a).
Proof.
  intros Hwf. unfold vector_alloc.
  destruct (grow_if_full_spec vec pool mem Hwf)
    as [[-> Hfull] | (vec1 & pool1 & mem1 & -> & Hwf1 & Hsz & Hit & Hroom
                      & Hbase & Hsize & Hkeep & Hframe & _)];
    [left; split; [reflexivity | exact Hfull] | right].
  cbn [obind].
  pose proof (vec_wf_bounds vec1 pool1 Hwf1) as (Hb1 & Hb2 & Hb3 & Hb4).
  destruct Hwf1 as (Hok & Hsz1 & [Hi0 Hi] & Hv & Hb & Hd).
  pose proof Hok as [[Hs0 Hs] Ha]. unfold POOL_MAX_SZ in *.
  pose proof (slot_le (items vec1 + 1) (valloc vec1) (it_sz vec1)
                ltac:(lia) ltac:(lia)) as Hslot.
  rewrite (wrap64_small (items vec1 * it_sz vec1))
    by (unfold in_size_t, SIZE_MOD; lia).
  rewrite (wrap64_small (items vec1 + 1))
    by (unfold in_size_t, SIZE_MOD; lia).
  eexists _, _, _, _. split; [reflexivity|].
  split.
  { unfold vec_wf, with_items. cbn [it_sz items valloc data].
    repeat split; auto; lia. }
  cbn [with_items it_sz items valloc data].
  split; [lia|]. split.
  { unfold vector_idx. cbn [with_items it_sz items valloc data].
    replace (items vec >=? items vec1 + 1) with false
      by (symmetry; rewrite Z.geb_leb; apply Z.leb_gt; lia).
    rewrite <- Hit.
    rewrite (wrap64_small (items vec1 * it_sz vec1))
      by (unfold in_size_t, SIZE_MOD; lia).
    reflexivity. }
  split; [lia|]. split; [lia|]. split; [|exact Hframe].
  symmetry. apply contents_eq.
  - rewrite length_firstn, contents_length. cbn [with_items items]. lia.
  - intros k Hk. rewrite length_firstn, contents_length in Hk.
    cbn [with_items items] in Hk.
    rewrite nth_firstn.
    replace (k <? Z.to_nat (items vec))%nat with true
      by (symmetry; apply Nat.ltb_lt; lia).
    rewrite contents_nth by (cbn [with_items items]; lia).
    symmetry. apply (Hkeep (Z.of_nat k)). lia.
Qed.

Lemma vector_alloc_slot_witness :
  exists p vec' pool' mem',
    vector_alloc vec_full pool_used mem_ab = Done (p, vec', pool', mem') /\
    items vec' = 5 /\
    vector_idx vec' 4 = p /\
    firstn 4 (contents vec' mem') = [[1; 2]; [3; 4]; [5; 6]; [0; 0]].
Proof.
  assert (Hwf : vec_wf vec_full pool_used)
    by (vm_compute; repeat split; congruence).
  destruct (vector_alloc_slot vec_full pool_used mem_ab Hwf)
    as [[E _] | (p & vec' & pool' & mem' & E & _ & Hn & Hp & _ & _ & Hc & _)].
  - run_is_done E.
  - exists p, vec', pool', mem'.
    split; [exact E|]. split; [exact Hn|]. split; [exact Hp | exact Hc].
Defined.

(** * Further properties of helper.c *)

(** ** Spans *)

(** The middle span of a chain does not matter, also when the size
    computation wraps around. *)
Lemma combine_pos_chain a b c :
  combine_pos a (combine_pos b c) = combine_pos a c.
Proof.
  unfold combine_pos. cbn [start sz]. f_equal.
  unfold wrap64. rewrite Z.add_mod_idemp_r by (unfold SIZE_MOD; lia).
  f_equal. lia.
Qed.

(** X11.  For two spans of one buffer of which the first starts no later
    than the second ends, [combine_pos] gives the span that starts where
    the first starts and ends where the second ends; so it covers both
    when the first ends no later than the second.  Combining is
    associative, and a span in the middle of a chain has no influence. *)
Theorem combine_pos_covers (a b c : SourcePosition) :
  start a <= start b + sz b ->
  start b + sz b - start a < SIZE_MOD ->
  start (combine_pos a b) = start a /\
  start (combine_pos a b) + sz (combine_pos a b) = start b + sz b /\
  combine_pos (combine_pos a b) c = combine_pos a (combine_pos b c) /\
  combine_pos a (combine_pos b c) = combine_pos a c.
Proof.
  intros Hle Hlt. split; [reflexivity|]. split; [|split].
  - unfold combine_pos. cbn [start sz].
    rewrite wrap64_small by (unfold in_size_t; lia). lia.
  - rewrite combine_pos_chain. reflexivity.
  - apply combine_pos_chain.
Qed.

Lemma combine_pos_covers_witness :
  combine_pos (mkPos 4096 3) (mkPos 4104 1) = mkPos 4096 9 /\
  combine_pos (combine_pos (mkPos 4096 3) (mkPos 4104 1)) (mkPos 4110 2)
  = combine_pos (mkPos 4096 3) (mkPos 4110 2).
Proof.
  destruct (combine_pos_covers (mkPos 4096 3) (mkPos 4104 1) (mkPos 4110 2))
    as (_ & _ & H1 & H2).
  - vm_compute. congruence.
  - reflexivity.
  - split; [reflexivity|]. rewrite H1. exact H2.
Defined.

(** ** The arena's chunks *)

Lemma chunk_mod_wrap x :
  x mod POOL_CHUNK_SZ = 0 -> wrap64 (x + POOL_CHUNK_SZ) mod POOL_CHUNK_SZ = 0.
Proof.
  intros H. unfold wrap64, SIZE_MOD, POOL_CHUNK_SZ in *.
  rewrite Z.mod_mod_divide by (exists (2 ^ 52); reflexivity).
  rewrite Z.add_mod, H by lia. reflexivity.
Qed.

(** What the loop of [size_needed] returns is a whole number of chunks. *)
Lemma size_needed_loop_chunks fuel : forall ret requested r,
  ret mod POOL_CHUNK_SZ = 0 ->
  size_needed_loop fuel ret requested = Done r ->
  r mod POOL_CHUNK_SZ = 0.
Proof.
  induction fuel as [|fuel IH]; intros ret requested r Hmod;
    cbn [size_needed_loop]; destruct (ret <? requested);
    try discriminate; try (intros [= <-]; exact Hmod).
  apply IH. now apply chunk_mod_wrap.
Qed.

(** The smallest whole number of chunks that holds [requested] bytes. *)
Lemma size_needed_chunks requested :
  0 <= requested <= SIZE_MOD - POOL_CHUNK_SZ ->
  size_needed requested
  = Done (POOL_CHUNK_SZ * ((requested + POOL_CHUNK_SZ - 1) / POOL_CHUNK_SZ)).
Proof.
  intros Hreq.
  destruct (size_needed_spec requested Hreq) as (r & E & Hlo & Hhi).
  rewrite E. f_equal.
  assert (Hmod : r mod POOL_CHUNK_SZ = 0).
  { unfold size_needed in E.
    eapply size_needed_loop_chunks; [|exact E]. reflexivity. }
  unfold POOL_CHUNK_SZ in *.
  pose proof (Z.div_mod r 4096 ltac:(lia)) as Hr.
  pose proof (Z.div_mod (requested + 4096 - 1) 4096 ltac:(lia)) as Hq.
  pose proof (Z.mod_pos_bound (requested + 4096 - 1) 4096 ltac:(lia)) as Hb.
  lia.
Qed.

(** X12.  For a request that leaves room for one more chunk below the
    largest [size_t], [size_needed] returns the request rounded up to a
    whole number of chunks: the smallest multiple of [POOL_CHUNK_SZ] that
    is not below the request, so nothing for a request of nothing. *)
Theorem size_needed_rounds_up (requested : Z) :
  0 <= requested <= SIZE_MOD - POOL_CHUNK_SZ ->
  exists r,
    size_needed requested = Done r /\
    r = POOL_CHUNK_SZ * ((requested + POOL_CHUNK_SZ - 1) / POOL_CHUNK_SZ) /\
    r mod POOL_CHUNK_SZ = 0 /\
    requested <= r < requested + POOL_CHUNK_SZ /\
    (forall r', r' mod POOL_CHUNK_SZ = 0 -> requested <= r' -> r <= r').
Proof.
  intros Hreq. eexists. split; [apply size_needed_chunks; exact Hreq|].
  split; [reflexivity|].
  unfold POOL_CHUNK_SZ in *.
  pose proof (Z.div_mod (requested + 4096 - 1) 4096 ltac:(lia)) as Hq.
  pose proof (Z.mod_pos_bound (requested + 4096 - 1) 4096 ltac:(lia)) as Hb.
  split; [|split].
  - rewrite Z.mul_comm. apply Z.mod_mul. lia.
  - lia.
  - intros r' Hmod Hle.
    pose proof (Z.div_mod r' 4096 ltac:(lia)) as Hr. lia.
Qed.

Lemma size_needed_rounds_up_witness :
  size_needed 5000 = Done 8192 /\ size_needed 4096 = Done 4096 /\
  size_needed 0 = Done 0.
Proof.
  assert (H : 0 <= 5000 <= SIZE_MOD - POOL_CHUNK_SZ)
    by (vm_compute; split; congruence).
  destruct (size_needed_rounds_up 5000 H) as (r & E & -> & _).
  split; [exact E|]. split; reflexivity.
Defined.

(** X13.  A request above the last multiple of the chunk size that a
    [size_t] holds is never reached by the counter of [size_needed], which
    wraps around to zero first: the loop does not end, whatever the bound
    on its rounds, and [mempool_alloc] does not return when such a request
    makes it grow the pool. *)
Theorem size_needed_never_returns
    (pool : MemPool) (amount : Z) (fuel : nat) :
  pool_ok pool ->
  SIZE_MOD - POOL_CHUNK_SZ < amount ->
  size pool + amount + 1 < SIZE_MOD ->
  size_needed_loop fuel 0 amount = NoFuel /\
  mempool_alloc pool amount = NoFuel.
Proof.
  intros [[Hs0 Hs] Ha] Hbig Hfit.
  assert (Hloop : forall n, size_needed_loop n 0 amount = NoFuel).
  { intros n. apply size_needed_loop_diverges; [exact Hbig | | reflexivity].
    unfold in_size_t, SIZE_MOD. lia. }
  split; [apply Hloop|].
  unfold mempool_alloc.
  rewrite (wrap64_small (size pool + amount + 1))
    by (unfold in_size_t; unfold SIZE_MOD, POOL_CHUNK_SZ in *; lia).
  replace (size pool + amount + 1 >=? alloc pool) with true.
  - unfold size_needed. rewrite Hloop. reflexivity.
  - symmetry. apply Z.geb_le.
    unfold SIZE_MOD, POOL_CHUNK_SZ, POOL_MAX_SZ in *. lia.
Qed.

Lemma size_needed_never_returns_witness :
  size_needed_loop 1000 0 (SIZE_MOD - 2) = NoFuel /\
  mempool_alloc pool0 (SIZE_MOD - 2) = NoFuel.
Proof.
  apply (size_needed_never_returns pool0 (SIZE_MOD - 2) 1000).
  - vm_compute; repeat split; congruence.
  - reflexivity.
  - reflexivity.
Defined.

(** ** The arena's system calls *)

Lemma tiled_app c1 : forall a c2,
  tiled a c1 -> tiled (a + committed c1) c2 -> tiled a (c1 ++ c2).
Proof.
  induction c1 as [|c c1 IH]; intros a c2 H1 H2; cbn [app committed] in *.
  - now rewrite Z.add_0_r in H2.
  - destruct c as [len | addr len | addr len]; cbn [tiled] in *.
    + destruct H1 as [Hlen H1]. split; [exact Hlen|]. now apply IH.
    + destruct H1 as (Ha & Hl0 & Hl & H1). repeat split; auto.
      apply IH; [exact H1|]. now rewrite <- Z.add_assoc.
    + contradiction.
Qed.

Lemma committed_app c1 c2 : committed (c1 ++ c2) = committed c1 + committed c2.
Proof.
  induction c1 as [|c c1 IH]; [reflexivity|].
  destruct c; cbn [app committed]; lia.
Qed.

(** One call either issues no system call or makes the chunks readable
    and writable that follow those that are. *)
Lemma mempool_alloc_calls pool amount p pool' calls :
  pool_ok pool ->
  alloc pool mod POOL_CHUNK_SZ = 0 ->
  request_ok amount ->
  mempool_alloc pool amount = Done (p, pool', calls) ->
  pool_ok pool' /\ base pool' = base pool /\
  alloc pool' mod POOL_CHUNK_SZ = 0 /\
  tiled (base pool + alloc pool) calls /\
  alloc pool + committed calls = alloc pool'.
Proof.
  intros Hok Hmod Hreq E.
  destruct (mempool_alloc_step pool amount Hok Hreq)
    as [E' | (pool1 & calls1 & E' & Hok1 & Hb & _)];
    rewrite E' in E; [discriminate|].
  injection E as _ <- <-. split; [exact Hok1|]. split; [exact Hb|].
  revert E'. unfold mempool_alloc.
  destruct (wrap64 (size pool + amount + 1) >=? alloc pool).
  - rewrite size_needed_chunks
      by (unfold request_ok, MAX_REQUEST, SIZE_MOD, POOL_MAX_SZ,
            POOL_CHUNK_SZ in *; lia).
    cbn [obind].
    set (needed := POOL_CHUNK_SZ * ((amount + POOL_CHUNK_SZ - 1)
                                    / POOL_CHUNK_SZ)).
    assert (Hn : needed mod POOL_CHUNK_SZ = 0).
    { unfold needed. rewrite Z.mul_comm. apply Z.mod_mul.
      unfold POOL_CHUNK_SZ. lia. }
    assert (Hn0 : 0 <= needed).
    { unfold needed. apply Z.mul_nonneg_nonneg; [unfold POOL_CHUNK_SZ; lia|].
      apply Z.div_pos; unfold request_ok, POOL_CHUNK_SZ in *; lia. }
    destruct (wrap64 (alloc pool + needed) >? POOL_MAX_SZ) eqn:E2;
      cbn [obind]; [discriminate|].
    intros [= <- <-]. cbn [alloc tiled committed].
    assert (Hsum : (alloc pool + needed) mod POOL_CHUNK_SZ = 0).
    { rewrite Z.add_mod, Hmod, Hn by (unfold POOL_CHUNK_SZ; lia).
      reflexivity. }
    destruct Hok as [[Hs0 Hs] Ha].
    destruct (Z.lt_ge_cases (alloc pool + needed) SIZE_MOD) as [Hlt | Hge].
    + rewrite (wrap64_small (alloc pool + needed)) in *
        by (unfold in_size_t; lia).
      repeat split; auto; lia.
    + exfalso. rewrite Z.gtb_ltb in E2. apply Z.ltb_ge in E2.
      destruct Hreq as [Hq0 Hq].
      assert (needed < amount + POOL_CHUNK_SZ).
      { unfold needed, POOL_CHUNK_SZ.
        pose proof (Z.div_mod (amount + 4096 - 1) 4096 ltac:(lia)).
        pose proof (Z.mod_pos_bound (amount + 4096 - 1) 4096 ltac:(lia)).
        lia. }
      unfold MAX_REQUEST, SIZE_MOD, POOL_MAX_SZ, POOL_CHUNK_SZ in *. lia.
  - cbn [obind]. intros [= <- <-]. cbn [alloc tiled committed].
    repeat split; auto; lia.
Qed.

Lemma mempool_allocs_calls amounts : forall pool regions pool' calls,
  pool_ok pool ->
  alloc pool mod POOL_CHUNK_SZ = 0 ->
  Forall request_ok amounts ->
  mempool_allocs pool amounts = Done (regions, pool', calls) ->
  pool_ok pool' /\ base pool' = base pool /\
  alloc pool' mod POOL_CHUNK_SZ = 0 /\
  tiled (base pool + alloc pool) calls /\
  alloc pool + committed calls = alloc pool'.
Proof.
  induction amounts as [|amount rest IH];
    intros pool regions pool' calls Hok Hmod Hreq; cbn [mempool_allocs].
  - intros [= <- <- <-]. cbn [tiled committed].
    split; [exact Hok|]. repeat split; auto; lia.
  - inversion Hreq as [|? ? Ha Hrest]; subst.
    destruct (mempool_alloc pool amount) as [[[p pool1] calls1]| | |] eqn:E1;
      cbn [obind]; try discriminate.
    destruct (mempool_allocs pool1 rest) as [[[rs pool2] calls2]| | |] eqn:E2;
      cbn [obind]; try discriminate.
    intros [= <- <- <-].
    destruct (mempool_alloc_calls pool amount p pool1 calls1 Hok Hmod Ha E1)
      as (Hok1 & Hb1 & Hmod1 & Ht1 & Hc1).
    destruct (IH pool1 rs pool2 calls2 Hok1 Hmod1 Hrest E2)
      as (Hok2 & Hb2 & Hmod2 & Ht2 & Hc2).
    split; [exact Hok2|]. split; [congruence|]. split; [exact Hmod2|].
    split.
    + apply tiled_app; [exact Ht1|].
      rewrite <- Z.add_assoc, Hc1, <- Hb1. exact Ht2.
    + rewrite committed_app. lia.
Qed.

(** X14.  From [mempool_init] on, through any sequence of requests none
    of which exceeds [MAX_REQUEST], the system calls of the arena are the
    one [mmap] of [POOL_MAX_SZ] bytes and [mprotect] calls only; these
    make whole chunks readable and writable, each starting where the
    previous one ended, from the start of the mapping on, so every address
    passed is a whole number of chunks from the mapping; together they
    cover exactly the [alloc] bytes the pool counts, which stay within the
    mapping. *)
Theorem mempool_session_calls
    (mmap_ret mprotect_ret : Z) (amounts : list Z)
    (regions : list Region) (pool' : MemPool) (calls : list SysCall) :
  Forall request_ok amounts ->
  mempool_session mmap_ret mprotect_ret amounts
  = Done (regions, pool', calls) ->
  base pool' = mmap_ret /\
  tiled mmap_ret calls /\
  committed calls = alloc pool' /\
  alloc pool' mod POOL_CHUNK_SZ = 0 /\
  size pool' < alloc pool' <= POOL_MAX_SZ.
Proof.
  intros Hreq. unfold mempool_session, mempool_init.
  destruct (mmap_ret =? MAP_FAILED); cbn [obind]; [discriminate|].
  destruct (mprotect_ret =? -1); cbn [obind]; [discriminate|].
  set (pool := {| base := mmap_ret; size := 0; alloc := POOL_CHUNK_SZ |}).
  destruct (mempool_allocs pool amounts) as [[[rs pool1] calls1]| | |] eqn:E;
    cbn [obind]; try discriminate.
  intros [= <- <- <-].
  assert (Hok : pool_ok pool) by (vm_compute; repeat split; congruence).
  destruct (mempool_allocs_calls amounts pool rs pool1 calls1 Hok
              ltac:(reflexivity) Hreq E) as (Hok1 & Hb & Hmod & Ht & Hc).
  cbn [pool base alloc] in *.
  split; [exact Hb|]. split; [|split; [|split; [exact Hmod|]]].
  - cbn [app tiled]. split; [reflexivity|].
    split; [reflexivity|]. split; [unfold POOL_CHUNK_SZ; lia|].
    split; [reflexivity | exact Ht].
  - cbn [app committed]. exact Hc.
  - destruct Hok1 as [[_ Hs] Ha]. split; [exact Hs | exact Ha].
Qed.

Lemma mempool_session_calls_witness :
  mempool_session 65536 0 [16; 5000; 4]
  = Done ([(65536, 16); (65552, 5000); (70552, 4)],
          mkPool 65536 5020 12288,
          [Mmap POOL_MAX_SZ; Mprotect 65536 4096; Mprotect 69632 8192]) /\
  tiled 65536 [Mmap POOL_MAX_SZ; Mprotect 65536 4096; Mprotect 69632 8192].
Proof.
  assert (E : mempool_session 65536 0 [16; 5000; 4]
              = Done ([(65536, 16); (65552, 5000); (70552, 4)],
                      mkPool 65536 5020 12288,
                      [Mmap POOL_MAX_SZ; Mprotect 65536 4096;
                       Mprotect 69632 8192])) by reflexivity.
  split; [exact E|].
  apply (mempool_session_calls 65536 0 [16; 5000; 4] _ _ _
           ltac:(repeat constructor; vm_compute; congruence) E).
Defined.

(** ** Diagnostics on other lines *)

(** The backward scan over bytes that are not newlines, when [base] is
    not among the addresses it passes. *)
Lemma scan_back_skips seg : forall rest p base,
  Forall (fun c => c <> CH_NL) seg ->
  base <= p - Z.of_nat (List.length seg) \/ p < base ->
  scan_back (seg ++ rest) p base
  = scan_back rest (p - Z.of_nat (List.length seg)) base.
Proof.
  induction seg as [|c seg IH]; intros rest p base Hseg Hbase.
  - cbn [app List.length]. now rewrite Z.sub_0_r.
  - inversion Hseg as [|? ? Hc Hseg']; subst.
    cbn [app scan_back List.length] in *.
    destruct (p =? base) eqn:E; [apply Z.eqb_eq in E; lia|].
    destruct (c =? CH_NL) eqn:E2; [apply Z.eqb_eq in E2; contradiction|].
    rewrite IH by (auto; lia). f_equal. lia.
Qed.

(** Where the backward scan can stop: not before the start of the line. *)
Lemma scan_back_bounds seg : forall rest p base q,
  Forall (fun c => c <> CH_NL) seg ->
  rest = [] \/ (exists rest', rest = CH_NL :: rest') ->
  scan_back (seg ++ rest) p base = Some q ->
  p - Z.of_nat (List.length seg) - 1 <= q <= p - 1.
Proof.
  induction seg as [|c seg IH]; intros rest p base q Hseg Hrest.
  - cbn [app List.length]. destruct Hrest as [-> | [rest' ->]];
      cbn [scan_back]; destruct (p =? base).
    + intros [= <-]. lia.
    + discriminate.
    + intros [= <-]. lia.
    + rewrite Z.eqb_refl. intros [= <-]. lia.
  - inversion Hseg as [|? ? Hc Hseg']; subst.
    cbn [app scan_back List.length].
    destruct (p =? base); [intros [= <-]; lia|].
    destruct (c =? CH_NL) eqn:E2; [apply Z.eqb_eq in E2; contradiction|].
    intros H. apply IH in H; auto. lia.
Qed.

(** The forward loop runs off the object when no newline is left. *)
Lemma put_line_no_newline l :
  Forall (fun c => c <> CH_NL) l -> put_line l = None.
Proof.
  induction 1 as [|c l Hc _ IH]; [reflexivity|].
  cbn [put_line].
  destruct (c =? CH_NL) eqn:E; [apply Z.eqb_eq in E; contradiction|].
  now rewrite IH.
Qed.

Lemma Forall_skipn_keep {A} (P : A -> Prop) k l :
  Forall P l -> Forall P (skipn k l).
Proof.
  intros H. rewrite <- (firstn_skipn k l) in H.
  now apply Forall_app in H.
Qed.

(** X15.  For a message without conversions and a position on a line
    that follows a newline and ends in one, [log_source_err] renders the
    message and the whole line whatever the [base] it is given, as long as
    [base] is not an address between the start of the line and the
    position: so also with the null [base] the parser's file-scope pointer
    holds while a source is parsed. *)
Theorem log_source_err_after_newline
    (m : Buffer) (err0 out0 : list Z) (text : string) (b : Z)
    (p : SourcePosition) (pre line post : list Z) :
  verbatim text ->
  buf_bytes m = pre ++ CH_NL :: line ++ CH_NL :: post ->
  Forall (fun c => c <> CH_NL) line ->
  buf_addr m + Z.of_nat (List.length pre) + 1 <= start p
    <= buf_addr m + Z.of_nat (List.length pre) + 1
       + Z.of_nat (List.length line) ->
  b <= buf_addr m + Z.of_nat (List.length pre) + 1 \/ start p < b ->
  log_source_err m err0 out0 (Plain text) b p
  = Some {| err_stream := err0 ++ diag_text (bytes_of_string text) line;
            out_stream := out0;
            exit_status := EXIT_FAILURE |}.
Proof.
  intros Htext Hbuf Hline [Hlo Hhi] Hb.
  unfold log_source_err. rewrite (vfprintf_verbatim m text Htext).
  set (s := buf_addr m + Z.of_nat (List.length pre) + 1) in *.
  set (k := Z.to_nat (start p - s)).
  assert (Hk : (k <= List.length line)%nat) by lia.
  assert (Hlen : buf_len m
                 = Z.of_nat (List.length pre) + 1
                   + Z.of_nat (List.length line) + 1
                   + Z.of_nat (List.length post)).
  { unfold buf_len. rewrite Hbuf, !length_app. cbn [List.length].
    rewrite length_app. cbn [List.length]. lia. }
  assert (Hbefore : bytes_before m (start p)
                    = rev (firstn k line) ++ CH_NL :: rev pre).
  { unfold bytes_before.
    destruct (buf_addr m <=? start p) eqn:E1; [|apply Z.leb_gt in E1; lia].
    destruct (start p <=? buf_addr m + buf_len m) eqn:E2;
      [|apply Z.leb_gt in E2; lia].
    cbn [andb]. rewrite Hbuf.
    replace (pre ++ CH_NL :: line ++ CH_NL :: post)
      with ((pre ++ [CH_NL]) ++ line ++ CH_NL :: post)
      by (now rewrite <- app_assoc).
    replace (Z.to_nat (start p - buf_addr m))
      with (List.length (pre ++ [CH_NL]) + k)%nat
      by (rewrite length_app; cbn [List.length]; lia).
    rewrite firstn_app_2, rev_app_distr.
    rewrite firstn_app.
    replace (k - List.length line)%nat with 0%nat by lia.
    rewrite firstn_O, app_nil_r, rev_app_distr. reflexivity. }
  rewrite Hbefore.
  assert (Hscan : scan_back (rev (firstn k line) ++ CH_NL :: rev pre)
                    (start p) b
                  = Some (s - 1)).
  { rewrite scan_back_skips.
    - rewrite length_rev, length_firstn.
      replace (start p - Z.of_nat (Nat.min k (List.length line)))
        with s by lia.
      cbn [scan_back]. rewrite Z.eqb_refl.
      now destruct (s =? b).
    - apply Forall_rev. now apply Forall_firstn_keep.
    - rewrite length_rev, length_firstn. lia. }
  rewrite Hscan.
  assert (Hat : bytes_at m (s - 1 + 1) = line ++ CH_NL :: post).
  { unfold bytes_at.
    destruct (buf_addr m <=? _) eqn:E1; [|apply Z.leb_gt in E1; lia].
    destruct (_ <? buf_addr m + buf_len m) eqn:E2;
      [|apply Z.ltb_ge in E2; lia].
    cbn [andb]. rewrite Hbuf.
    replace (pre ++ CH_NL :: line ++ CH_NL :: post)
      with ((pre ++ [CH_NL]) ++ line ++ CH_NL :: post)
      by (now rewrite <- app_assoc).
    replace (Z.to_nat _) with (List.length (pre ++ [CH_NL]) + 0)%nat
      by (rewrite length_app; cbn [List.length]; lia).
    now rewrite skipn_app, Nat.add_0_r, skipn_all, Nat.sub_diag. }
  rewrite Hat, put_line_segment by exact Hline.
  unfold diag_text. reflexivity.
Qed.

Lemma log_source_err_after_newline_witness :
  log_source_err buf_two_lines [] [] (Plain "expected ')'") NULL
    (mkPos 4101 1)
  = Some {| err_stream :=
              [] ++ diag_text (bytes_of_string "expected ')'")
                      (bytes_of_string "g(");
            out_stream := [];
            exit_status := EXIT_FAILURE |}.
Proof.
  apply (log_source_err_after_newline buf_two_lines [] [] "expected ')'"
           NULL (mkPos 4101 1) (bytes_of_string "f()")
           (bytes_of_string "g(") []).
  - repeat constructor; vm_compute; congruence.
  - reflexivity.
  - repeat constructor; vm_compute; congruence.
  - vm_compute. split; congruence.
  - left. vm_compute. congruence.
Defined.

(** X16.  For a position on a line that no newline ends, the last line of
    a source without a final newline, [log_source_err] is undefined
    whatever the message and the [base]: its forward loop stops at a
    newline only and reads beyond the end of the buffer. *)
Theorem log_source_err_unterminated_line
    (m : Buffer) (err0 out0 : list Z) (msg : Msg) (b : Z)
    (p : SourcePosition) (pre line : list Z) :
  buf_bytes m = pre ++ line ->
  line_start pre ->
  Forall (fun c => c <> CH_NL) line ->
  buf_addr m + Z.of_nat (List.length pre) <= start p
    <= buf_addr m + Z.of_nat (List.length pre) + Z.of_nat (List.length line) ->
  log_source_err m err0 out0 msg b p = None.
Proof.
  intros Hbuf Hpre Hline [Hlo Hhi].
  unfold log_source_err.
  destruct (vfprintf m msg) as [text|]; [|reflexivity].
  set (k := Z.to_nat (start p - buf_addr m - Z.of_nat (List.length pre))).
  assert (Hk : (k <= List.length line)%nat) by lia.
  assert (Hlen : buf_len m
                 = Z.of_nat (List.length pre) + Z.of_nat (List.length line)).
  { unfold buf_len. rewrite Hbuf, !length_app. lia. }
  assert (Hbefore : bytes_before m (start p) = rev (firstn k line) ++ rev pre).
  { unfold bytes_before.
    destruct (buf_addr m <=? start p) eqn:E1; [|apply Z.leb_gt in E1; lia].
    destruct (start p <=? buf_addr m + buf_len m) eqn:E2;
      [|apply Z.leb_gt in E2; lia].
    cbn [andb]. rewrite Hbuf.
    replace (Z.to_nat (start p - buf_addr m)) with (List.length pre + k)%nat
      by lia.
    rewrite firstn_app_2, rev_app_distr. reflexivity. }
  rewrite Hbefore.
  destruct (scan_back _ (start p) b) as [q|] eqn:Hscan; [|reflexivity].
  apply scan_back_bounds in Hscan.
  - rewrite length_rev, length_firstn in Hscan.
    replace (put_line (bytes_at m (q + 1))) with (@None (list Z));
      [reflexivity|].
    symmetry. unfold bytes_at.
    destruct ((buf_addr m <=? q + 1) && (q + 1 <? buf_addr m + buf_len m));
      [|reflexivity].
    apply put_line_no_newline. rewrite Hbuf.
    replace (Z.to_nat (q + 1 - buf_addr m))
      with (List.length pre + Z.to_nat (q + 1 - buf_addr m
                                        - Z.of_nat (List.length pre)))%nat
      by lia.
    rewrite skipn_app, skipn_all2 by lia.
    cbn [app].
    replace (_ + _ - _)%nat
      with (Z.to_nat (q + 1 - buf_addr m - Z.of_nat (List.length pre)))
      by lia.
    now apply Forall_skipn_keep.
  - apply Forall_rev. now apply Forall_firstn_keep.
  - destruct Hpre as [-> | [pre' ->]]; [now left|right].
    rewrite rev_app_distr. cbn [rev app]. eauto.
Qed.

Lemma log_source_err_unterminated_line_witness :
  log_source_err (mkBuffer 4096 (bytes_of_string "f()")) [] []
    (Plain "expected function name") 4096 (mkPos 4097 1) = None.
Proof.
  apply (log_source_err_unterminated_line
           (mkBuffer 4096 (bytes_of_string "f()")) [] []
           (Plain "expected function name") 4096 (mkPos 4097 1)
           [] (bytes_of_string "f()")).
  - reflexivity.
  - now left.
  - repeat constructor; vm_compute; congruence.
  - vm_compute. split; congruence.
Defined.

(** * Runs of the expression functions *)

Lemma bind_next {A} (f : Token -> M A) st :
  bind lexer_next f st = f (peek_token st) (with_toks st (tl (toks st))).
Proof. reflexivity. Qed.

Lemma bind_peek {A} (f : Token -> M A) st :
  bind lexer_peek f st = f (peek_token st) st.
Proof. reflexivity. Qed.

Lemma bind_expect {A} k msg (f : Token -> M A) st :
  bind (expect k msg) f st
  = if TokKind_beq (t (peek_token st)) k
    then f (peek_token st) (with_toks st (tl (toks st)))
    else Abort (SourceErr (Plain msg) (src_base st) (pos (peek_token st))).
Proof.
  unfold expect. unfold bind at 1 2. cbn [lexer_next].
  now destruct (TokKind_beq (t (peek_token st)) k).
Qed.

Lemma bind_binop {A} (f : BinOp -> M A) st :
  bind parse_binop f st
  = match binop_of (t (peek_token st)) with
    | Some op => f op (with_toks st (tl (toks st)))
    | None => Abort (InternalErr "impossible binary op token %d")
    end.
Proof.
  unfold parse_binop. unfold bind at 1 2. cbn [lexer_next].
  now destruct (binop_of (t (peek_token st))).
Qed.

(** A token that is not the end of file is in the list. *)
Lemma next_shorter st :
  t (peek_token st) <> TOK_EOF ->
  (List.length (tl (toks st)) + 1 <= List.length (toks st))%nat.
Proof.
  intros H. rewrite (peek_token_cons st H) at 2. cbn [List.length]. lia.
Qed.

Lemma tl_shorter {A} (l : list A) :
  (List.length (tl l) <= List.length l)%nat.
Proof. destruct l; cbn; lia. Qed.

Lemma moved_refl st : moved st st.
Proof. split; [apply same_env_refl | now exists []]. Qed.

Lemma moved_next st : moved st (with_toks st (tl (toks st))).
Proof.
  split; [apply same_env_next|]. cbn [with_toks toks].
  destruct (toks st) as [|tok rest]; [now exists [] | now exists [tok]].
Qed.

Lemma moved_trans st st1 st2 : moved st st1 -> moved st1 st2 -> moved st st2.
Proof.
  intros [H1 [u1 E1]] [H2 [u2 E2]]. split; [eapply same_env_trans; eauto|].
  exists (u1 ++ u2). now rewrite E1, E2, app_assoc.
Qed.

Lemma moved_src_base st st' : moved st st' -> src_base st' = src_base st.
Proof. intros [H _]. rewrite H. reflexivity. Qed.

Lemma peek_token_pos st : token_pos st (pos (peek_token st)).
Proof.
  unfold token_pos, peek_token.
  destruct (toks st) as [|tok rest]; [now left | right; now left].
Qed.

Lemma token_pos_moved st st' p :
  moved st st' -> token_pos st' p -> token_pos st p.
Proof.
  intros [Henv [used E]] [-> | Hin]; [left | right].
  - rewrite Henv. reflexivity.
  - rewrite E, map_app. apply in_or_app. now right.
Qed.

Lemma pos_to_num_loop_ends avail : forall i n acc,
  (exists r, pos_to_num_loop avail i n acc = Done r) \/
  pos_to_num_loop avail i n acc = Undef.
Proof.
  induction avail as [|c rest IH]; intros i n acc; cbn [pos_to_num_loop].
  - destruct (i <? n); eauto.
  - destruct (i <? n); [|eauto].
    destruct (builtin_add_overflow acc (c - CH_0)) as [o r].
    destruct o; cbn [negb]; [apply IH | eauto].
Qed.

(** How [make_intlit_expr] can end. *)
Lemma make_intlit_expr_ends m b cell p ty :
  match make_intlit_expr m b cell p ty with
  | Done _ => True
  | Abort d => exists prec str q, d = SourceErr (OverflowOn prec str) b q
  | Undef => True
  | NoFuel => False
  end.
Proof.
  unfold make_intlit_expr, pos_to_num.
  destruct (pos_to_num_loop_ends (bytes_at m (start (digits_pos p ty))) 0
              (sz (digits_pos p ty)) cell) as [[[rc v] ->] | ->];
    cbn [obind]; [|exact I].
  destruct (rc =? 0); eauto.
Qed.

Section RunLemmas.

Variable b : Z.
Variable msgs : list string.

Lemma diag_ok_env st st' d :
  moved st st' -> diag_ok b msgs st' d -> diag_ok b msgs st d.
Proof.
  intros H [(text & p & -> & Hin & Hp) | Ho]; [left|now right].
  exists text, p. rewrite (moved_src_base _ _ H).
  split; [reflexivity|]. split; [exact Hin|].
  exact (token_pos_moved _ _ _ H Hp).
Qed.

(** A run from a later state, seen from the state the function was
    entered in. *)
Lemma run_ok_later {A} k1 r1 n1 st1 (res : Outcome (A * PState)) k r n st j :
  run_ok b msgs k1 r1 n1 st1 res ->
  moved st st1 ->
  (List.length (toks st1) + j <= List.length (toks st))%nat ->
  (k <= k1 + j)%nat ->
  (n1 < 4 * List.length (toks st1) + r1 ->
   n < 4 * List.length (toks st) + r)%nat ->
  run_ok b msgs k r n st res.
Proof.
  intros H Henv Hj Hk Hn. destruct res as [[a st']|d| |]; cbn [run_ok] in *.
  - destruct H as [H1 H2]. split; [exact (moved_trans _ _ _ Henv H1)|].
    lia.
  - eapply diag_ok_env; eauto.
  - exact I.
  - auto.
Qed.

Lemma run_ok_bind {A B} (c : M A) (f : A -> M B) st0 st k r n k1 r1 n1 :
  moved st0 st ->
  run_ok b msgs k1 r1 n1 st (c st) ->
  (n1 < 4 * List.length (toks st) + r1 ->
   n < 4 * List.length (toks st0) + r)%nat ->
  (forall a st1,
      moved st st1 ->
      (List.length (toks st1) + k1 <= List.length (toks st))%nat ->
      run_ok b msgs k r n st0 (f a st1)) ->
  run_ok b msgs k r n st0 (bind c f st).
Proof.
  intros Henv H Hn Hf. unfold bind.
  destruct (c st) as [[a st1]|d| |]; cbn [run_ok] in *.
  - destruct H as [H1 H2]. now apply Hf.
  - eapply diag_ok_env; eauto.
  - exact I.
  - auto.
Qed.

Lemma run_ok_ret {A} (a : A) st0 st k r n :
  moved st0 st ->
  (List.length (toks st) + k <= List.length (toks st0))%nat ->
  run_ok b msgs k r n st0 (ret a st).
Proof. intros H1 H2. cbn [run_ok ret]. now split. Qed.

(** A diagnostic at the token the lexer is at in [st']. *)
Lemma run_ok_err {A} text st0 st st' k r n :
  moved st0 st ->
  moved st0 st' ->
  In text msgs ->
  run_ok (A := A) b msgs k r n st0
    (Abort (SourceErr (Plain text) (src_base st) (pos (peek_token st')))).
Proof.
  intros H H' Hin. cbn [run_ok]. left.
  exists text, (pos (peek_token st')).
  rewrite (moved_src_base _ _ H).
  split; [reflexivity|]. split; [exact Hin|].
  exact (token_pos_moved _ _ _ H' (peek_token_pos st')).
Qed.

End RunLemmas.

Lemma is_mulop_binop k :
  is_mulop k = true -> k <> TOK_EOF /\ exists op, binop_of k = Some op.
Proof. destruct k; cbn; try discriminate; split; try discriminate; eauto. Qed.

Lemma is_addop_binop k :
  is_addop k = true -> k <> TOK_EOF /\ exists op, binop_of k = Some op.
Proof. destruct k; cbn; try discriminate; split; try discriminate; eauto. Qed.

Lemma is_compop_binop k :
  is_compop k = true -> k <> TOK_EOF /\ exists op, binop_of k = Some op.
Proof. destruct k; cbn; try discriminate; split; try discriminate; eauto. Qed.

Section ExprRuns.

Variable m : Buffer.
Variable b : Z.

(** One round of an operator loop: the operator, the operand [operand]
    one level down and the loop [loop] again. *)
Lemma loop_round_ok (is_op : TokKind -> bool)
    (operand : M Expr) (loop : Expr -> M Expr) n rank e st :
  (forall k, is_op k = true ->
             k <> TOK_EOF /\ exists op, binop_of k = Some op) ->
  (rank <= 3)%nat ->
  (forall st1, run_ok b EXPR_MSGS 1 rank n st1 (operand st1)) ->
  (forall e1 st1, run_ok b EXPR_MSGS 0 1 n st1 (loop e1 st1)) ->
  run_ok b EXPR_MSGS 0 1 (S n) st
    ((tok <- lexer_peek ;;
      if is_op (t tok) then
        op <- parse_binop ;;
        right <- operand ;;
        loop (make_binop e right op)
      else ret e) st).
Proof.
  intros Hop Hrank Hoperand Hloop. rewrite bind_peek.
  destruct (is_op (t (peek_token st))) eqn:E.
  - destruct (Hop _ E) as (Hk & op & Hb).
    rewrite bind_binop, Hb.
    pose proof (next_shorter st Hk) as Hlen.
    set (st1 := with_toks st (tl (toks st))) in *.
    apply (run_ok_bind b EXPR_MSGS operand _ st st1 0 1 (S n) 1 rank n).
    + apply moved_next.
    + apply Hoperand.
    + cbn [st1 with_toks toks]. lia.
    + intros right st2 Henv2 Hlen2.
      apply (run_ok_later b EXPR_MSGS 0 1 n st2 _ 0 1 (S n) st 2).
      * apply Hloop.
      * apply (moved_trans _ st1); [apply moved_next | exact Henv2].
      * cbn [st1 with_toks toks] in Hlen2. lia.
      * lia.
      * cbn [st1 with_toks toks] in Hlen2. lia.
  - apply run_ok_ret; [apply moved_refl | lia].
Qed.

(** A function of one level: the operand one level down, then the loop. *)
Lemma level_ok (operand : M Expr) (loop : Expr -> M Expr) n rank st :
  (forall st1, run_ok b EXPR_MSGS 1 rank n st1 (operand st1)) ->
  (forall e1 st1, run_ok b EXPR_MSGS 0 1 n st1 (loop e1 st1)) ->
  (1 <= rank)%nat ->
  run_ok b EXPR_MSGS 1 (S rank) (S n) st ((e <- operand ;; loop e) st).
Proof.
  intros Hoperand Hloop Hrank.
  apply (run_ok_bind b EXPR_MSGS operand _ st st 1 (S rank) (S n) 1 rank n).
  - apply moved_refl.
  - apply Hoperand.
  - lia.
  - intros e st1 Henv1 Hlen1.
    apply (run_ok_later b EXPR_MSGS 0 1 n st1 _ 1 (S rank) (S n) st 1).
    + apply Hloop.
    + exact Henv1.
    + exact Hlen1.
    + lia.
    + lia.
Qed.

Lemma expr_runs n : expr_runs_ok b m n.
Proof.
  induction n as [|n (R1 & R2 & R3 & R4 & R5 & R6 & R7 & R8 & R9)].
  - unfold expr_runs_ok. repeat split; intros; cbn; lia.
  - unfold expr_runs_ok. repeat apply conj.
    + (* parse_primary *)
      intros st. rewrite parse_primary_S, bind_next.
      set (st1 := with_toks st (tl (toks st))).
      assert (Henv1 : moved st st1) by apply moved_next.
      destruct (t (peek_token st)) eqn:Hk;
        try (apply run_ok_err; [exact Henv1 | apply moved_refl | cbn; auto]).
      * (* TOK_INT *)
        unfold lift.
        pose proof (make_intlit_expr_ends m b FRESH_CELL
                      (pos (peek_token st)) (intlit_type (peek_token st)))
          as H.
        destruct (make_intlit_expr _ _ _ _ _) as [e|d| |];
          cbn [obind run_ok].
        -- split; [exact Henv1|]. apply next_shorter. congruence.
        -- right. exact H.
        -- exact I.
        -- contradiction.
      * (* TOK_SYM *)
        assert (Hlen : (List.length (toks st1) + 1
                        <= List.length (toks st))%nat)
          by (apply next_shorter; congruence).
        rewrite bind_peek.
        destruct (TokKind_beq (t (peek_token st1)) TOK_LPAREN) eqn:E.
        -- apply TokKind_beq_eq in E.
           apply (run_ok_later b EXPR_MSGS 1 2 n st1 _ 1 1 (S n) st 1).
           ++ now apply R2.
           ++ exact Henv1.
           ++ exact Hlen.
           ++ lia.
           ++ lia.
        -- apply run_ok_ret; [exact Henv1 | exact Hlen].
      * (* TOK_LPAREN *)
        assert (Hlen : (List.length (toks st1) + 1
                        <= List.length (toks st))%nat)
          by (apply next_shorter; congruence).
        apply (run_ok_bind b EXPR_MSGS (parse_comp m b n) _ st st1
                 1 1 (S n) 1 4 n).
        -- exact Henv1.
        -- apply R8.
        -- lia.
        -- intros e st2 Henv2 Hlen2. rewrite bind_expect.
           assert (Henv : moved st st2)
             by exact (moved_trans _ _ _ Henv1 Henv2).
           destruct (TokKind_beq _ TOK_RPAREN).
           ++ apply run_ok_ret.
              ** exact (moved_trans _ _ _ Henv (moved_next _)).
              ** pose proof (tl_shorter (toks st2)).
                 cbn [with_toks toks]. lia.
           ++ apply run_ok_err; [exact Henv | exact Henv | cbn; auto].
    + (* parse_funcall *)
      intros tk st Hlp. rewrite parse_funcall_S, bind_next.
      set (st1 := with_toks st (tl (toks st))).
      assert (Henv1 : moved st st1) by apply moved_next.
      assert (Hlen : (List.length (toks st1) + 1
                      <= List.length (toks st))%nat)
        by (apply next_shorter; congruence).
      apply (run_ok_bind b EXPR_MSGS (parse_funcall_loop m b n []) _ st st1
               1 2 (S n) 0 5 n).
      * exact Henv1.
      * apply R3.
      * lia.
      * intros args st2 Henv2 Hlen2. rewrite bind_expect.
        assert (Henv : moved st st2)
          by exact (moved_trans _ _ _ Henv1 Henv2).
        destruct (TokKind_beq _ TOK_RPAREN).
        -- apply run_ok_ret.
           ++ exact (moved_trans _ _ _ Henv (moved_next _)).
           ++ pose proof (tl_shorter (toks st2)).
              cbn [with_toks toks]. lia.
        -- apply run_ok_err; [exact Henv | exact Henv | cbn; auto].
    + (* parse_funcall_loop *)
      intros args st. rewrite parse_funcall_loop_S, bind_peek.
      destruct (TokKind_beq _ TOK_RPAREN).
      * apply run_ok_ret; [apply moved_refl | lia].
      * apply (run_ok_bind b EXPR_MSGS (parse_comp m b n) _ st st
                 0 5 (S n) 1 4 n).
        -- apply moved_refl.
        -- apply R8.
        -- lia.
        -- intros temp st1 Henv1 Hlen1. rewrite bind_peek.
           destruct (negb _).
           ++ apply run_ok_ret; [exact Henv1 | lia].
           ++ rewrite bind_next.
              pose proof (tl_shorter (toks st1)) as Htl.
              apply (run_ok_later b EXPR_MSGS 0 5 n
                       (with_toks st1 (tl (toks st1))) _ 0 5 (S n) st 1).
              ** apply R3.
              ** exact (moved_trans _ _ _ Henv1 (moved_next _)).
              ** cbn [with_toks toks]. lia.
              ** lia.
              ** cbn [with_toks toks]. lia.
    + (* parse_factor *)
      intros st. rewrite parse_factor_S.
      apply (level_ok (parse_primary m b n) (parse_factor_loop m b n) n 1);
        auto.
    + (* parse_factor_loop *)
      intros e st. rewrite parse_factor_loop_S.
      apply (loop_round_ok is_mulop (parse_primary m b n)
               (parse_factor_loop m b n) n 1);
        auto using is_mulop_binop.
    + (* parse_term *)
      intros st. rewrite parse_term_S.
      apply (level_ok (parse_factor m b n) (parse_term_loop m b n) n 2);
        auto.
    + (* parse_term_loop *)
      intros e st. rewrite parse_term_loop_S.
      apply (loop_round_ok is_addop (parse_factor m b n)
               (parse_term_loop m b n) n 2);
        auto using is_addop_binop.
    + (* parse_comp *)
      intros st. rewrite parse_comp_S.
      apply (level_ok (parse_term m b n) (parse_comp_loop m b n) n 3);
        auto.
    + (* parse_comp_loop *)
      intros e st. rewrite parse_comp_loop_S.
      apply (loop_round_ok is_compop (parse_term m b n)
               (parse_comp_loop m b n) n 3);
        auto using is_compop_binop.
Qed.

End ExprRuns.

(** * Runs of the statement and function parsers *)

Lemma bind_parse_type {A} (f : TypeConst -> M A) st :
  bind parse_type f st
  = match type_const_of (t (peek_token st)) with
    | Some ty => f ty (with_toks st (tl (toks st)))
    | None =>
        Abort (SourceErr (Plain "expected type name") (src_base st)
                 (pos (peek_token st)))
    end.
Proof.
  unfold parse_type. unfold bind at 1 2. cbn [lexer_next].
  now destruct (type_const_of (t (peek_token st))).
Qed.

Lemma type_const_of_token k ty : type_const_of k = Some ty -> k <> TOK_EOF.
Proof. destruct k; cbn; congruence. Qed.

Lemma run_ok_msgs {A} b msgs msgs' k r n st (res : Outcome (A * PState)) :
  incl msgs msgs' -> run_ok b msgs k r n st res -> run_ok b msgs' k r n st res.
Proof.
  intros Hincl. destruct res as [[a st']|d| |]; cbn [run_ok]; auto.
  intros [(text & p & -> & Hin & Hp) | Ho]; [left|now right].
  exists text, p. split; [reflexivity|]. split; [now apply Hincl | exact Hp].
Qed.

Lemma expr_msgs_incl : incl EXPR_MSGS PARSER_MSGS.
Proof. unfold PARSER_MSGS. apply incl_appl, incl_refl. Qed.

(** The lexer moves on by one token: the state it reaches, by name. *)
Ltac next_state st st1 Hlen Henv :=
  assert (Hlen : (List.length (toks (with_toks st (tl (toks st))))
                  <= List.length (toks st))%nat)
    by (cbn [with_toks toks]; apply tl_shorter);
  assert (Henv : moved st (with_toks st (tl (toks st))))
    by apply moved_next;
  set (st1 := with_toks st (tl (toks st))) in *;
  clearbody st1.

(** The same when the token passed is known not to be the end of file. *)
Ltac next_state_token st st1 Hk Hlen Henv :=
  assert (Hlen : (List.length (toks (with_toks st (tl (toks st)))) + 1
                  <= List.length (toks st))%nat)
    by (cbn [with_toks toks]; apply next_shorter; rewrite Hk; discriminate);
  assert (Henv : moved st (with_toks st (tl (toks st))))
    by apply moved_next;
  set (st1 := with_toks st (tl (toks st))) in *;
  clearbody st1.

Ltac err_msg :=
  apply run_ok_err;
  [eauto using moved_refl, moved_trans
  | eauto using moved_refl, moved_trans
  | unfold PARSER_MSGS, EXPR_MSGS; cbn; tauto].

Section StmtRuns.

Variable m : Buffer.
Variable b : Z.

Lemma parse_expr_run n st :
  run_ok b PARSER_MSGS 1 4 n st (parse_expr m b n st).
Proof.
  apply (run_ok_msgs b EXPR_MSGS); [apply expr_msgs_incl|].
  apply (expr_runs m b n).
Qed.

(** An expression and the newline that ends its statement. *)
Lemma expr_newline_ok {A} (f : Expr -> Token -> A) n st0 st :
  moved st0 st ->
  (List.length (toks st) + 1 <= List.length (toks st0))%nat ->
  run_ok b PARSER_MSGS 1 4 n st0
    ((value <- parse_expr m b n ;;
      last_tok <- expect TOK_NEWLINE "expected newline or ';'" ;;
      ret (f value last_tok)) st).
Proof.
  intros Henv Hlen.
  apply (run_ok_bind b PARSER_MSGS (parse_expr m b n) _ st0 st
           1 4 n 1 4 n).
  - exact Henv.
  - apply parse_expr_run.
  - lia.
  - intros value st1 Henv1 Hlen1. rewrite bind_expect.
    destruct (TokKind_beq _ TOK_NEWLINE); [|err_msg].
    next_state st1 st2 Hlen2 Henv2.
    apply run_ok_ret; [|lia].
    eauto using moved_trans.
Qed.

Lemma parse_let_run n mut st :
  run_ok b PARSER_MSGS 1 4 n st (parse_let m b n mut st).
Proof.
  unfold parse_let. rewrite bind_next.
  next_state st st1 Hlen1 Henv1.
  rewrite bind_expect.
  destruct (TokKind_beq (t (peek_token st1)) TOK_SYM) eqn:E1; [|err_msg].
  apply TokKind_beq_eq in E1.
  next_state_token st1 st2 E1 Hlen2 Henv2.
  rewrite bind_next.
  next_state st2 st3 Hlen3 Henv3.
  assert (Henv : moved st st3) by eauto using moved_trans.
  destruct (t (peek_token st2)) eqn:Hk; try err_msg.
  - (* TOK_COLON *)
    rewrite bind_parse_type.
    destruct (type_const_of (t (peek_token st3))) as [ty|]; [|err_msg].
    next_state st3 st4 Hlen4 Henv4.
    rewrite bind_next.
    next_state st4 st5 Hlen5 Henv5.
    assert (Henv' : moved st st5) by eauto using moved_trans.
    destruct (t (peek_token st4)) eqn:Hk2; try err_msg.
    + (* TOK_NEWLINE *)
      apply run_ok_ret; [exact Henv' | lia].
    + (* TOK_EQ *)
      apply (expr_newline_ok
               (fun value last_tok =>
                  STMT_LET (combine_pos (pos (peek_token st)) (pos last_tok))
                    (pos (peek_token st1)) (Some ty) (Some value) mut));
        [exact Henv' | lia].
  - (* TOK_EQ *)
    apply (expr_newline_ok
             (fun value last_tok =>
                STMT_LET (combine_pos (pos (peek_token st)) (pos last_tok))
                  (pos (peek_token st1)) None (Some value) mut));
      [exact Henv | lia].
Qed.

Lemma parse_expr_stmt_run n st :
  run_ok b PARSER_MSGS 1 4 n st (parse_expr_stmt m b n st).
Proof.
  unfold parse_expr_stmt.
  apply (run_ok_bind b PARSER_MSGS (parse_expr m b n) _ st st 1 4 n 1 4 n).
  - apply moved_refl.
  - apply parse_expr_run.
  - lia.
  - intros e st1 Henv1 Hlen1. rewrite bind_expect.
    destruct (TokKind_beq _ TOK_NEWLINE); [|err_msg].
    next_state st1 st2 Hlen2 Henv2.
    apply run_ok_ret; [|lia].
    eauto using moved_trans.
Qed.

Lemma parse_return_run n st :
  t (peek_token st) = TOK_RETURN ->
  run_ok b PARSER_MSGS 1 4 n st (parse_return m b n st).
Proof.
  intros Hret. unfold parse_return. rewrite bind_next.
  next_state_token st st1 Hret Hlen1 Henv1.
  rewrite bind_peek.
  destruct (TokKind_beq (t (peek_token st1)) TOK_NEWLINE).
  - rewrite bind_next. next_state st1 st2 Hlen2 Henv2.
    apply run_ok_ret; [|lia].
    eauto using moved_trans.
  - apply (run_ok_bind b PARSER_MSGS (parse_expr m b n) _ st st1
             1 4 n 1 4 n).
    + exact Henv1.
    + apply parse_expr_run.
    + lia.
    + intros e st2 Henv2 Hlen2. rewrite bind_expect.
      destruct (TokKind_beq _ TOK_NEWLINE); [|err_msg].
      next_state st2 st3 Hlen3 Henv3.
      apply run_ok_ret; [|lia].
      eauto using moved_trans.
Qed.

Lemma parse_block_loop_S n stmts :
  parse_block_loop m b (S n) stmts
  = (nxt <- lexer_peek ;;
     match t nxt with
     | TOK_LET =>
         s <- parse_let m b n 0 ;; parse_block_loop m b n (stmts ++ [s])
     | TOK_RETURN =>
         s <- parse_return m b n ;; parse_block_loop m b n (stmts ++ [s])
     | TOK_MUT =>
         s <- parse_let m b n 1 ;; parse_block_loop m b n (stmts ++ [s])
     | TOK_RCURLY => lexer_next ;; ret stmts
     | _ =>
         s <- parse_expr_stmt m b n ;; parse_block_loop m b n (stmts ++ [s])
     end).
Proof. reflexivity. Qed.

(** One statement and the rest of the block. *)
Lemma block_round_ok (stmt : M Stmt) n stmts st :
  run_ok b PARSER_MSGS 1 4 n st (stmt st) ->
  (forall stmts1 st1,
      run_ok b PARSER_MSGS 1 5 n st1 (parse_block_loop m b n stmts1 st1)) ->
  run_ok b PARSER_MSGS 1 5 (S n) st
    ((s <- stmt ;; parse_block_loop m b n (stmts ++ [s])) st).
Proof.
  intros Hstmt IH.
  apply (run_ok_bind b PARSER_MSGS stmt _ st st 1 5 (S n) 1 4 n).
  - apply moved_refl.
  - exact Hstmt.
  - lia.
  - intros s st1 Henv1 Hlen1.
    apply (run_ok_later b PARSER_MSGS 1 5 n st1 _ 1 5 (S n) st 1).
    + apply IH.
    + exact Henv1.
    + exact Hlen1.
    + lia.
    + lia.
Qed.

Lemma parse_block_loop_run n : forall stmts st,
  run_ok b PARSER_MSGS 1 5 n st (parse_block_loop m b n stmts st).
Proof.
  induction n as [|n IH]; intros stmts st.
  - cbn. lia.
  - rewrite parse_block_loop_S, bind_peek.
    destruct (t (peek_token st)) eqn:Hk;
      try (apply block_round_ok; [apply parse_expr_stmt_run | exact IH]).
    + (* TOK_RCURLY *)
      rewrite bind_next. next_state_token st st1 Hk Hlen1 Henv1.
      apply run_ok_ret; [exact Henv1 | lia].
    + (* TOK_LET *)
      apply block_round_ok; [apply parse_let_run | exact IH].
    + (* TOK_MUT *)
      apply block_round_ok; [apply parse_let_run | exact IH].
    + (* TOK_RETURN *)
      apply block_round_ok; [now apply parse_return_run | exact IH].
Qed.

Lemma parse_block_run n st0 st :
  moved st0 st ->
  (List.length (toks st) <= List.length (toks st0))%nat ->
  run_ok b PARSER_MSGS 1 5 n st0 (parse_block m b n st).
Proof.
  intros Henv Hlen. unfold parse_block. rewrite bind_next.
  next_state st st1 Hlen1 Henv1.
  apply (run_ok_later b PARSER_MSGS 1 5 n st1 _ 1 5 n st0 0).
  - apply parse_block_loop_run.
  - eauto using moved_trans.
  - lia.
  - lia.
  - lia.
Qed.

Lemma parse_fn_params_S n ps :
  parse_fn_params (S n) ps
  = (nxt <- lexer_peek ;;
     if negb (TokKind_beq (t nxt) TOK_RPAREN) then
       name_tok <- expect TOK_SYM "expected param name" ;;
       ty <- parse_type ;;
       nxt' <- lexer_peek ;;
       (if TokKind_beq (t nxt') TOK_COMMA then lexer_next ;; ret tt
        else ret tt) ;;
       parse_fn_params n
         (ps ++ [{| param_name := pos name_tok; param_type := ty |}])
     else ret ps).
Proof. reflexivity. Qed.

Lemma parse_fn_params_run n : forall ps st,
  run_ok b PARSER_MSGS 0 1 n st (parse_fn_params n ps st).
Proof.
  induction n as [|n IH]; intros ps st.
  - cbn. lia.
  - rewrite parse_fn_params_S, bind_peek.
    destruct (negb _); [|apply run_ok_ret; [apply moved_refl | lia]].
    rewrite bind_expect.
    destruct (TokKind_beq (t (peek_token st)) TOK_SYM) eqn:E1; [|err_msg].
    apply TokKind_beq_eq in E1.
    next_state_token st st1 E1 Hlen1 Henv1.
    rewrite bind_parse_type.
    destruct (type_const_of (t (peek_token st1))) as [ty|] eqn:E2;
      [|err_msg].
    apply type_const_of_token in E2.
    assert (Hlen2 : (List.length (toks (with_toks st1 (tl (toks st1)))) + 1
                     <= List.length (toks st1))%nat)
      by (cbn [with_toks toks]; now apply next_shorter).
    assert (Henv2 : moved st1 (with_toks st1 (tl (toks st1))))
      by apply moved_next.
    set (st2 := with_toks st1 (tl (toks st1))) in *. clearbody st2.
    rewrite bind_peek.
    destruct (TokKind_beq (t (peek_token st2)) TOK_COMMA).
    + unfold bind at 1. rewrite bind_next.
      next_state st2 st3 Hlen3 Henv3. cbn [ret].
      apply (run_ok_later b PARSER_MSGS 0 1 n st3 _ 0 1 (S n) st 2).
      * apply IH.
      * eauto using moved_trans.
      * lia.
      * lia.
      * lia.
    + unfold bind at 1. cbn [ret].
      apply (run_ok_later b PARSER_MSGS 0 1 n st2 _ 0 1 (S n) st 2).
      * apply IH.
      * eauto using moved_trans.
      * lia.
      * lia.
      * lia.
Qed.

Lemma parse_fn_run n st :
  run_ok b PARSER_MSGS 1 5 n st (parse_fn m b n st).
Proof.
  unfold parse_fn. rewrite bind_expect.
  destruct (TokKind_beq (t (peek_token st)) TOK_SYM) eqn:E1; [|err_msg].
  apply TokKind_beq_eq in E1.
  next_state_token st st1 E1 Hlen1 Henv1.
  rewrite bind_expect.
  destruct (TokKind_beq (t (peek_token st1)) TOK_LPAREN) eqn:E2; [|err_msg].
  next_state st1 st2 Hlen2 Henv2.
  apply (run_ok_bind b PARSER_MSGS (parse_fn_params n []) _ st st2
           1 5 n 0 1 n).
  - eauto using moved_trans.
  - apply parse_fn_params_run.
  - lia.
  - intros ps st3 Henv3 Hlen3. rewrite bind_next.
    next_state st3 st4 Hlen4 Henv4. rewrite bind_peek.
    assert (Henv : moved st st4) by eauto using moved_trans.
    assert (Hblock : forall rty st5,
               moved st st5 ->
               (List.length (toks st5) <= List.length (toks st4))%nat ->
               run_ok b PARSER_MSGS 1 5 n st
                 ((stmts <- parse_block m b n ;;
                   ret {| fn_name := pos (peek_token st);
                          fn_pos := pos (peek_token st);
                          params := ps; ret_type := rty;
                          body := stmts |}) st5)).
    { intros rty st5 Henv5 Hlen5.
      apply (run_ok_bind b PARSER_MSGS (parse_block m b n) _ st st5
               1 5 n 1 5 n).
      - exact Henv5.
      - apply parse_block_run; [apply moved_refl | lia].
      - lia.
      - intros stmts st6 Henv6 Hlen6.
        apply run_ok_ret; [eauto using moved_trans | lia]. }
    destruct (negb _).
    + rewrite bind_parse_type.
      destruct (type_const_of (t (peek_token st4))) as [ty|]; [|err_msg].
      next_state st4 st5 Hlen5 Henv5.
      apply Hblock; [eauto using moved_trans | lia].
    + unfold bind at 1. cbn [ret]. apply Hblock; [exact Henv | lia].
Qed.

Lemma parse_ast_loop_S n fns :
  parse_ast_loop m b (S n) fns
  = (nxt <- lexer_peek ;;
     if negb (TokKind_beq (t nxt) TOK_EOF) then
       f <- parse_fn m b n ;; parse_ast_loop m b n (fns ++ [f])
     else ret fns).
Proof. reflexivity. Qed.

(** The loop of [parse_ast] returns at the end of the tokens only. *)
Lemma parse_ast_loop_run n : forall fns st,
  run_ok b PARSER_MSGS 0 6 n st (parse_ast_loop m b n fns st) /\
  (forall fns' st',
      parse_ast_loop m b n fns st = Done (fns', st') ->
      t (peek_token st') = TOK_EOF).
Proof.
  induction n as [|n IH]; intros fns st.
  - split; [cbn; lia | discriminate].
  - rewrite parse_ast_loop_S, bind_peek.
    destruct (negb _) eqn:E.
    + split.
      * apply (run_ok_bind b PARSER_MSGS (parse_fn m b n) _ st st
                 0 6 (S n) 1 5 n).
        -- apply moved_refl.
        -- apply parse_fn_run.
        -- lia.
        -- intros f st1 Henv1 Hlen1.
           apply (run_ok_later b PARSER_MSGS 0 6 n st1 _ 0 6 (S n) st 1).
           ++ apply IH.
           ++ exact Henv1.
           ++ exact Hlen1.
           ++ lia.
           ++ lia.
      * intros fns' st'. unfold bind.
        destruct (parse_fn m b n st) as [[f st1]| | |]; try discriminate.
        apply IH.
    + split; [apply run_ok_ret; [apply moved_refl | lia]|].
      intros fns' st' [= <- <-].
      apply negb_false_iff, TokKind_beq_eq in E. exact E.
Qed.

End StmtRuns.

(** * The parser ends *)

(** Once a run has ended within its bound, a larger bound changes
    nothing. *)
Lemma fuel_le_stable {A} (f : nat -> Outcome A) :
  (forall j, fuel_le (f j) (f (S j))) ->
  forall n k, f n <> NoFuel -> (n <= k)%nat -> f k = f n.
Proof.
  intros Hf n k Hn Hle. induction Hle as [|k Hle IH]; [reflexivity|].
  destruct (Hf k) as [H | H]; congruence.
Qed.

(** What the grammar derives uses up tokens from the front. *)
Lemma grammar_consumes m b :
  (forall ts e rest, G_primary m b ts e rest ->
     exists used, used <> [] /\ ts = used ++ rest) /\
  (forall ts args rest, G_args m b ts args rest ->
     exists used, ts = used ++ rest) /\
  (forall ts e rest, G_factor m b ts e rest ->
     exists used, used <> [] /\ ts = used ++ rest) /\
  (forall ts e rest, G_term m b ts e rest ->
     exists used, used <> [] /\ ts = used ++ rest) /\
  (forall ts e rest, G_comp m b ts e rest ->
     exists used, used <> [] /\ ts = used ++ rest).
Proof.
  apply G_mutual_ind.
  - intros tok rest e _ _. exists [tok]. split; [discriminate | reflexivity].
  - intros tok rest _ _. exists [tok]. split; [discriminate | reflexivity].
  - intros tok lp ts args rp rest _ _ _ [used ->] _.
    exists (tok :: lp :: used ++ [rp]). split; [discriminate|].
    cbn [app]. now rewrite <- app_assoc.
  - intros lp ts e rp rest _ _ (used & _ & ->) _.
    exists (lp :: used ++ [rp]). split; [discriminate|].
    cbn [app]. now rewrite <- app_assoc.
  - intros ts _. now exists [].
  - intros ts e rest _ _ (used & _ & ->) _. now exists used.
  - intros ts e comma ts1 args rest _ _ (used & _ & ->) _ _ [used1 ->].
    exists (used ++ comma :: used1). now rewrite <- app_assoc.
  - auto.
  - intros ts l optok ts1 op r rest _ (used & Hu & ->) _ _ _ (used1 & _ & ->).
    exists (used ++ optok :: used1). split.
    + destruct used; [congruence | discriminate].
    + now rewrite <- app_assoc.
  - auto.
  - intros ts l optok ts1 op r rest _ (used & Hu & ->) _ _ _ (used1 & _ & ->).
    exists (used ++ optok :: used1). split.
    + destruct used; [congruence | discriminate].
    + now rewrite <- app_assoc.
  - auto.
  - intros ts l optok ts1 op r rest _ (used & Hu & ->) _ _ _ (used1 & _ & ->).
    exists (used ++ optok :: used1). split.
    + destruct used; [congruence | discriminate].
    + now rewrite <- app_assoc.
Qed.

(** X17.  [parse_expr] ends on every token stream: a bound of four calls
    and loop rounds per token left, and four more, is never reached, and
    the result is the same for every larger bound.  An expression that is
    returned has used up one token or more from the front of the stream
    and has left the rest of the parser's state as it was. *)
Theorem parse_expr_terminates
    (m : Buffer) (b : Z) (st : PState) (n : nat) :
  (4 * List.length (toks st) + 4 <= n)%nat ->
  parse_expr m b n st <> NoFuel /\
  parse_expr m b n st = parse_expr m b (4 * List.length (toks st) + 4) st /\
  forall e st',
    parse_expr m b n st = Done (e, st') ->
    st' = with_toks st (toks st') /\
    exists used, used <> [] /\ toks st = used ++ toks st'.
Proof.
  intros Hn.
  assert (Hends : forall k, (4 * List.length (toks st) + 4 <= k)%nat ->
                            parse_expr m b k st <> NoFuel).
  { intros k Hk E.
    destruct (expr_runs m b k) as (_ & _ & _ & _ & _ & _ & _ & R8 & _).
    specialize (R8 st). unfold parse_expr in E. rewrite E in R8.
    cbn [run_ok] in R8. lia. }
  split; [now apply Hends|]. split.
  - apply (fuel_le_stable (fun k => parse_expr m b k st)).
    + intros j. apply (parse_step_mono m b j).
    + apply Hends. lia.
    + exact Hn.
  - intros e st' E.
    destruct (grammar_sound m b n) as (_ & _ & _ & _ & _ & _ & _ & S8 & _).
    apply S8 in E as (HG & _ & Henv). split; [exact Henv|].
    now apply (grammar_consumes m b) in HG.
Qed.

Lemma parse_expr_terminates_witness :
  parse_expr buf_paren 0 1000
    (initial_state [tok TOK_SYM 4096 1; tok TOK_ADD 4098 1;
                    tok TOK_SYM 4100 1; tok TOK_NEWLINE 4101 1] eof0)
  = Done (make_binop (EXPR_VAR (mkPos 4096 1)) (EXPR_VAR (mkPos 4100 1))
            BINOP_ADD,
          initial_state [tok TOK_NEWLINE 4101 1] eof0).
Proof.
  rewrite (proj1 (proj2 (parse_expr_terminates buf_paren 0
                           (initial_state
                              [tok TOK_SYM 4096 1; tok TOK_ADD 4098 1;
                               tok TOK_SYM 4100 1; tok TOK_NEWLINE 4101 1]
                              eof0)
                           1000 ltac:(cbn; lia)))).
  reflexivity.
Defined.

(** The diagnostics of the expression functions: the overflow of a
    literal, or one of their two messages at the span of a token. *)
Lemma parse_expr_aborts
    (m : Buffer) (b : Z) (n : nat) (st : PState) (d : Diag) :
  parse_expr m b n st = Abort d -> diag_ok b EXPR_MSGS st d.
Proof.
  intros E.
  destruct (expr_runs m b n) as (_ & _ & _ & _ & _ & _ & _ & R8 & _).
  specialize (R8 st). unfold parse_expr in E. rewrite E in R8. exact R8.
Qed.

Section StmtMono.

Variable m : Buffer.
Variable b : Z.

Lemma parse_expr_mono n st :
  fuel_le (parse_expr m b n st) (parse_expr m b (S n) st).
Proof. apply (parse_step_mono m b n). Qed.

Lemma parse_let_mono n mut st :
  fuel_le (parse_let m b n mut st) (parse_let m b (S n) mut st).
Proof.
  pose proof parse_expr_mono as H. unfold parse_let. repeat fuel_step.
Qed.

Lemma parse_expr_stmt_mono n st :
  fuel_le (parse_expr_stmt m b n st) (parse_expr_stmt m b (S n) st).
Proof.
  pose proof parse_expr_mono as H. unfold parse_expr_stmt. repeat fuel_step.
Qed.

Lemma parse_return_mono n st :
  fuel_le (parse_return m b n st) (parse_return m b (S n) st).
Proof.
  pose proof parse_expr_mono as H. unfold parse_return. repeat fuel_step.
Qed.

Lemma parse_block_loop_mono n : forall stmts st,
  fuel_le (parse_block_loop m b n stmts st)
    (parse_block_loop m b (S n) stmts st).
Proof.
  induction n as [|n IH]; intros stmts st; [now left|].
  rewrite (parse_block_loop_S m b n), (parse_block_loop_S m b (S n)).
  apply bind_fuel_le; [apply fuel_le_refl|]. intros nxt s.
  destruct (t nxt);
    try (apply bind_fuel_le;
         [apply parse_expr_stmt_mono | intros ? ?; apply IH]).
  - apply fuel_le_refl.
  - apply bind_fuel_le; [apply parse_let_mono | intros ? ?; apply IH].
  - apply bind_fuel_le; [apply parse_let_mono | intros ? ?; apply IH].
  - apply bind_fuel_le; [apply parse_return_mono | intros ? ?; apply IH].
Qed.

Lemma parse_fn_params_mono n : forall ps st,
  fuel_le (parse_fn_params n ps st) (parse_fn_params (S n) ps st).
Proof.
  induction n as [|n IH]; intros ps st; [now left|].
  rewrite (parse_fn_params_S n), (parse_fn_params_S (S n)).
  repeat fuel_step.
Qed.

Lemma parse_fn_mono n st :
  fuel_le (parse_fn m b n st) (parse_fn m b (S n) st).
Proof.
  unfold parse_fn.
  apply bind_fuel_le; [apply fuel_le_refl|]. intros name_tok s1.
  apply bind_fuel_le; [apply fuel_le_refl|]. intros lp s2.
  apply bind_fuel_le; [apply parse_fn_params_mono|]. intros ps s3.
  apply bind_fuel_le; [apply fuel_le_refl|]. intros rp s4.
  apply bind_fuel_le; [apply fuel_le_refl|]. intros nxt s5.
  apply bind_fuel_le; [apply fuel_le_refl|]. intros rty s6.
  apply bind_fuel_le; [|intros; apply fuel_le_refl].
  unfold parse_block.
  apply bind_fuel_le; [apply fuel_le_refl|]. intros lc s7.
  apply parse_block_loop_mono.
Qed.

Lemma parse_ast_loop_mono n : forall fns st,
  fuel_le (parse_ast_loop m b n fns st) (parse_ast_loop m b (S n) fns st).
Proof.
  induction n as [|n IH]; intros fns st; [now left|].
  rewrite (parse_ast_loop_S m b n), (parse_ast_loop_S m b (S n)).
  apply bind_fuel_le; [apply fuel_le_refl|]. intros nxt s.
  destruct (negb _); [|apply fuel_le_refl].
  apply bind_fuel_le; [apply parse_fn_mono | intros ? ?; apply IH].
Qed.

End StmtMono.

Lemma parse_ast_mono m n src st :
  fuel_le (parse_ast m n src st) (parse_ast m (S n) src st).
Proof.
  unfold parse_ast.
  apply bind_fuel_le; [apply parse_ast_loop_mono|].
  intros; apply fuel_le_refl.
Qed.

(** How [parse_ast] ends, seen from the state it was entered in. *)
Lemma parse_ast_run m n src st :
  match parse_ast m n src st with
  | Done (_, st') =>
      t (peek_token st') = TOK_EOF /\
      src_base st' = src /\ eof_pos st' = eof_pos st /\
      (List.length (toks st') <= List.length (toks st))%nat
  | Abort d => diag_ok src PARSER_MSGS st d
  | Undef => True
  | NoFuel => (n < 4 * List.length (toks st) + 6)%nat
  end.
Proof.
  unfold parse_ast. unfold bind at 1.
  destruct (parse_ast_loop_run m src n [] st) as [Hrun Heof].
  destruct (parse_ast_loop m src n [] st) as [[fns st1]|d| |];
    cbn [run_ok] in Hrun; auto.
  destruct Hrun as [[Henv _] Hlen].
  specialize (Heof fns st1 eq_refl).
  cbn. repeat split; auto.
  - rewrite Henv. reflexivity.
  - lia.
Qed.

(** X19.  [parse_ast] ends on every token stream: a bound of four calls
    and loop rounds per token, and six more, is never reached, and the
    result is the same for every larger bound.  When it returns, the
    next token is the end of file, and the file-scope [src_base] is the
    source it was given. *)
Theorem parse_ast_terminates
    (m : Buffer) (src : Z) (st : PState) (n : nat) :
  (4 * List.length (toks st) + 6 <= n)%nat ->
  parse_ast m n src st <> NoFuel /\
  parse_ast m n src st
  = parse_ast m (4 * List.length (toks st) + 6) src st /\
  forall fns st',
    parse_ast m n src st = Done (fns, st') ->
    t (peek_token st') = TOK_EOF /\
    src_base st' = src /\ eof_pos st' = eof_pos st.
Proof.
  intros Hn.
  assert (Hends : forall k, (4 * List.length (toks st) + 6 <= k)%nat ->
                            parse_ast m k src st <> NoFuel).
  { intros k Hk E. pose proof (parse_ast_run m k src st) as H.
    rewrite E in H. lia. }
  split; [now apply Hends|]. split.
  - apply (fuel_le_stable (fun k => parse_ast m k src st)).
    + intros j. apply parse_ast_mono.
    + apply Hends. lia.
    + exact Hn.
  - intros fns st' E. pose proof (parse_ast_run m n src st) as H.
    rewrite E in H. tauto.
Qed.

Lemma parse_ast_terminates_witness :
  exists fns,
    parse_ast buf_paren 1000 4096 (initial_state toks_fn_i64 eof0)
    = Done (fns, mkPState [] eof0 4096) /\
    map ret_type fns = [I64_const].
Proof.
  eexists.
  rewrite (proj1 (proj2 (parse_ast_terminates buf_paren 4096
                           (initial_state toks_fn_i64 eof0) 1000
                           ltac:(cbn; lia)))).
  split; reflexivity.
Defined.

(** The diagnostics of the parser. *)
Lemma parse_ast_aborts
    (m : Buffer) (n : nat) (src : Z) (st : PState) (d : Diag) :
  parse_ast m n src st = Abort d -> diag_ok src PARSER_MSGS st d.
Proof.
  intros E. pose proof (parse_ast_run m n src st) as H.
  rewrite E in H. exact H.
Qed.

(** * Parameter lists, blocks and functions *)

Section Forms.

Variable m : Buffer.
Variable b : Z.

(** One parameter as written, and the loop again. *)
Lemma parse_fn_params_round n acc st p q more :
  param_text_ok p q ->
  peek_kind more <> TOK_COMMA ->
  parse_fn_params (S n) acc (with_toks st (param_tokens p ++ more))
  = parse_fn_params n (acc ++ [q]) (with_toks st more).
Proof.
  intros (Hname & Hty & Hpos & Hcomma) Hmore.
  rewrite parse_fn_params_S, bind_peek.
  unfold param_tokens. cbn [app with_toks toks peek_token].
  rewrite Hname. cbn [TokKind_beq negb].
  rewrite bind_expect. cbn [with_toks toks peek_token tl].
  rewrite Hname. cbn [TokKind_beq].
  rewrite bind_parse_type. cbn [with_toks toks peek_token tl].
  rewrite Hty. rewrite bind_peek.
  replace {| param_name := pos (pt_name p); param_type := param_type q |}
    with q by (destruct q; cbn in *; congruence).
  destruct (pt_comma p) as [c|]; cbn [app with_toks toks peek_token].
  - rewrite Hcomma. cbn [TokKind_beq]. reflexivity.
  - rewrite peek_with_toks.
    rewrite (proj2 (TokKind_beq_neq _ _) Hmore). reflexivity.
Qed.

Lemma param_tokens_kind p q more :
  param_text_ok p q -> peek_kind (param_tokens p ++ more) = TOK_SYM.
Proof. intros (Hname & _). exact Hname. Qed.

(** X21.  The parameter loop of [parse_fn] takes a name and a type per
    parameter and skips a comma after it if there is one: commas between
    parameters, and after the last, may be there or not.  The parameters
    are recorded in the order they are written, up to the closing
    parenthesis, which is left for the caller. *)
Theorem parse_fn_params_commas
    (texts : list ParamText) (ps : list Param) (rp : Token)
    (rest : list Token) (st : PState) (acc : list Param) (n : nat) :
  Forall2 param_text_ok texts ps ->
  t rp = TOK_RPAREN ->
  (List.length texts < n)%nat ->
  parse_fn_params n acc
    (with_toks st (flat_map param_tokens texts ++ rp :: rest))
  = Done (acc ++ ps, with_toks st (rp :: rest)).
Proof.
  intros Hps Hrp. revert acc n.
  induction Hps as [|p q texts ps Hp Hps IH]; intros acc n Hn.
  - destruct n as [|n]; [lia|].
    rewrite parse_fn_params_S, bind_peek.
    cbn [flat_map app with_toks toks peek_token]. rewrite Hrp.
    cbn [TokKind_beq negb ret]. now rewrite app_nil_r.
  - destruct n as [|n]; [cbn [List.length] in Hn; lia|].
    cbn [flat_map]. rewrite <- app_assoc.
    rewrite (parse_fn_params_round n acc st p q); [|exact Hp|].
    + rewrite IH by (cbn [List.length] in Hn; lia).
      now rewrite <- app_assoc.
    + destruct Hps as [|p' q' texts' ps' Hp' _].
      * cbn [flat_map app peek_kind]. rewrite Hrp. discriminate.
      * cbn [flat_map]. rewrite <- app_assoc.
        rewrite (param_tokens_kind p' q') by exact Hp'. discriminate.
Qed.

(** One statement and the rest of the block: the closing brace is still
    to come. *)
Lemma block_round_rcurly (stmt : M Stmt) n stmts st stmts' st' :
  run_ok b PARSER_MSGS 1 4 n st (stmt st) ->
  (forall stmts1 st1,
      parse_block_loop m b n stmts1 st1 = Done (stmts', st') ->
      exists used rc, toks st1 = used ++ rc :: toks st' /\ t rc = TOK_RCURLY) ->
  (s <- stmt ;; parse_block_loop m b n (stmts ++ [s])) st
  = Done (stmts', st') ->
  exists used rc, toks st = used ++ rc :: toks st' /\ t rc = TOK_RCURLY.
Proof.
  intros Hrun IH. unfold bind.
  destruct (stmt st) as [[s st1]| | |]; try discriminate.
  destruct Hrun as [[_ [u1 E1]] _].
  intros H. apply IH in H as (u2 & rc & E2 & Hrc).
  exists (u1 ++ u2), rc. split; [|exact Hrc].
  now rewrite E1, E2, app_assoc.
Qed.

Lemma parse_block_loop_rcurly n : forall stmts st stmts' st',
  parse_block_loop m b n stmts st = Done (stmts', st') ->
  exists used rc, toks st = used ++ rc :: toks st' /\ t rc = TOK_RCURLY.
Proof.
  induction n as [|n IH]; intros stmts st stmts' st'; [discriminate|].
  rewrite parse_block_loop_S, bind_peek.
  destruct (t (peek_token st)) eqn:Hk;
    try (apply block_round_rcurly;
         [apply parse_expr_stmt_run | intros ? ?; apply IH]).
  - (* TOK_RCURLY *)
    rewrite bind_next. intros [= <- <-].
    exists [], (peek_token st). split; [|exact Hk].
    cbn [app with_toks toks]. apply peek_token_cons. congruence.
  - apply block_round_rcurly; [apply parse_let_run | intros ? ?; apply IH].
  - apply block_round_rcurly; [apply parse_let_run | intros ? ?; apply IH].
  - apply block_round_rcurly;
      [now apply parse_return_run | intros ? ?; apply IH].
Qed.

(** X22.  [parse_block] returns only after a closing brace: what it has
    used up of the tokens is one token, which it skips as the opening
    brace, then the statements, then a [TOK_RCURLY], and nothing else of
    the parser's state has changed.  A block that is not closed before
    the tokens end is never accepted. *)
Theorem parse_block_needs_rcurly
    (n : nat) (st : PState) (stmts : list Stmt) (st' : PState) :
  parse_block m b n st = Done (stmts, st') ->
  st' = with_toks st (toks st') /\
  exists first used rc,
    toks st = first :: used ++ rc :: toks st' /\ t rc = TOK_RCURLY.
Proof.
  intros H. split.
  - pose proof (parse_block_run m b n st st (moved_refl st) (le_n _)) as Hrun.
    rewrite H in Hrun. destruct Hrun as [[Henv _] _]. exact Henv.
  - unfold parse_block in H. rewrite bind_next in H.
    apply parse_block_loop_rcurly in H as (used & rc & E & Hrc).
    cbn [with_toks toks] in E.
    destruct (toks st) as [|first ts]; cbn [tl] in E.
    + destruct used; discriminate.
    + exists first, used, rc. split; [now rewrite E | exact Hrc].
Qed.

Lemma type_token_not_lcurly k ty :
  type_const_of k = Some ty -> TokKind_beq k TOK_LCURLY = false.
Proof. destruct k; cbn; congruence. Qed.

(** X23.  After a return type [parse_fn] does not look at the token that
    should open the body: [parse_block] skips it unseen.  Whatever token
    stands there, a function with a return type and a closing brace right
    after that token is accepted, with that type and an empty body. *)
Theorem parse_fn_brace_unchecked
    (n : nat) (st : PState) (name lp rp tyt x rc : Token) (ty : TypeConst)
    (rest : list Token) :
  t name = TOK_SYM ->
  t lp = TOK_LPAREN ->
  t rp = TOK_RPAREN ->
  type_const_of (t tyt) = Some ty ->
  t rc = TOK_RCURLY ->
  parse_fn m b (S n)
    (with_toks st (name :: lp :: rp :: tyt :: x :: rc :: rest))
  = Done ({| fn_name := pos name; fn_pos := pos name; params := [];
             ret_type := ty; body := [] |},
          with_toks st rest).
Proof.
  intros Hname Hlp Hrp Hty Hrc. unfold parse_fn.
  rewrite bind_expect. cbn [with_toks toks peek_token tl].
  rewrite Hname. cbn [TokKind_beq].
  rewrite bind_expect. cbn [with_toks toks peek_token tl].
  rewrite Hlp. cbn [TokKind_beq].
  unfold bind at 1. rewrite parse_fn_params_S, bind_peek.
  cbn [with_toks toks peek_token]. rewrite Hrp. cbn [TokKind_beq negb ret].
  rewrite bind_next. cbn [with_toks toks peek_token tl].
  rewrite bind_peek. cbn [with_toks toks peek_token].
  rewrite (type_token_not_lcurly _ _ Hty). cbn [negb].
  rewrite bind_parse_type. cbn [with_toks toks peek_token tl]. rewrite Hty.
  unfold bind at 1. unfold parse_block. rewrite bind_next.
  cbn [with_toks toks peek_token tl].
  rewrite parse_block_loop_S, bind_peek. cbn [with_toks toks peek_token].
  rewrite Hrc. rewrite bind_next. reflexivity.
Qed.

End Forms.

Lemma parse_fn_params_commas_witness :
  parse_fn_params 3 []
    (initial_state
       [tok TOK_SYM 4098 1; tok TOK_U8 4100 2;
        tok TOK_SYM 4103 1; tok TOK_I64 4105 3; tok TOK_COMMA 4108 1;
        tok TOK_RPAREN 4109 1] eof0)
  = Done ([mkParam (mkPos 4098 1) U8_const; mkParam (mkPos 4103 1) I64_const],
          initial_state [tok TOK_RPAREN 4109 1] eof0).
Proof.
  apply (parse_fn_params_commas
           [mkParamText (tok TOK_SYM 4098 1) (tok TOK_U8 4100 2) None;
            mkParamText (tok TOK_SYM 4103 1) (tok TOK_I64 4105 3)
              (Some (tok TOK_COMMA 4108 1))]
           [mkParam (mkPos 4098 1) U8_const; mkParam (mkPos 4103 1) I64_const]
           (tok TOK_RPAREN 4109 1) [] (initial_state [] eof0) [] 3).
  - repeat constructor.
  - reflexivity.
  - cbn. lia.
Defined.

Lemma parse_block_needs_rcurly_witness :
  initial_state [] eof0 = with_toks (initial_state
                                       [tok TOK_LCURLY 4100 1;
                                        tok TOK_RETURN 4101 6;
                                        tok TOK_NEWLINE 4107 1;
                                        tok TOK_RCURLY 4108 1] eof0) [] /\
  exists first used rc,
    [tok TOK_LCURLY 4100 1; tok TOK_RETURN 4101 6; tok TOK_NEWLINE 4107 1;
     tok TOK_RCURLY 4108 1] = first :: used ++ rc :: [] /\
    t rc = TOK_RCURLY.
Proof.
  apply (parse_block_needs_rcurly buf_paren 0 8
           (initial_state [tok TOK_LCURLY 4100 1; tok TOK_RETURN 4101 6;
                           tok TOK_NEWLINE 4107 1; tok TOK_RCURLY 4108 1] eof0)
           [STMT_RETURN None] (initial_state [] eof0)).
  reflexivity.
Defined.

Lemma parse_fn_brace_unchecked_witness :
  parse_fn buf_paren 0 1
    (initial_state
       [tok TOK_SYM 4096 1; tok TOK_LPAREN 4097 1; tok TOK_RPAREN 4098 1;
        tok TOK_I64 4100 3; tok TOK_RPAREN 4104 1; tok TOK_RCURLY 4105 1]
       eof0)
  = Done ({| fn_name := mkPos 4096 1; fn_pos := mkPos 4096 1; params := [];
             ret_type := I64_const; body := [] |},
          initial_state [] eof0).
Proof.
  apply (parse_fn_brace_unchecked buf_paren 0 0 (initial_state [] eof0)
           (tok TOK_SYM 4096 1) (tok TOK_LPAREN 4097 1)
           (tok TOK_RPAREN 4098 1) (tok TOK_I64 4100 3)
           (tok TOK_RPAREN 4104 1) (tok TOK_RCURLY 4105 1) I64_const []);
    reflexivity.
Defined.

(** * Spans of operator expressions *)

Lemma spans_ok_ends e :
  spans_ok e ->
  start (expr_pos e) = start (expr_pos (leftmost e)) /\
  forall a, combine_pos a (expr_pos e)
            = combine_pos a (expr_pos (rightmost e)).
Proof.
  induction e as [p v ty | p | p op l IHl r IHr | p name args];
    cbn [spans_ok leftmost rightmost expr_pos]; try (now split).
  intros (-> & Hl & Hr).
  destruct (IHl Hl) as [Hstart _]. destruct (IHr Hr) as [_ Hend].
  split; [exact Hstart|].
  intros a. rewrite combine_pos_chain. apply Hend.
Qed.

(** The trees of the grammar have the spans [combine_pos] gives. *)
Lemma grammar_spans m b :
  (forall ts e rest, G_primary m b ts e rest -> spans_ok e) /\
  (forall ts args rest, G_args m b ts args rest -> True) /\
  (forall ts e rest, G_factor m b ts e rest -> spans_ok e) /\
  (forall ts e rest, G_term m b ts e rest -> spans_ok e) /\
  (forall ts e rest, G_comp m b ts e rest -> spans_ok e).
Proof.
  apply G_mutual_ind; auto; try (intros; exact I);
    try (intros; cbn [make_binop spans_ok]; now repeat split).
  intros tok rest e _ He.
  apply make_intlit_expr_done in He as (v & -> & _). exact I.
Qed.

(** X24.  The span [parse_expr] records for an operator expression is
    what [combine_pos] gives for the span of the leftmost operand and the
    span of the rightmost operand, however many operators lie between
    them: it starts where the leftmost operand starts and, for spans of
    one buffer, ends where the rightmost operand ends.  Parentheses
    around an operand at either end are not part of it. *)
Theorem parse_expr_span
    (m : Buffer) (b : Z) (n : nat) (st st' : PState)
    (p : SourcePosition) (op : BinOp) (l r : Expr) :
  parse_expr m b n st = Done (EXPR_BINOP p op l r, st') ->
  p = combine_pos (expr_pos (leftmost l)) (expr_pos (rightmost r)).
Proof.
  intros E.
  destruct (grammar_sound m b n) as (_ & _ & _ & _ & _ & _ & _ & S8 & _).
  apply S8 in E as (HG & _).
  apply (grammar_spans m b) in HG.
  cbn [spans_ok] in HG. destruct HG as (-> & Hl & Hr).
  destruct (spans_ok_ends l Hl) as [Hstart _].
  destruct (spans_ok_ends r Hr) as [_ Hend].
  rewrite Hend. unfold combine_pos. now rewrite Hstart.
Qed.

Lemma parse_expr_span_witness :
  parse_expr buf_paren 0 20
    (initial_state
       [tok TOK_LPAREN 4096 1; tok TOK_SYM 4097 1; tok TOK_ADD 4099 1;
        tok TOK_SYM 4101 1; tok TOK_RPAREN 4102 1; tok TOK_MUL 4104 1;
        tok TOK_SYM 4106 1] eof0)
  = Done (EXPR_BINOP (mkPos 4097 10) BINOP_MUL
            (EXPR_BINOP (mkPos 4097 5) BINOP_ADD
               (EXPR_VAR (mkPos 4097 1)) (EXPR_VAR (mkPos 4101 1)))
            (EXPR_VAR (mkPos 4106 1)),
          initial_state [] eof0) /\
  mkPos 4097 10 = combine_pos (mkPos 4097 1) (mkPos 4106 1).
Proof.
  assert (E : parse_expr buf_paren 0 20
                (initial_state
                   [tok TOK_LPAREN 4096 1; tok TOK_SYM 4097 1;
                    tok TOK_ADD 4099 1; tok TOK_SYM 4101 1;
                    tok TOK_RPAREN 4102 1; tok TOK_MUL 4104 1;
                    tok TOK_SYM 4106 1] eof0)
              = Done (EXPR_BINOP (mkPos 4097 10) BINOP_MUL
                        (EXPR_BINOP (mkPos 4097 5) BINOP_ADD
                           (EXPR_VAR (mkPos 4097 1)) (EXPR_VAR (mkPos 4101 1)))
                        (EXPR_VAR (mkPos 4106 1)),
                      initial_state [] eof0)) by reflexivity.
  split; [exact E|].
  exact (parse_expr_span _ _ _ _ _ _ _ _ _ E).
Defined.

(** * Statements and their newline *)

Section Statements.

Variable m : Buffer.
Variable b : Z.

(** An expression of the grammar is accepted within the bound that is
    enough for its tokens. *)
Lemma parse_expr_accepts ts e rest st n :
  G_comp m b ts e rest ->
  is_binop (peek_kind rest) = false ->
  (4 * List.length ts + 4 <= n)%nat ->
  parse_expr m b n (with_toks st ts) = Done (e, with_toks st rest).
Proof.
  intros HG Hb Hn.
  unfold is_binop in Hb. apply orb_false_iff in Hb as [Hb Hc].
  apply orb_false_iff in Hb as [Hm Ha].
  destruct (grammar_complete m b) as (_ & _ & _ & _ & C5).
  destruct (C5 ts e rest HG Hm Ha st 1%nat (e, with_toks st rest))
    as [n0 Hn0]; [now apply parse_comp_loop_exit|].
  unfold parse_expr.
  rewrite <- (parse_comp_fuel m b n0 (Nat.max n0 n) _ _ Hn0
                (Nat.le_max_l n0 n)).
  symmetry.
  apply (fuel_le_stable (fun k => parse_comp m b k (with_toks st ts))).
  - intros j. apply (parse_step_mono m b j).
  - intros E.
    destruct (expr_runs m b n) as (_ & _ & _ & _ & _ & _ & _ & R8 & _).
    specialize (R8 (with_toks st ts)). rewrite E in R8.
    cbn [run_ok with_toks toks] in R8. lia.
  - apply Nat.le_max_r.
Qed.

(** An expression starts with a literal, a name or a parenthesis. *)
Lemma grammar_first m' b' :
  (forall ts e rest, G_primary m' b' ts e rest ->
     peek_kind ts <> TOK_NEWLINE) /\
  (forall ts args rest, G_args m' b' ts args rest -> True) /\
  (forall ts e rest, G_factor m' b' ts e rest ->
     peek_kind ts <> TOK_NEWLINE) /\
  (forall ts e rest, G_term m' b' ts e rest ->
     peek_kind ts <> TOK_NEWLINE) /\
  (forall ts e rest, G_comp m' b' ts e rest ->
     peek_kind ts <> TOK_NEWLINE).
Proof.
  apply G_mutual_ind; auto; try (intros; exact I);
    intros; cbn [peek_kind]; congruence.
Qed.

(** X25.  A statement that is an expression, and a [return] with a value,
    must be followed by a newline token: the expression is parsed as far
    as the grammar goes, and then the statement is accepted when a
    newline follows, which is used up, and is rejected with the message
    "expected newline or ';'" at the token that follows otherwise, a
    closing brace on the same line included.  A [return] directly
    followed by a newline returns no value. *)
Theorem statement_needs_newline
    (ts : list Token) (e : Expr) (rest : list Token)
    (r : Token) (st : PState) (n : nat) :
  G_comp m b ts e rest ->
  is_binop (peek_kind rest) = false ->
  (4 * List.length ts + 4 <= n)%nat ->
  parse_expr_stmt m b n (with_toks st ts) = after_expr st rest (STMT_EXPR e) /\
  parse_return m b n (with_toks st (r :: ts))
  = after_expr st rest (STMT_RETURN (Some e)) /\
  forall nl, t nl = TOK_NEWLINE ->
    parse_return m b n (with_toks st (r :: nl :: rest))
    = Done (STMT_RETURN None, with_toks st rest).
Proof.
  intros HG Hb Hn.
  pose proof (parse_expr_accepts ts e rest st n HG Hb Hn) as He.
  assert (Hend : forall s,
             (expect TOK_NEWLINE "expected newline or ';'" ;; ret s)
               (with_toks st rest)
             = after_expr st rest s).
  { intros s. rewrite bind_expect, peek_with_toks. unfold after_expr.
    now destruct (TokKind_beq (peek_kind rest) TOK_NEWLINE). }
  split; [|split].
  - unfold parse_expr_stmt. rewrite (bind_done _ _ _ _ _ He). apply Hend.
  - unfold parse_return. rewrite bind_next, bind_peek.
    cbn [with_toks toks tl]. rewrite peek_with_toks.
    destruct (grammar_first m b) as (_ & _ & _ & _ & Hfirst).
    rewrite (proj2 (TokKind_beq_neq _ _) (Hfirst _ _ _ HG)).
    change {| toks := ts; eof_pos := eof_pos st; src_base := src_base st |}
      with (with_toks st ts).
    rewrite (bind_done _ _ _ _ _ He). apply Hend.
  - intros nl Hnl. unfold parse_return. rewrite bind_next, bind_peek.
    cbn [with_toks toks tl peek_token]. rewrite Hnl. cbn [TokKind_beq].
    rewrite bind_next. reflexivity.
Qed.

End Statements.

Lemma statement_needs_newline_witness :
  parse_return buf_paren 0 12
    (initial_state [tok TOK_RETURN 4096 6; tok TOK_SYM 4103 1;
                    tok TOK_RCURLY 4105 1] eof0)
  = Abort (SourceErr (Plain "expected newline or ';'") NULL (mkPos 4105 1)).
Proof.
  refine (proj1 (proj2 (statement_needs_newline buf_paren 0
           [tok TOK_SYM 4103 1; tok TOK_RCURLY 4105 1]
           (EXPR_VAR (mkPos 4103 1))
           [tok TOK_RCURLY 4105 1] (tok TOK_RETURN 4096 6)
           (initial_state [] eof0) 12 _ _ _))).
  - apply G_comp_term, G_term_factor, G_factor_primary, G_var;
      [reflexivity | discriminate].
  - reflexivity.
  - cbn. lia.
Defined.

(** * The value of a literal *)

Lemma literal_256u8 :
  literal_token buf_256u8 pos_256u8 INTLIT_U8 (bytes_of_string "256").
Proof.
  unfold literal_token, span_inside, in_size_t.
  repeat split; try reflexivity; try (vm_compute; congruence).
Qed.

(** X26.  The value [make_intlit_expr] records in a fresh node for a
    literal token, a run of decimal digits and the suffix of its type, is
    the value of the first digit alone: the conversion returns at the
    first addition that does not overflow, and from zero the first one
    does not.  So no such literal raises the overflow diagnostic, and two
    literals of one type that start with the same digit get the same
    value. *)
Theorem intlit_value_first_digit
    (m : Buffer) (base : Z) (p : SourcePosition) (ty : IntLitType)
    (c : Z) (ds : list Z) :
  literal_token m p ty (c :: ds) ->
  make_intlit_expr m base FRESH_CELL p ty = Done (EXPR_INT p (c - CH_0) ty) /\
  0 <= c - CH_0 <= 9.
Proof.
  intros (Hin & Hb & _ & Hdig).
  destruct (digits_pos_span m p ty (c :: ds) Hin Hb) as [Hsz Hspan].
  unfold span_bytes in Hspan. rewrite Hsz, Nat2Z.id in Hspan.
  destruct (bytes_at m (start (digits_pos p ty))) as [|c' rest] eqn:Hat;
    [cbn in Hspan; discriminate|].
  cbn [List.length firstn] in Hspan. injection Hspan as -> _.
  cbn [forallb] in Hdig. apply andb_true_iff in Hdig as [Hc _].
  split.
  - unfold make_intlit_expr, FRESH_CELL.
    rewrite (pos_to_num_first_digit m _ c rest Hat Hc)
      by (rewrite Hsz; cbn [List.length]; lia).
    reflexivity.
  - unfold is_digit in Hc. apply andb_true_iff in Hc as [H1 H2].
    apply Z.leb_le in H1, H2. lia.
Qed.

Lemma intlit_value_first_digit_witness :
  make_intlit_expr buf_256u8 4096 FRESH_CELL pos_256u8 INTLIT_U8
  = Done (EXPR_INT pos_256u8 2 INTLIT_U8).
Proof.
  apply (intlit_value_first_digit buf_256u8 4096 pos_256u8 INTLIT_U8
           50 (bytes_of_string "56")).
  exact literal_256u8.
Defined.

(** ** The parser and its arena: one step *)

Import Pooled.

Lemma grown_refl pool : pool_ok pool -> grown pool pool.
Proof. intros H. split; [exact H|]. split; [reflexivity|lia]. Qed.

Lemma grown_trans p1 p2 p3 : grown p1 p2 -> grown p2 p3 -> grown p1 p3.
Proof.
  intros (_ & Hb1 & Hs1) (Hok & Hb2 & Hs2).
  split; [exact Hok|]. split; [congruence|lia].
Qed.

Lemma grown_ok pool pool' : grown pool pool' -> pool_ok pool'.
Proof. now intros (H & _). Qed.

Lemma vec_wf_grown vec pool pool' :
  vec_wf vec pool -> grown pool pool' -> vec_wf vec pool'.
Proof.
  intros (_ & Hsz & Hi & Hv & Hb & Hd) (Hok & Hbase & Hsize).
  unfold vec_wf. rewrite Hbase.
  split; [exact Hok|]. repeat split; auto; lia.
Qed.

Lemma follows_grown {A B} (part : B -> A) pool pool' real ideal :
  grown pool pool' ->
  follows part pool' real ideal -> follows part pool real ideal.
Proof.
  intros Hg [H | H]; [now left | right].
  destruct ideal as [[a st'] | d | |]; auto.
  destruct H as (b & pool2 & E & Hp & Hg2).
  exists b, pool2. eauto using grown_trans.
Qed.

Lemma follows_ret {A B} (part : B -> A) pool b st :
  pool_ok pool ->
  follows part pool (aret b (mkAState st pool)) (ret (part b) st).
Proof.
  intros Hok. right. exists b, pool. auto using grown_refl.
Qed.

Lemma follows_lexing {A} (c : M A) pool st :
  pool_ok pool ->
  follows (fun a => a) pool (lexing c (mkAState st pool)) (c st).
Proof.
  intros Hok. right. unfold lexing. cbn [lexer ast_pool].
  destruct (c st) as [[a st'] | d | |]; auto.
  exists a, pool. auto using grown_refl.
Qed.

Lemma follows_bind {A A' B B'} (partA : A' -> A) (partB : B' -> B)
    (c : MA A') (ci : M A) (k : A' -> MA B') (ki : A -> M B) pool st :
  follows partA pool (c (mkAState st pool)) (ci st) ->
  (forall a' st' pool',
      grown pool pool' ->
      follows partB pool' (k a' (mkAState st' pool')) (ki (partA a') st')) ->
  follows partB pool (abind c k (mkAState st pool)) (bind ci ki st).
Proof.
  intros [H | H] Hk; unfold abind, bind.
  - left. now rewrite H.
  - destruct (ci st) as [[a st'] | d | |].
    + destruct H as (a' & pool' & -> & <- & Hg).
      apply (follows_grown partB pool pool'); auto.
    + right. now rewrite H.
    + right. now rewrite H.
    + right. now rewrite H.
Qed.

Lemma follows_lexing_bind {A B C} (part : C -> B) (c : M A)
    (k : A -> MA C) (ki : A -> M B) pool st :
  pool_ok pool ->
  (forall a st', follows part pool (k a (mkAState st' pool)) (ki a st')) ->
  follows part pool (abind (lexing c) k (mkAState st pool)) (bind c ki st).
Proof.
  intros Hok Hk. unfold abind, bind, lexing. cbn [lexer ast_pool].
  destruct (c st) as [[a st'] | d | |]; try (now right). apply Hk.
Qed.

(** A step on the pool that is not one of [Parser]. *)
Lemma follows_in_pool {A B C} (part : C -> B)
    (f : MemPool -> Outcome (A * MemPool)) (P : A -> MemPool -> Prop)
    (k : A -> MA C) pool st ideal :
  (f pool = Abort OOM \/
   exists a pool', f pool = Done (a, pool') /\ grown pool pool' /\ P a pool') ->
  (forall a pool',
      grown pool pool' -> P a pool' ->
      follows part pool' (k a (mkAState st pool')) ideal) ->
  follows part pool (abind (in_pool f) k (mkAState st pool)) ideal.
Proof.
  intros [H | (a & pool' & H & Hg & HP)] Hk;
    unfold abind, in_pool; cbn [lexer ast_pool]; rewrite H; cbn [obind].
  - now left.
  - apply (follows_grown part pool pool'); auto.
Qed.

Lemma mempool_alloc_grown pool amount :
  pool_ok pool ->
  request_ok amount ->
  obind (mempool_alloc pool amount)
    (fun '(p, pool', _) => Done (p, pool')) = Abort OOM \/
  exists p pool',
    obind (mempool_alloc pool amount)
      (fun '(p, pool', _) => Done (p, pool')) = Done (p, pool') /\
    grown pool pool' /\ True.
Proof.
  intros Hok Hreq.
  destruct (mempool_alloc_step pool amount Hok Hreq)
    as [-> | (pool1 & calls & -> & Hok1 & Hbase & Hsize & Halloc & _)];
    [now left | right].
  destruct Hreq as [Hq0 _].
  eexists _, _. split; [reflexivity|].
  split; [|exact I]. split; [exact Hok1|]. split; [exact Hbase|lia].
Qed.

Lemma size_ok_request sz : size_ok sz -> request_ok sz.
Proof.
  intros [H0 H]. unfold request_ok, VEC_INIT_ALLOC in *. lia.
Qed.

Lemma follows_make_expr {B C} (part : C -> B) sizes (k : Z -> MA C)
    pool st ideal :
  sizes_ok sizes ->
  pool_ok pool ->
  (forall p pool',
      grown pool pool' ->
      follows part pool' (k p (mkAState st pool')) ideal) ->
  follows part pool (abind (make_expr sizes) k (mkAState st pool)) ideal.
Proof.
  intros (Hsz & _) Hok Hk. unfold make_expr.
  apply (follows_in_pool part _ (fun _ _ => True)).
  - apply mempool_alloc_grown; auto using size_ok_request.
  - intros p pool' Hg _. now apply Hk.
Qed.

Lemma vector_init_grown sz pool :
  size_ok sz ->
  pool_ok pool ->
  Helper.vector_init sz pool = Abort OOM \/
  exists vec pool',
    Helper.vector_init sz pool = Done (vec, pool') /\
    grown pool pool' /\ vec_wf vec pool'.
Proof.
  intros [Hsz Hreq] Hok.
  destruct (vector_init_wf sz pool Hok Hsz Hreq)
    as [-> | (vec & pool' & -> & Hwf & _ & _ & _ & Hdata & Hbase)];
    [now left | right].
  exists vec, pool'. split; [reflexivity|]. split; [|exact Hwf].
  destruct Hwf as (Hok' & Hsz' & Hi & Hv & Hb & Hd).
  split; [exact Hok'|]. split; [exact Hbase|].
  pose proof (mul_bounds 1 (valloc vec) (it_sz vec) ltac:(lia) ltac:(lia)).
  lia.
Qed.

Lemma follows_vector_init {B C} (part : C -> B) sz (k : Vector -> MA C)
    pool st ideal :
  size_ok sz ->
  pool_ok pool ->
  (forall vec pool',
      grown pool pool' -> vec_wf vec pool' ->
      follows part pool' (k vec (mkAState st pool')) ideal) ->
  follows part pool (abind (vector_init sz) k (mkAState st pool)) ideal.
Proof.
  intros Hsz Hok Hk. unfold vector_init.
  apply (follows_in_pool part _ (fun vec pool' => vec_wf vec pool')).
  - now apply vector_init_grown.
  - exact Hk.
Qed.

(** A full vector is resized, unless the arena is used up. *)
Lemma resize_if_full_grown vec pool :
  vec_wf vec pool ->
  (if wrap64 (items vec + 1) >? valloc vec
   then Helper.vector_resize vec pool else Done (vec, pool)) = Abort OOM \/
  exists vec1 pool1,
    (if wrap64 (items vec + 1) >? valloc vec
     then Helper.vector_resize vec pool else Done (vec, pool)) = Done (vec1, pool1) /\
    vec_wf vec1 pool1 /\ items vec1 < valloc vec1 /\ grown pool pool1.
Proof.
  intros Hwf.
  pose proof (vec_wf_bounds vec pool Hwf) as (Hb1 & Hb2 & Hb3 & Hb4).
  destruct Hwf as (Hok & Hsz & [Hi0 Hi] & Hv & Hb & Hd).
  pose proof Hok as [[Hs0 Hs] Ha].
  unfold POOL_MAX_SZ in *.
  rewrite (wrap64_small (items vec + 1))
    by (unfold in_size_t, SIZE_MOD; lia).
  destruct (items vec + 1 >? valloc vec) eqn:E.
  - rewrite Z.gtb_ltb in E. apply Z.ltb_lt in E.
    unfold Helper.vector_resize.
    rewrite (wrap64_small (valloc vec * it_sz vec))
      by (unfold in_size_t, SIZE_MOD; lia).
    rewrite (wrap64_small (valloc vec * it_sz vec * 2))
      by (unfold in_size_t, SIZE_MOD; lia).
    destruct (mempool_alloc_step pool (valloc vec * it_sz vec * 2) Hok)
      as [-> | (pool1 & calls & -> & Hok1 & Hbase & Hsize & Halloc & _)].
    { unfold request_ok, MAX_REQUEST, SIZE_MOD, POOL_MAX_SZ, POOL_CHUNK_SZ.
      lia. }
    { now left. }
    right. cbn [obind].
    rewrite (wrap64_small (valloc vec * 2))
      by (unfold in_size_t, SIZE_MOD; lia).
    eexists _, _. split; [reflexivity|].
    pose proof Hok1 as [[Hs10 Hs1] Ha1].
    unfold vec_wf, grown. cbn [it_sz items valloc data].
    split; [split; [exact Hok1|]; repeat split; lia|].
    split; [lia|]. split; [exact Hok1|]. split; [exact Hbase|lia].
  - right. rewrite Z.gtb_ltb in E. apply Z.ltb_ge in E.
    exists vec, pool. split; [reflexivity|].
    unfold vec_wf, grown.
    split; [split; [exact Hok|]; repeat split; lia|].
    split; [lia|]. split; [exact Hok|]. split; [reflexivity|lia].
Qed.

Lemma counted_up_wf vec pool :
  vec_wf vec pool ->
  items vec < valloc vec ->
  vec_wf {| it_sz := it_sz vec; items := wrap64 (items vec + 1);
            valloc := valloc vec; data := data vec |} pool.
Proof.
  intros Hwf Hlt.
  pose proof (vec_wf_bounds vec pool Hwf) as (Hb1 & Hb2 & Hb3 & Hb4).
  destruct Hwf as (Hok & Hsz & [Hi0 Hi] & Hv & Hb & Hd).
  unfold POOL_MAX_SZ in *.
  rewrite (wrap64_small (items vec + 1))
    by (unfold in_size_t, SIZE_MOD; lia).
  unfold vec_wf. cbn [it_sz items valloc data].
  split; [exact Hok|]. repeat split; lia.
Qed.

Lemma follows_vector_push {B C} (part : C -> B) vec (k : Vector -> MA C)
    pool st ideal :
  vec_wf vec pool ->
  (forall vec' pool',
      grown pool pool' -> vec_wf vec' pool' ->
      follows part pool' (k vec' (mkAState st pool')) ideal) ->
  follows part pool (abind (vector_push vec) k (mkAState st pool)) ideal.
Proof.
  intros Hwf Hk. unfold vector_push.
  apply (follows_in_pool part _ (fun vec' pool' => vec_wf vec' pool')).
  - destruct (resize_if_full_grown vec pool Hwf)
      as [-> | (vec1 & pool1 & -> & Hwf1 & Hlt & Hg)]; [now left | right].
    cbn [obind]. eexists _, _. split; [reflexivity|].
    split; [exact Hg|]. now apply counted_up_wf.
  - exact Hk.
Qed.

Lemma follows_vector_alloc {B C} (part : C -> B) vec (k : Vector -> MA C)
    pool st ideal :
  vec_wf vec pool ->
  (forall vec' pool',
      grown pool pool' -> vec_wf vec' pool' ->
      follows part pool' (k vec' (mkAState st pool')) ideal) ->
  follows part pool (abind (vector_alloc vec) k (mkAState st pool)) ideal.
Proof.
  intros Hwf Hk. unfold vector_alloc.
  apply (follows_in_pool part _ (fun vec' pool' => vec_wf vec' pool')).
  - unfold Helper.vector_alloc.
    destruct (resize_if_full_grown vec pool Hwf)
      as [-> | (vec1 & pool1 & -> & Hwf1 & Hlt & Hg)]; [now left | right].
    cbn [obind]. eexists _, _. split; [reflexivity|].
    split; [exact Hg|]. now apply counted_up_wf.
  - exact Hk.
Qed.

(** ** The parser and its arena: expressions *)

Import Pooled.

Section PooledUnfold.

Variable sizes : Sizes.
Variable m : Buffer.
Variable b : Z.

Lemma pooled_primary_S n :
  Pooled.parse_primary sizes m b (S n)
  = (tok <~ lexing lexer_next ;;
     match t tok with
     | TOK_INT =>
         make_expr sizes ~;;
         lexing (lift (make_intlit_expr m b FRESH_CELL (pos tok)
                         (intlit_type tok)))
     | TOK_SYM =>
         nxt <~ lexing lexer_peek ;;
         if TokKind_beq (t nxt) TOK_LPAREN
         then Pooled.parse_funcall sizes m b n tok
         else make_expr sizes ~;; aret (EXPR_VAR (pos tok))
     | TOK_LPAREN =>
         e <~ Pooled.parse_comp sizes m b n ;;
         lexing (expect TOK_RPAREN "expected ')'") ~;;
         aret e
     | _ => lexing (source_err "expected expression" (pos tok))
     end).
Proof. reflexivity. Qed.

Lemma pooled_funcall_S n name_tok :
  Pooled.parse_funcall sizes m b (S n) name_tok
  = (lexing lexer_next ~;;
     vec <~ vector_init (sizeof_Expr_ptr sizes) ;;
     args <~ Pooled.parse_funcall_loop sizes m b n [] vec ;;
     last_paren <~ lexing (expect TOK_RPAREN "expected ')'") ;;
     make_expr sizes ~;;
     aret (EXPR_FUNCALL (combine_pos (pos name_tok) (pos last_paren))
             (pos name_tok) (fst args))).
Proof. reflexivity. Qed.

Lemma pooled_funcall_loop_S n args vec :
  Pooled.parse_funcall_loop sizes m b (S n) args vec
  = (nxt <~ lexing lexer_peek ;;
     if TokKind_beq (t nxt) TOK_RPAREN then aret (args, vec)
     else
       temp <~ Pooled.parse_comp sizes m b n ;;
       vec' <~ vector_push vec ;;
       nxt' <~ lexing lexer_peek ;;
       if negb (TokKind_beq (t nxt') TOK_COMMA)
       then aret (args ++ [temp], vec')
       else lexing lexer_next ~;;
            Pooled.parse_funcall_loop sizes m b n (args ++ [temp]) vec').
Proof. reflexivity. Qed.

Lemma pooled_factor_S n :
  Pooled.parse_factor sizes m b (S n)
  = (e <~ Pooled.parse_primary sizes m b n ;;
     Pooled.parse_factor_loop sizes m b n e).
Proof. reflexivity. Qed.

Lemma pooled_factor_loop_S n e :
  Pooled.parse_factor_loop sizes m b (S n) e
  = (tok <~ lexing lexer_peek ;;
     if is_mulop (t tok) then
       op <~ lexing parse_binop ;;
       right <~ Pooled.parse_primary sizes m b n ;;
       make_expr sizes ~;;
       Pooled.parse_factor_loop sizes m b n (make_binop e right op)
     else aret e).
Proof. reflexivity. Qed.

Lemma pooled_term_S n :
  Pooled.parse_term sizes m b (S n)
  = (e <~ Pooled.parse_factor sizes m b n ;;
     Pooled.parse_term_loop sizes m b n e).
Proof. reflexivity. Qed.

Lemma pooled_term_loop_S n e :
  Pooled.parse_term_loop sizes m b (S n) e
  = (tok <~ lexing lexer_peek ;;
     if is_addop (t tok) then
       op <~ lexing parse_binop ;;
       right <~ Pooled.parse_factor sizes m b n ;;
       make_expr sizes ~;;
       Pooled.parse_term_loop sizes m b n (make_binop e right op)
     else aret e).
Proof. reflexivity. Qed.

Lemma pooled_comp_S n :
  Pooled.parse_comp sizes m b (S n)
  = (e <~ Pooled.parse_term sizes m b n ;;
     Pooled.parse_comp_loop sizes m b n e).
Proof. reflexivity. Qed.

Lemma pooled_comp_loop_S n e :
  Pooled.parse_comp_loop sizes m b (S n) e
  = (tok <~ lexing lexer_peek ;;
     if is_compop (t tok) then
       op <~ lexing parse_binop ;;
       right <~ Pooled.parse_term sizes m b n ;;
       make_expr sizes ~;;
       Pooled.parse_comp_loop sizes m b n (make_binop e right op)
     else aret e).
Proof. reflexivity. Qed.

Hypothesis Hsizes : sizes_ok sizes.

(** One round of an operator loop. *)
Lemma loop_follows (is_op : TokKind -> bool)
    (operand : MA Expr) (operand0 : M Expr)
    (loop : Expr -> MA Expr) (loop0 : Expr -> M Expr) e st pool :
  pool_ok pool ->
  (forall st1 pool1,
      pool_ok pool1 ->
      follows (fun a => a) pool1 (operand (mkAState st1 pool1))
        (operand0 st1)) ->
  (forall e1 st1 pool1,
      pool_ok pool1 ->
      follows (fun a => a) pool1 (loop e1 (mkAState st1 pool1))
        (loop0 e1 st1)) ->
  follows (fun a => a) pool
    ((tok <~ lexing lexer_peek ;;
      if is_op (t tok) then
        op <~ lexing parse_binop ;;
        right <~ operand ;;
        make_expr sizes ~;;
        loop (make_binop e right op)
      else aret e) (mkAState st pool))
    ((tok <- lexer_peek ;;
      if is_op (t tok) then
        op <- parse_binop ;;
        right <- operand0 ;;
        loop0 (make_binop e right op)
      else ret e) st).
Proof.
  intros Hok Hoperand Hloop.
  apply follows_lexing_bind; [exact Hok|]. intros tok st1.
  destruct (is_op (t tok)).
  - apply follows_lexing_bind; [exact Hok|]. intros op st2.
    apply (follows_bind (fun a => a) (fun a => a)); [now apply Hoperand|].
    intros right st3 pool3 Hg.
    apply follows_make_expr; [exact Hsizes | exact (grown_ok _ _ Hg)|].
    intros p pool4 Hg4. apply Hloop. exact (grown_ok _ _ Hg4).
  - now apply (follows_ret (fun a : Expr => a)).
Qed.

(** An operand and then the loop. *)
Lemma level_follows (operand : MA Expr) (operand0 : M Expr)
    (loop : Expr -> MA Expr) (loop0 : Expr -> M Expr) st pool :
  pool_ok pool ->
  (forall st1 pool1,
      pool_ok pool1 ->
      follows (fun a => a) pool1 (operand (mkAState st1 pool1))
        (operand0 st1)) ->
  (forall e1 st1 pool1,
      pool_ok pool1 ->
      follows (fun a => a) pool1 (loop e1 (mkAState st1 pool1))
        (loop0 e1 st1)) ->
  follows (fun a => a) pool
    ((e <~ operand ;; loop e) (mkAState st pool))
    ((e <- operand0 ;; loop0 e) st).
Proof.
  intros Hok Hoperand Hloop.
  apply (follows_bind (fun a => a) (fun a => a)); [now apply Hoperand|].
  intros e st1 pool1 Hg. apply Hloop. exact (grown_ok _ _ Hg).
Qed.

(** Every expression function runs as its counterpart of [Parser] does,
    unless the arena is used up. *)
Lemma expr_follows n :
  (forall st pool,
      pool_ok pool ->
      follows (fun a => a) pool
        (Pooled.parse_primary sizes m b n (mkAState st pool))
        (Parser.parse_primary m b n st)) /\
  (forall tk st pool,
      pool_ok pool ->
      follows (fun a => a) pool
        (Pooled.parse_funcall sizes m b n tk (mkAState st pool))
        (Parser.parse_funcall m b n tk st)) /\
  (forall args vec st pool,
      vec_wf vec pool ->
      follows fst pool
        (Pooled.parse_funcall_loop sizes m b n args vec (mkAState st pool))
        (Parser.parse_funcall_loop m b n args st)) /\
  (forall st pool,
      pool_ok pool ->
      follows (fun a => a) pool
        (Pooled.parse_factor sizes m b n (mkAState st pool))
        (Parser.parse_factor m b n st)) /\
  (forall e st pool,
      pool_ok pool ->
      follows (fun a => a) pool
        (Pooled.parse_factor_loop sizes m b n e (mkAState st pool))
        (Parser.parse_factor_loop m b n e st)) /\
  (forall st pool,
      pool_ok pool ->
      follows (fun a => a) pool
        (Pooled.parse_term sizes m b n (mkAState st pool))
        (Parser.parse_term m b n st)) /\
  (forall e st pool,
      pool_ok pool ->
      follows (fun a => a) pool
        (Pooled.parse_term_loop sizes m b n e (mkAState st pool))
        (Parser.parse_term_loop m b n e st)) /\
  (forall st pool,
      pool_ok pool ->
      follows (fun a => a) pool
        (Pooled.parse_comp sizes m b n (mkAState st pool))
        (Parser.parse_comp m b n st)) /\
  (forall e st pool,
      pool_ok pool ->
      follows (fun a => a) pool
        (Pooled.parse_comp_loop sizes m b n e (mkAState st pool))
        (Parser.parse_comp_loop m b n e st)).
Proof.
  induction n as [|n (I1 & I2 & I3 & I4 & I5 & I6 & I7 & I8 & I9)].
  - repeat split; intros; right; reflexivity.
  - pose proof Hsizes as (_ & Hptr & _).
    split; [|split; [|split; [|split; [|split; [|split; [|split;
      [|split]]]]]]].
    + (* parse_primary *)
      intros st pool Hok. rewrite pooled_primary_S, parse_primary_S.
      apply follows_lexing_bind; [exact Hok|]. intros tok st1.
      destruct (t tok); try (now apply follows_lexing).
      * (* TOK_INT *)
        apply follows_make_expr; [exact Hsizes | exact Hok|].
        intros p pool1 Hg. apply follows_lexing. exact (grown_ok _ _ Hg).
      * (* TOK_SYM *)
        apply follows_lexing_bind; [exact Hok|]. intros nxt st2.
        destruct (TokKind_beq (t nxt) TOK_LPAREN); [now apply I2|].
        apply follows_make_expr; [exact Hsizes | exact Hok|].
        intros p pool1 Hg.
        apply (follows_ret (fun a : Expr => a)). exact (grown_ok _ _ Hg).
      * (* TOK_LPAREN *)
        apply (follows_bind (fun a => a) (fun a => a)); [now apply I8|].
        intros e st2 pool2 Hg. pose proof (grown_ok _ _ Hg) as Hok2.
        apply follows_lexing_bind; [exact Hok2|]. intros r st3.
        now apply (follows_ret (fun a : Expr => a)).
    + (* parse_funcall *)
      intros tk st pool Hok. rewrite pooled_funcall_S, parse_funcall_S.
      apply follows_lexing_bind; [exact Hok|]. intros tok st1.
      apply follows_vector_init; [exact Hptr | exact Hok|].
      intros vec pool1 Hg1 Hwf1.
      apply (follows_bind fst (fun a => a)); [now apply I3|].
      intros args st2 pool2 Hg2. pose proof (grown_ok _ _ Hg2) as Hok2.
      apply follows_lexing_bind; [exact Hok2|]. intros last_paren st3.
      apply follows_make_expr; [exact Hsizes | exact Hok2|].
      intros p pool3 Hg3.
      apply (follows_ret (fun a : Expr => a)). exact (grown_ok _ _ Hg3).
    + (* parse_funcall_loop *)
      intros args vec st pool Hwf. pose proof Hwf as (Hok & _).
      rewrite pooled_funcall_loop_S, parse_funcall_loop_S.
      apply follows_lexing_bind; [exact Hok|]. intros nxt st1.
      destruct (TokKind_beq (t nxt) TOK_RPAREN).
      { now apply (follows_ret fst pool (args, vec)). }
      apply (follows_bind (fun a => a) fst); [now apply I8|].
      intros temp st2 pool2 Hg2.
      apply follows_vector_push; [exact (vec_wf_grown _ _ _ Hwf Hg2)|].
      intros vec' pool3 Hg3 Hwf3. pose proof (grown_ok _ _ Hg3) as Hok3.
      apply follows_lexing_bind; [exact Hok3|]. intros nxt' st3.
      destruct (negb (TokKind_beq (t nxt') TOK_COMMA)).
      { now apply (follows_ret fst pool3 (args ++ [temp], vec')). }
      apply follows_lexing_bind; [exact Hok3|]. intros tok st4.
      now apply I3.
    + intros st pool Hok. rewrite pooled_factor_S, parse_factor_S.
      now apply level_follows.
    + intros e st pool Hok.
      rewrite pooled_factor_loop_S, parse_factor_loop_S.
      now apply (loop_follows is_mulop).
    + intros st pool Hok. rewrite pooled_term_S, parse_term_S.
      now apply level_follows.
    + intros e st pool Hok.
      rewrite pooled_term_loop_S, parse_term_loop_S.
      now apply (loop_follows is_addop).
    + intros st pool Hok. rewrite pooled_comp_S, parse_comp_S.
      now apply level_follows.
    + intros e st pool Hok.
      rewrite pooled_comp_loop_S, parse_comp_loop_S.
      now apply (loop_follows is_compop).
Qed.

Lemma parse_expr_follows n st pool :
  pool_ok pool ->
  follows (fun a => a) pool
    (Pooled.parse_expr sizes m b n (mkAState st pool))
    (Parser.parse_expr m b n st).
Proof. intros Hok. now apply expr_follows. Qed.

End PooledUnfold.

(** ** The parser and its arena: statements and functions *)

Import Pooled.

Section PooledStmts.

Variable sizes : Sizes.
Variable m : Buffer.
Variable b : Z.
Hypothesis Hsizes : sizes_ok sizes.

Lemma parse_let_follows n mut st pool :
  pool_ok pool ->
  follows (fun a => a) pool
    (Pooled.parse_let sizes m b n mut (mkAState st pool))
    (Parser.parse_let m b n mut st).
Proof.
  intros Hok. unfold Pooled.parse_let, Parser.parse_let.
  apply follows_lexing_bind; [exact Hok|]. intros first_tok st1.
  apply follows_lexing_bind; [exact Hok|]. intros var_name st2.
  apply follows_lexing_bind; [exact Hok|]. intros middle_tok st3.
  destruct (t middle_tok); try (now apply follows_lexing).
  - (* TOK_COLON *)
    apply follows_lexing_bind; [exact Hok|]. intros type st4.
    apply follows_lexing_bind; [exact Hok|]. intros equal_tok st5.
    destruct (t equal_tok); try (now apply follows_lexing).
    + now apply (follows_ret (fun a : Stmt => a)).
    + apply (follows_bind (fun a => a) (fun a => a));
        [now apply parse_expr_follows|].
      intros value st6 pool6 Hg. pose proof (grown_ok _ _ Hg) as Hok6.
      apply follows_lexing_bind; [exact Hok6|]. intros last_tok st7.
      now apply (follows_ret (fun a : Stmt => a)).
  - (* TOK_EQ *)
    apply (follows_bind (fun a => a) (fun a => a));
      [now apply parse_expr_follows|].
    intros value st4 pool4 Hg. pose proof (grown_ok _ _ Hg) as Hok4.
    apply follows_lexing_bind; [exact Hok4|]. intros last_tok st5.
    now apply (follows_ret (fun a : Stmt => a)).
Qed.

Lemma parse_expr_stmt_follows n st pool :
  pool_ok pool ->
  follows (fun a => a) pool
    (Pooled.parse_expr_stmt sizes m b n (mkAState st pool))
    (Parser.parse_expr_stmt m b n st).
Proof.
  intros Hok. unfold Pooled.parse_expr_stmt, Parser.parse_expr_stmt.
  apply (follows_bind (fun a => a) (fun a => a));
    [now apply parse_expr_follows|].
  intros e st1 pool1 Hg. pose proof (grown_ok _ _ Hg) as Hok1.
  apply follows_lexing_bind; [exact Hok1|]. intros tok st2.
  now apply (follows_ret (fun a : Stmt => a)).
Qed.

Lemma parse_return_follows n st pool :
  pool_ok pool ->
  follows (fun a => a) pool
    (Pooled.parse_return sizes m b n (mkAState st pool))
    (Parser.parse_return m b n st).
Proof.
  intros Hok. unfold Pooled.parse_return, Parser.parse_return.
  apply follows_lexing_bind; [exact Hok|]. intros tok st1.
  apply follows_lexing_bind; [exact Hok|]. intros nxt st2.
  destruct (TokKind_beq (t nxt) TOK_NEWLINE).
  - apply follows_lexing_bind; [exact Hok|]. intros tok2 st3.
    now apply (follows_ret (fun a : Stmt => a)).
  - apply (follows_bind (fun a => a) (fun a => a));
      [now apply parse_expr_follows|].
    intros e st3 pool3 Hg. pose proof (grown_ok _ _ Hg) as Hok3.
    apply follows_lexing_bind; [exact Hok3|]. intros tok3 st4.
    now apply (follows_ret (fun a : Stmt => a)).
Qed.

Lemma pooled_block_loop_S n stmts vec :
  Pooled.parse_block_loop sizes m b (S n) stmts vec
  = (nxt <~ lexing lexer_peek ;;
     match t nxt with
     | TOK_LET =>
         vec' <~ vector_alloc vec ;;
         s <~ Pooled.parse_let sizes m b n 0 ;;
         Pooled.parse_block_loop sizes m b n (stmts ++ [s]) vec'
     | TOK_RETURN =>
         vec' <~ vector_alloc vec ;;
         s <~ Pooled.parse_return sizes m b n ;;
         Pooled.parse_block_loop sizes m b n (stmts ++ [s]) vec'
     | TOK_MUT =>
         vec' <~ vector_alloc vec ;;
         s <~ Pooled.parse_let sizes m b n 1 ;;
         Pooled.parse_block_loop sizes m b n (stmts ++ [s]) vec'
     | TOK_RCURLY => lexing lexer_next ~;; aret (stmts, vec)
     | _ =>
         vec' <~ vector_alloc vec ;;
         s <~ Pooled.parse_expr_stmt sizes m b n ;;
         Pooled.parse_block_loop sizes m b n (stmts ++ [s]) vec'
     end).
Proof. reflexivity. Qed.

(** The slot, the statement and the rest of the block. *)
Lemma block_round_follows (stmt : MA Stmt) (stmt0 : M Stmt) n stmts vec
    st pool :
  vec_wf vec pool ->
  (forall st1 pool1,
      pool_ok pool1 ->
      follows (fun a => a) pool1 (stmt (mkAState st1 pool1)) (stmt0 st1)) ->
  (forall stmts1 vec1 st1 pool1,
      vec_wf vec1 pool1 ->
      follows fst pool1
        (Pooled.parse_block_loop sizes m b n stmts1 vec1
           (mkAState st1 pool1))
        (Parser.parse_block_loop m b n stmts1 st1)) ->
  follows fst pool
    ((vec' <~ vector_alloc vec ;;
      s <~ stmt ;;
      Pooled.parse_block_loop sizes m b n (stmts ++ [s]) vec')
       (mkAState st pool))
    ((s <- stmt0 ;; Parser.parse_block_loop m b n (stmts ++ [s])) st).
Proof.
  intros Hwf Hstmt IH.
  apply follows_vector_alloc; [exact Hwf|].
  intros vec' pool1 Hg1 Hwf1.
  apply (follows_bind (fun a => a) fst).
  - apply Hstmt. exact (grown_ok _ _ Hg1).
  - intros s st2 pool2 Hg2. apply IH.
    exact (vec_wf_grown _ _ _ Hwf1 Hg2).
Qed.

Lemma parse_block_loop_follows n : forall stmts vec st pool,
  vec_wf vec pool ->
  follows fst pool
    (Pooled.parse_block_loop sizes m b n stmts vec (mkAState st pool))
    (Parser.parse_block_loop m b n stmts st).
Proof.
  induction n as [|n IH]; intros stmts vec st pool Hwf.
  - right. reflexivity.
  - pose proof Hwf as (Hok & _).
    rewrite pooled_block_loop_S, parse_block_loop_S.
    apply follows_lexing_bind; [exact Hok|]. intros nxt st1.
    destruct (t nxt);
      try (apply block_round_follows;
           [exact Hwf | intros; now apply parse_expr_stmt_follows
           | exact IH]).
    + (* TOK_RCURLY *)
      apply follows_lexing_bind; [exact Hok|]. intros tok st2.
      now apply (follows_ret fst pool (stmts, vec)).
    + (* TOK_LET *)
      apply block_round_follows;
        [exact Hwf | intros; now apply parse_let_follows | exact IH].
    + (* TOK_MUT *)
      apply block_round_follows;
        [exact Hwf | intros; now apply parse_let_follows | exact IH].
    + (* TOK_RETURN *)
      apply block_round_follows;
        [exact Hwf | intros; now apply parse_return_follows | exact IH].
Qed.

Lemma parse_block_follows n st pool :
  pool_ok pool ->
  follows (fun a => a) pool
    (Pooled.parse_block sizes m b n (mkAState st pool))
    (Parser.parse_block m b n st).
Proof.
  intros Hok. pose proof Hsizes as (_ & _ & Hstmt & _).
  unfold Pooled.parse_block, Parser.parse_block.
  apply follows_lexing_bind; [exact Hok|]. intros tok st1.
  apply follows_vector_init; [exact Hstmt | exact Hok|].
  intros vec pool1 Hg1 Hwf1.
  replace (Parser.parse_block_loop m b n [] st1)
    with ((stmts <- Parser.parse_block_loop m b n [] ;; ret stmts) st1).
  2:{ unfold bind, ret.
      now destruct (Parser.parse_block_loop m b n [] st1) as [[? ?]| | |]. }
  apply (follows_bind fst (fun a => a));
    [now apply parse_block_loop_follows|].
  intros stmts st2 pool2 Hg2.
  apply (follows_ret (fun a : list Stmt => a)). exact (grown_ok _ _ Hg2).
Qed.

Lemma pooled_fn_params_S n ps vec :
  Pooled.parse_fn_params (S n) ps vec
  = (nxt <~ lexing lexer_peek ;;
     if negb (TokKind_beq (t nxt) TOK_RPAREN) then
       vec' <~ vector_alloc vec ;;
       name_tok <~ lexing (expect TOK_SYM "expected param name") ;;
       ty <~ lexing parse_type ;;
       nxt' <~ lexing lexer_peek ;;
       lexing (if TokKind_beq (t nxt') TOK_COMMA then lexer_next ;; ret tt
               else ret tt) ~;;
       Pooled.parse_fn_params n
         (ps ++ [{| param_name := pos name_tok; param_type := ty |}]) vec'
     else aret (ps, vec)).
Proof. reflexivity. Qed.

Lemma parse_fn_params_follows n : forall ps vec st pool,
  vec_wf vec pool ->
  follows fst pool
    (Pooled.parse_fn_params n ps vec (mkAState st pool))
    (Parser.parse_fn_params n ps st).
Proof.
  induction n as [|n IH]; intros ps vec st pool Hwf.
  - right. reflexivity.
  - pose proof Hwf as (Hok & _).
    rewrite pooled_fn_params_S, parse_fn_params_S.
    apply follows_lexing_bind; [exact Hok|]. intros nxt st1.
    destruct (negb (TokKind_beq (t nxt) TOK_RPAREN)).
    2:{ now apply (follows_ret fst pool (ps, vec)). }
    apply follows_vector_alloc; [exact Hwf|].
    intros vec' pool1 Hg1 Hwf1. pose proof (grown_ok _ _ Hg1) as Hok1.
    apply follows_lexing_bind; [exact Hok1|]. intros name_tok st2.
    apply follows_lexing_bind; [exact Hok1|]. intros ty st3.
    apply follows_lexing_bind; [exact Hok1|]. intros nxt' st4.
    apply follows_lexing_bind; [exact Hok1|]. intros u st5.
    now apply IH.
Qed.

Lemma parse_fn_follows n st pool :
  pool_ok pool ->
  follows (fun a => a) pool
    (Pooled.parse_fn sizes m b n (mkAState st pool))
    (Parser.parse_fn m b n st).
Proof.
  intros Hok. pose proof Hsizes as (_ & _ & _ & Hparam).
  unfold Pooled.parse_fn, Parser.parse_fn.
  apply follows_lexing_bind; [exact Hok|]. intros name_tok st1.
  apply follows_lexing_bind; [exact Hok|]. intros tok st2.
  apply follows_vector_init; [exact Hparam | exact Hok|].
  intros vec pool1 Hg1 Hwf1.
  apply (follows_bind fst (fun a => a));
    [now apply parse_fn_params_follows|].
  intros ps st3 pool3 Hg3. pose proof (grown_ok _ _ Hg3) as Hok3.
  apply follows_lexing_bind; [exact Hok3|]. intros tok3 st4.
  apply follows_lexing_bind; [exact Hok3|]. intros nxt st5.
  apply follows_lexing_bind; [exact Hok3|]. intros rty st6.
  apply (follows_bind (fun a => a) (fun a => a));
    [now apply parse_block_follows|].
  intros stmts st7 pool7 Hg7.
  apply (follows_ret (fun a : Function => a)). exact (grown_ok _ _ Hg7).
Qed.

Lemma pooled_ast_loop_S n fns vec :
  Pooled.parse_ast_loop sizes m b (S n) fns vec
  = (nxt <~ lexing lexer_peek ;;
     if negb (TokKind_beq (t nxt) TOK_EOF) then
       vec' <~ vector_alloc vec ;;
       f <~ Pooled.parse_fn sizes m b n ;;
       Pooled.parse_ast_loop sizes m b n (fns ++ [f]) vec'
     else aret (fns, vec)).
Proof. reflexivity. Qed.

Lemma parse_ast_loop_follows n : forall fns vec st pool,
  vec_wf vec pool ->
  follows fst pool
    (Pooled.parse_ast_loop sizes m b n fns vec (mkAState st pool))
    (Parser.parse_ast_loop m b n fns st).
Proof.
  induction n as [|n IH]; intros fns vec st pool Hwf.
  - right. reflexivity.
  - pose proof Hwf as (Hok & _).
    rewrite pooled_ast_loop_S, parse_ast_loop_S.
    apply follows_lexing_bind; [exact Hok|]. intros nxt st1.
    destruct (negb (TokKind_beq (t nxt) TOK_EOF)).
    2:{ now apply (follows_ret fst pool (fns, vec)). }
    apply follows_vector_alloc; [exact Hwf|].
    intros vec' pool1 Hg1 Hwf1.
    apply (follows_bind (fun a => a) fst).
    + apply parse_fn_follows. exact (grown_ok _ _ Hg1).
    + intros f st2 pool2 Hg2. apply IH.
      exact (vec_wf_grown _ _ _ Hwf1 Hg2).
Qed.

End PooledStmts.

(** [parse_ast] runs as its counterpart of [Parser] does, unless the
    arena is used up. *)
Lemma parse_ast_follows sizes m n src fns_vec st pool :
  sizes_ok sizes ->
  vec_wf fns_vec pool ->
  follows (fun a => a) pool
    (Pooled.parse_ast sizes m n src fns_vec (mkAState st pool))
    (Parser.parse_ast m n src st).
Proof.
  intros Hsizes Hwf. unfold Pooled.parse_ast, Parser.parse_ast.
  apply (follows_bind fst (fun a => a));
    [now apply parse_ast_loop_follows|].
  intros fns st1 pool1 Hg1. pose proof (grown_ok _ _ Hg1) as Hok1.
  apply follows_lexing_bind; [exact Hok1|]. intros u st2.
  now apply (follows_ret (fun a : list Function => a)).
Qed.

(** ** The parser and its arena: how a run ends *)

Import Pooled PooledInputs.

(** What [follows] says, written out. *)
Lemma follows_cases {A} pool (real : Outcome (A * AState))
    (ideal : Outcome (A * PState)) :
  follows (fun a => a) pool real ideal ->
  real = Abort OOM \/
  match ideal with
  | Done (a, st') =>
      exists pool',
        real = Done (a, mkAState st' pool') /\
        pool_ok pool' /\ base pool' = base pool /\ size pool <= size pool'
  | Abort d => real = Abort d
  | Undef => real = Undef
  | NoFuel => real = NoFuel
  end.
Proof.
  intros [H | H]; [now left | right].
  destruct ideal as [[a st'] | d | |]; auto.
  destruct H as (a' & pool' & E & <- & Hg). now exists pool'.
Qed.

(** A run that ends the process does so out of memory, or as the run
    without the arena does. *)
Lemma follows_abort {A} pool (real : Outcome (A * AState))
    (ideal : Outcome (A * PState)) d :
  follows (fun a => a) pool real ideal ->
  real = Abort d ->
  d = OOM \/ ideal = Abort d.
Proof.
  intros [H | H] E; [left; congruence | right].
  destruct ideal as [[a st'] | d' | |]; try congruence.
  destruct H as (a' & pool' & H & _). congruence.
Qed.

(** X18.  When [parse_expr] ends the process, it is with the
    out-of-memory error of the arena, which every [make_expr] and the
    vector of arguments can raise, or with a source diagnostic: the
    overflow of a literal, reported against [ast->src_base], or one of
    the messages "expected expression" and "expected ')'", reported
    against the file-scope [src_base] at the span of a token of the stream
    or of its end.  The internal error of [parse_binop] is never raised:
    the loops call it only after they have seen an operator. *)
Theorem parse_expr_diagnostics
    (sizes : Sizes) (m : Buffer) (b : Z) (n : nat) (s : AState) (d : Diag) :
  sizes_ok sizes ->
  pool_ok (ast_pool s) ->
  Pooled.parse_expr sizes m b n s = Abort d ->
  d = OOM \/
  (exists text p,
      d = SourceErr (Plain text) (src_base (lexer s)) p /\
      In text EXPR_MSGS /\ token_pos (lexer s) p) \/
  (exists prec str p, d = SourceErr (OverflowOn prec str) b p).
Proof.
  intros Hsizes Hok E. destruct s as [st pool]. cbn [lexer ast_pool] in *.
  destruct (follows_abort pool _ _ d
              (parse_expr_follows sizes m b Hsizes n st pool Hok) E)
    as [-> | E0]; [now left | right].
  exact (parse_expr_aborts m b n st d E0).
Qed.

Lemma parse_expr_diagnostics_witness :
  (OOM = OOM \/
   (exists text p,
       OOM = SourceErr (Plain text)
               (src_base (lexer (mkAState
                                   (initial_state [tok TOK_SYM 4096 1] eof0)
                                   pool_end))) p /\
       In text EXPR_MSGS /\
       token_pos (lexer (mkAState (initial_state [tok TOK_SYM 4096 1] eof0)
                           pool_end)) p) \/
   (exists prec str p, OOM = SourceErr (OverflowOn prec str) 4096 p)) /\
  Pooled.parse_expr sizes64 buf_paren 4096 12
    (mkAState (initial_state [tok TOK_LPAREN 4096 1; tok TOK_SYM 4097 1] eof0)
       pool_start)
  = Abort (SourceErr (Plain "expected ')'") NULL eof0).
Proof.
  split; [|reflexivity].
  apply (parse_expr_diagnostics sizes64 buf_paren 4096 12
           (mkAState (initial_state [tok TOK_SYM 4096 1] eof0) pool_end)).
  - repeat split; vm_compute; congruence.
  - repeat split; vm_compute; congruence.
  - reflexivity.
Defined.

(** X20.  When [parse_ast] ends the process in or after its loop, it is
    with the out-of-memory error of the arena, which every node and every
    vector of the tree can raise, or with a source diagnostic: the
    overflow of a literal, reported against the source it was given, or
    one of the ten messages of the parser at the span of a token of the
    stream or of its end, reported against the file-scope [src_base] as
    it was when [parse_ast] was entered, which is null in a first call.
    No other internal error is raised. *)
Theorem parse_ast_diagnostics
    (sizes : Sizes) (m : Buffer) (n : nat) (src : Z) (fns_vec : Vector)
    (s : AState) (d : Diag) :
  sizes_ok sizes ->
  vec_wf fns_vec (ast_pool s) ->
  Pooled.parse_ast sizes m n src fns_vec s = Abort d ->
  d = OOM \/
  (exists text p,
      d = SourceErr (Plain text) (src_base (lexer s)) p /\
      In text PARSER_MSGS /\ token_pos (lexer s) p) \/
  (exists prec str p, d = SourceErr (OverflowOn prec str) src p).
Proof.
  intros Hsizes Hwf E. destruct s as [st pool]. cbn [lexer ast_pool] in *.
  destruct (follows_abort pool _ _ d
              (parse_ast_follows sizes m n src fns_vec st pool Hsizes Hwf) E)
    as [-> | E0]; [now left | right].
  exact (parse_ast_aborts m n src st d E0).
Qed.

Lemma parse_ast_diagnostics_witness :
  (OOM = OOM \/
   (exists text p,
       OOM = SourceErr (Plain text)
               (src_base (lexer (mkAState
                                   (initial_state
                                      [tok TOK_SYM 4096 1;
                                       tok TOK_LPAREN 4097 1] eof0)
                                   pool_end))) p /\
       In text PARSER_MSGS /\
       token_pos (lexer (mkAState
                           (initial_state
                              [tok TOK_SYM 4096 1; tok TOK_LPAREN 4097 1]
                              eof0)
                           pool_end)) p) \/
   (exists prec str p, OOM = SourceErr (OverflowOn prec str) 4096 p)) /\
  Pooled.parse_ast sizes64 buf_paren 8 4096 fns_vec0
    (mkAState (initial_state [tok TOK_LPAREN 4096 1] eof0) pool_fns)
  = Abort (SourceErr (Plain "expected function name") NULL (mkPos 4096 1)).
Proof.
  split; [|reflexivity].
  apply (parse_ast_diagnostics sizes64 buf_paren 8 4096 fns_vec0
           (mkAState
              (initial_state [tok TOK_SYM 4096 1; tok TOK_LPAREN 4097 1]
                 eof0)
              pool_end)).
  - repeat split; vm_compute; congruence.
  - repeat split; vm_compute; congruence.
  - reflexivity.
Defined.

(** X27.  The allocations change nothing in what [parse_expr] does but
    for the out-of-memory error: a run with the arena ends with that
    error, or it ends as the run of [Parser.parse_expr] does, with the
    same tree and the same state of the lexer, in a pool that has only
    handed out more. *)
Theorem parse_expr_allocations
    (sizes : Sizes) (m : Buffer) (b : Z) (n : nat) (st : PState)
    (pool : MemPool) :
  sizes_ok sizes ->
  pool_ok pool ->
  Pooled.parse_expr sizes m b n (mkAState st pool) = Abort OOM \/
  match Parser.parse_expr m b n st with
  | Done (e, st') =>
      exists pool',
        Pooled.parse_expr sizes m b n (mkAState st pool)
        = Done (e, mkAState st' pool') /\
        pool_ok pool' /\ base pool' = base pool /\ size pool <= size pool'
  | Abort d => Pooled.parse_expr sizes m b n (mkAState st pool) = Abort d
  | Undef => Pooled.parse_expr sizes m b n (mkAState st pool) = Undef
  | NoFuel => Pooled.parse_expr sizes m b n (mkAState st pool) = NoFuel
  end.
Proof.
  intros Hsizes Hok. apply follows_cases.
  now apply parse_expr_follows.
Qed.

Lemma parse_expr_allocations_witness :
  Pooled.parse_expr sizes64 buf_paren 4096 12
    (mkAState (initial_state [tok TOK_SYM 4096 1; tok TOK_ADD 4098 1;
                              tok TOK_SYM 4100 1] eof0) pool_start)
  = Abort OOM \/
  match Parser.parse_expr buf_paren 4096 12
          (initial_state [tok TOK_SYM 4096 1; tok TOK_ADD 4098 1;
                          tok TOK_SYM 4100 1] eof0) with
  | Done (e, st') =>
      exists pool',
        Pooled.parse_expr sizes64 buf_paren 4096 12
          (mkAState (initial_state [tok TOK_SYM 4096 1; tok TOK_ADD 4098 1;
                                    tok TOK_SYM 4100 1] eof0) pool_start)
        = Done (e, mkAState st' pool') /\
        pool_ok pool' /\ base pool' = base pool_start /\
        size pool_start <= size pool'
  | Abort d =>
      Pooled.parse_expr sizes64 buf_paren 4096 12
        (mkAState (initial_state [tok TOK_SYM 4096 1; tok TOK_ADD 4098 1;
                                  tok TOK_SYM 4100 1] eof0) pool_start)
      = Abort d
  | Undef =>
      Pooled.parse_expr sizes64 buf_paren 4096 12
        (mkAState (initial_state [tok TOK_SYM 4096 1; tok TOK_ADD 4098 1;
                                  tok TOK_SYM 4100 1] eof0) pool_start)
      = Undef
  | NoFuel =>
      Pooled.parse_expr sizes64 buf_paren 4096 12
        (mkAState (initial_state [tok TOK_SYM 4096 1; tok TOK_ADD 4098 1;
                                  tok TOK_SYM 4100 1] eof0) pool_start)
      = NoFuel
  end.
Proof.
  apply (parse_expr_allocations sizes64 buf_paren 4096 12).
  - repeat split; vm_compute; congruence.
  - repeat split; vm_compute; congruence.
Defined.

(** X28.  The allocations change nothing in what [parse_ast] does from
    its loop on but for the out-of-memory error: a run with the arena
    ends with that error, or it ends as the run of [Parser.parse_ast]
    does, with the same functions and the same state of the lexer, in a
    pool that has only handed out more. *)
Theorem parse_ast_allocations
    (sizes : Sizes) (m : Buffer) (n : nat) (src : Z) (fns_vec : Vector)
    (st : PState) (pool : MemPool) :
  sizes_ok sizes ->
  vec_wf fns_vec pool ->
  Pooled.parse_ast sizes m n src fns_vec (mkAState st pool) = Abort OOM \/
  match Parser.parse_ast m n src st with
  | Done (fns, st') =>
      exists pool',
        Pooled.parse_ast sizes m n src fns_vec (mkAState st pool)
        = Done (fns, mkAState st' pool') /\
        pool_ok pool' /\ base pool' = base pool /\ size pool <= size pool'
  | Abort d =>
      Pooled.parse_ast sizes m n src fns_vec (mkAState st pool) = Abort d
  | Undef =>
      Pooled.parse_ast sizes m n src fns_vec (mkAState st pool) = Undef
  | NoFuel =>
      Pooled.parse_ast sizes m n src fns_vec (mkAState st pool) = NoFuel
  end.
Proof.
  intros Hsizes Hwf. apply follows_cases.
  now apply parse_ast_follows.
Qed.

Lemma parse_ast_allocations_witness :
  exists pool',
    Pooled.parse_ast sizes64 buf_paren 16 4096 fns_vec0
      (mkAState (initial_state toks_fn_i64 eof0) pool_fns)
    = Done ([{| fn_name := mkPos 4096 1; fn_pos := mkPos 4096 1;
                params := []; ret_type := I64_const; body := [] |}],
            mkAState (mkPState [] eof0 4096) pool') /\
    pool_ok pool' /\ base pool' = base pool_fns /\
    size pool_fns <= size pool'.
Proof.
  assert (Hsizes : sizes_ok sizes64)
    by (repeat split; vm_compute; congruence).
  assert (Hwf : vec_wf fns_vec0 pool_fns)
    by (repeat split; vm_compute; congruence).
  destruct (parse_ast_allocations sizes64 buf_paren 16 4096 fns_vec0
              (initial_state toks_fn_i64 eof0) pool_fns Hsizes Hwf)
    as [E | H].
  - discriminate E.
  - exact H.
Defined.
